(** * QuickLoop: the bulk-transfer core, embedded and checked against its specification

  The development follows the TypeScript sources:
  - [Storage]        <- lib/storage.ts (cache metadata kept in AsyncStorage),
  - [StorageWrites]  <- lib/storage.ts (the functions that write: image
                        cache, room caches, recent rooms),
  - [Supabase]       <- lib/supabase.ts (records, uploadRoomImage, deletes,
                        room codes),
  - [Cloudinary]     <- lib/cloudinary.ts (upload with retries, bulk delete
                        through the edge function),
  - [ImageUtils]     <- lib/imageUtils.ts (cache lookup and filling, single
                        and bulk download),
  - [ChatRoomScreen] <- screens/ChatRoomScreen.tsx (room feed, realtime
                        subscription, uploads, selection, deletes).

  JavaScript numbers that hold counters and millisecond timestamps are
  integers ([nat], [Z]); the upload progress, a fraction, is an exact
  rational ([Q]).  Promises are run to completion in program order; what the
  platform answers is supplied by explicit "world" records. *)

From Stdlib Require Import ZArith QArith Qround Lia Lqa Ascii String.
From stdpp Require Import base option list gmap strings pretty sorting.

Local Open Scope string_scope.
Local Open Scope list_scope.

(* ===================================================================== *)
(** * Part I: the embedding *)
(* ===================================================================== *)

(** ** JavaScript control flow: exceptions and an effect log *)
Module Js.

(** What evaluating an expression (or awaiting a promise) gives: a value,
    or a thrown exception (a rejected promise). *)
Inductive outcome (A : Type) : Type :=
| Ok (a : A)
| Throw.
Arguments Ok {A} a.
Arguments Throw {A}.

(** Sequencing without effects: a throw skips the rest of the block. *)
Definition bind {A B} (m : outcome A) (k : A → outcome B) : outcome B :=
  match m with
  | Ok a => k a
  | Throw => Throw
  end.

(** [try { body } catch { handler }] *)
Definition try_catch {A} (body handler : outcome A) : outcome A :=
  match body with
  | Ok a => Ok a
  | Throw => handler
  end.

(** Calls that leave the process.  Every model below that talks to the
    platform appends the calls it makes, in order. *)
Inductive event : Type :=
| EvRequestPermissions                         (* MediaLibrary.requestPermissionsAsync *)
| EvStorageGet (key : string)                  (* AsyncStorage.getItem *)
| EvGetInfo (path : string)                    (* FileSystem.getInfoAsync *)
| EvDownload (url path : string)               (* FileSystem.downloadAsync *)
| EvCreateAsset (uri : string)                 (* MediaLibrary.createAssetAsync *)
| EvGetAlbum (name : string)                   (* MediaLibrary.getAlbumAsync *)
| EvCreateAlbum (name : string)                (* MediaLibrary.createAlbumAsync *)
| EvAddAssetsToAlbum                           (* MediaLibrary.addAssetsToAlbumAsync *)
| EvFetch (endpoint : string) (ids : list string)   (* fetch(edgeFunctionUrl, POST) *)
| EvDbSelect (ids : list string)               (* supabase.from(..).select(..).in(..) *)
| EvDbDelete (ids : list string)               (* supabase.from(..).delete().in(..) *)
| EvRemoveCachedImage (url : string).          (* removeCachedImage(url) *)

(** An effectful computation: it extends the log and then returns or
    throws.  Calls made before a throw stay in the log. *)
Definition eff (A : Type) : Type := list event → outcome A * list event.

Definition ret {A} (a : A) : eff A := λ log, (Ok a, log).
Definition throw {A} : eff A := λ log, (Throw, log).

Definition ebind {A B} (m : eff A) (k : A → eff B) : eff B :=
  λ log, match m log with
         | (Ok a, log') => k a log'
         | (Throw, log') => (Throw, log')
         end.

(** A platform call: log it, then give the platform's answer. *)
Definition call {A} (e : event) (answer : outcome A) : eff A :=
  λ log, (answer, log ++ [e]).

(** [try { body } catch { handler }] for effectful blocks. *)
Definition etry {A} (body handler : eff A) : eff A :=
  λ log, match body log with
         | (Ok a, log') => (Ok a, log')
         | (Throw, log') => handler log'
         end.

Definition run {A} (m : eff A) : outcome A * list event := m [].

(** A JavaScript string is truthy when it is not empty. *)
Definition truthy (s : string) : bool := negb (bool_decide (s = "")).

Definition is_ok {A} (o : outcome A) : bool :=
  match o with
  | Ok _ => true
  | Throw => false
  end.

(** The characters of a string. *)
Fixpoint chars (s : string) : list ascii :=
  match s with
  | EmptyString => []
  | String c rest => c :: chars rest
  end.

End Js.

Import Js.

(** Sequencing of awaited calls: [let* x := m in k] is
  [const x = await m; k]. *)
Notation "'let*' x ':=' m 'in' k" := (ebind m (λ x, k))
(at level 10, x pattern, m at level 100, k at level 200, only parsing).

(** ** lib/storage.ts *)
Module Storage.

Definition IMAGE_CACHE : string := "image_cache".

(** Cache expiration in milliseconds (7 days). *)
Definition CACHE_EXPIRATION : Z := 7 * 24 * 60 * 60 * 1000.

Record CachedImage : Type := {
  url : string;
  cachedPath : option string;
  timestamp : Z;
  width : option Z;
  height : option Z;
  hash : option string
}.

(** What AsyncStorage holds under IMAGE_CACHE, after JSON.parse: [Throw]
    when getItem or JSON.parse throws, [Ok None] when the key is unset,
    [Ok (Some m)] for a stored object. *)
Definition stored_cache : Type := outcome (option (gmap string CachedImage)).

(** getCachedImages: the stored object, or {} when there is none or the
    read fails. *)
Definition getCachedImages (store : stored_cache) : eff (gmap string CachedImage) :=
  etry (let* cacheData := call (EvStorageGet IMAGE_CACHE) store in
        ret (match cacheData with
             | Some m => m
             | None => ∅
             end))
       (ret ∅).

(** getCachedImage: the entry of [url] when there is one and it is younger
    than CACHE_EXPIRATION at time [now] = Date.now(); null otherwise. *)
Definition getCachedImage (store : stored_cache) (now : Z) (u : string)
  : eff (option CachedImage) :=
  etry (let* cacheData := getCachedImages store in
        ret (match cacheData !! u with
             | Some cachedImage =>
                 if (now - timestamp cachedImage <? CACHE_EXPIRATION)%Z
                 then Some cachedImage
                 else None
             | None => None
             end))
       (ret None).

End Storage.

(** ** lib/cloudinary.ts: bulk delete *)
Module Cloudinary.

(** The parsed body of the edge function's answer: result.success and the
    keys of result.deleted (when present). *)
Record EdgeBody : Type := {
  body_success : bool;
  deleted : option (list string)
}.

(** The answer to the POST: response.ok and JSON.parse(responseText), the
    latter [None] when parsing throws. *)
Record EdgeResponse : Type := {
  ok : bool;
  parsed : option EdgeBody
}.

(** What deleteMultipleFromCloudinary relies on: the public id found in a
    url (getCloudinaryPublicId, a regular-expression match that is not
    modelled further; null is [None]) and the answer of the edge function
    (a throw stands for a rejected fetch or response.text()). *)
Record CloudinaryWorld : Type := {
  getCloudinaryPublicId : string → option string;
  fetch : list string → outcome EdgeResponse
}.

Record BulkDeleteResult : Type := {
  success : bool;
  deletedCount : nat
}.

Definition delete_resources_url : string :=
  "https://ubbkfmsqkcpewlzknifd.supabase.co/functions/v1/delete-cloudinary-resources".

Definition deleteMultipleFromCloudinary (w : CloudinaryWorld) (imageUrls : list string)
  : eff BulkDeleteResult :=
  etry
    (match imageUrls with
     | [] => ret {| success := true; deletedCount := 0 |}
     | _ :: _ =>
         let publicIds :=
           omap (λ url, match getCloudinaryPublicId w url with
                        | Some publicId => if truthy publicId then Some publicId else None
                        | None => None
                        end) imageUrls in
         match publicIds with
         | [] => ret {| success := false; deletedCount := 0 |}
         | _ :: _ =>
             let* response := call (EvFetch delete_resources_url publicIds)
                                   (fetch w publicIds) in
             match parsed response with
             | None => ret {| success := false; deletedCount := 0 |}
             | Some result =>
                 if ok response && body_success result then
                   ret {| success := true;
                          deletedCount := length (default [] (deleted result)) |}
                 else ret {| success := false; deletedCount := 0 |}
             end
         end
     end)
    (ret {| success := false; deletedCount := 0 |}).

(** *** uploadToCloudinary: the retry loop *)

Definition MAX_RETRIES : nat := 3.

(** How one attempt ends: with the secure url of the upload, or with an
    error caught by the catch of the loop body; the error is a timeout
    when its name is AbortError, and a network error when its message
    mentions the network or the connection. *)
Inductive Attempt : Type :=
| Uploaded (secure_url : string)
| Failed (isTimeout isNetworkError : bool).

Definition retryable (a : Attempt) : bool :=
  match a with
  | Uploaded _ => false
  | Failed isTimeout isNetworkError => isTimeout || isNetworkError
  end.

(** The result of uploadToCloudinary, the delays (ms) it waited between
    attempts, and the number of attempts it made. *)
Record UploadRun : Type := {
  upload_result : outcome string;
  delays : list Z;
  attempts : nat
}.

(** while (attempt < MAX_RETRIES) { attempt++; try ... catch ... }, the
    k-th attempt meeting [world k]; [fuel] bounds the turns. *)
Fixpoint upload_attempts (fuel : nat) (world : nat → Attempt) (attempt : nat)
    (waited : list Z) : option UploadRun :=
  if (attempt <? MAX_RETRIES)%nat then
    match fuel with
    | 0 => None
    | S fuel' =>
        let attempt := S attempt in
        match world attempt with
        | Uploaded secure_url =>
            Some {| upload_result := Ok secure_url; delays := waited;
                    attempts := attempt |}
        | Failed isTimeout isNetworkError =>
            if (attempt <? MAX_RETRIES)%nat && (isTimeout || isNetworkError) then
              let delay := (1000 * Z.of_nat attempt)%Z in
              upload_attempts fuel' world attempt (waited ++ [delay])
            else
              Some {| upload_result := Throw; delays := waited; attempts := attempt |}
        end
    end
  else
    Some {| upload_result := Throw; delays := waited; attempts := attempt |}.

Definition uploadToCloudinary (world : nat → Attempt) : option UploadRun :=
  upload_attempts MAX_RETRIES world 0 [].

End Cloudinary.

(** ** lib/supabase.ts *)
Module Supabase.

Record RoomImage : Type := {
  id : option string;
  room_id : string;
  image_url : string;
  uploaded_by : string;
  uploaded_at : option string
}.

Record Room : Type := {
  room_key : string;          (* Room.id *)
  name : string;
  created_by : string
}.

(** The {data, error} pair a query resolves to. *)
Record DbResult (A : Type) : Type := {
  data : option A;
  error : bool
}.
Arguments data {A} _.
Arguments error {A} _.

(** What one call of uploadRoomImage meets: uploadToCloudinary resolves to
    the secure url or rejects (after its own timeout and retries), and the
    insert of the record resolves to {data, error} or rejects. *)
Record UploadWorld : Type := {
  uploadToCloudinary : string → outcome string;
  insert_select : string → string → string → outcome (DbResult (list RoomImage))
}.

(** uploadRoomImage: the whole body is inside try/catch, and the catch
    returns null. *)
Definition uploadRoomImage (w : UploadWorld) (roomId imageUri uploadedBy : string)
  : outcome (option RoomImage) :=
  try_catch
    (bind (uploadToCloudinary w imageUri) (λ imageUrl,
     bind (insert_select w roomId imageUrl uploadedBy) (λ r,
       if error r then Ok None
       else Ok (match data r with
                | Some (first :: _) => Some first
                | _ => None
                end))))
    (Ok None).

(** A row of the select('id, image_url') in deleteMultipleRoomImages. *)
Record ImageRow : Type := {
  row_id : string;
  row_image_url : option string
}.

(** What deleteMultipleRoomImages meets: the select of the urls, the
    Cloudinary side, removeCachedImage (which catches its own errors and
    answers a boolean), and the delete, answering whether it reports an
    error. *)
Record DeleteWorld : Type := {
  select_in : list string → outcome (DbResult (list ImageRow));
  cloudinary : Cloudinary.CloudinaryWorld;
  removeCachedImage : string → bool;
  delete_in : list string → outcome bool
}.

(** Promise.all(imageUrls.map(url => removeCachedImage(url))) *)
Fixpoint removeCachedImages (w : DeleteWorld) (imageUrls : list string) : eff unit :=
  match imageUrls with
  | [] => ret tt
  | url :: rest =>
      let* _ := call (EvRemoveCachedImage url) (Ok (removeCachedImage w url)) in
      removeCachedImages w rest
  end.

Definition deleteMultipleRoomImages (w : DeleteWorld) (imageIds : list string)
  : eff bool :=
  etry
    (match imageIds with
     | [] => ret true
     | _ :: _ =>
         let* fetched := call (EvDbSelect imageIds) (select_in w imageIds) in
         let* _ :=
           (if error fetched then ret tt
            else match data fetched with
                 | Some ((_ :: _) as imageData) =>
                     let imageUrls :=
                       omap (λ img, match row_image_url img with
                                    | Some url => if truthy url then Some url else None
                                    | None => None
                                    end) imageData in
                     match imageUrls with
                     | [] => ret tt
                     | _ :: _ =>
                         let* _ := Cloudinary.deleteMultipleFromCloudinary
                                     (cloudinary w) imageUrls in
                         removeCachedImages w imageUrls
                     end
                 | _ => ret tt
                 end) in
         let* failed := call (EvDbDelete imageIds) (delete_in w imageIds) in
         if failed then ret false else ret true
     end)
    (ret false).

(** *** deleteRoomImage *)

(** The calls deleteRoomImage makes to its collaborators. *)
Inductive backend_call : Type :=
| SelectUrl (imageId : string)
| DeleteFromCloudinary (imageUrl : string)
| RemoveCachedImage (imageUrl : string)
| RpcDelete (imageId : string)
| DirectDelete (imageId : string).

(** What deleteRoomImage meets: the select of the url (.single()), the
    two helpers, which catch their own errors, the rpc, and the direct
    delete, answering whether it reports an error. *)
Record DeleteOneWorld : Type := {
  select_single : outcome (DbResult string);
  deleteFromCloudinary : string → bool;
  removeCached : string → bool;
  rpc_delete : outcome (DbResult bool);
  direct_delete : outcome bool
}.

(** deleteRoomImage: the result and the calls made, in order. *)
Definition deleteRoomImage (w : DeleteOneWorld) (imageId : string)
  : bool * list backend_call :=
  match select_single w with
  | Throw => (false, [SelectUrl imageId])
  | Ok fetched =>
      let helpers :=
        if error fetched then []
        else match data fetched with
             | Some image_url =>
                 if truthy image_url then
                   [DeleteFromCloudinary image_url; RemoveCachedImage image_url]
                 else []
             | None => []
             end in
      let calls := SelectUrl imageId :: helpers ++ [RpcDelete imageId] in
      match rpc_delete w with
      | Throw => (false, calls)
      | Ok rpc =>
          if negb (error rpc) && bool_decide (data rpc = Some true) then (true, calls)
          else
            let calls := calls ++ [DirectDelete imageId] in
            match direct_delete w with
            | Throw => (false, calls)
            | Ok failed => (negb failed, calls)
            end
      end
  end.

(** *** generateRoomCode *)

(** Removed confusing characters like 0, O, 1, I. *)
Definition room_code_chars : string := "ABCDEFGHJKLMNPQRSTUVWXYZ23456789".

(** chars.charAt(i): the empty string out of range. *)
Definition charAt (s : string) (i : Z) : string :=
  if (i <? 0)%Z then ""
  else match String.get (Z.to_nat i) s with
       | Some c => String c ""
       | None => ""
       end.

(** generateRoomCode, the i-th call of Math.random() returning
    [random i]. *)
Definition generateRoomCode (random : nat → Q) : string :=
  foldl (λ result i,
           result +:+ charAt room_code_chars
                        (Qfloor (random i * inject_Z (Z.of_nat (String.length room_code_chars)))))
        "" (seq 0 6).

End Supabase.

(** ** lib/storage.ts: the functions that write *)
Module StorageWrites.
Import Storage Supabase.

(** getCachedImages, as the value it resolves to. *)
Definition read_cache (store : stored_cache) : gmap string CachedImage :=
  match (run (getCachedImages store)).1 with
  | Ok m => m
  | Throw => ∅
  end.

(** Which of the setItem calls of a function throws, if any. *)
Inductive WriteFault : Type := WritesOk | FirstWriteThrows | SecondWriteThrows.

(** saveCachedImage: what it returns, and what it has written under
    IMAGE_CACHE ([None] when nothing was written).  [store] is what the
    key holds when it is read, [now] is Date.now().  The second setItem
    writes IMAGE_CACHE_TIMESTAMP. *)
Definition saveCachedImage (store : stored_cache) (fault : WriteFault) (now : Z)
    (u : string) (path : option string) (w h : option Z) (hsh : option string)
  : bool * option (gmap string CachedImage) :=
  let existingCache := read_cache store in
  let cacheEntry :=
    {| url := u; cachedPath := path; timestamp := now;
       width := w; height := h; hash := hsh |} in
  let updated := <[u := cacheEntry]> existingCache in
  match fault with
  | FirstWriteThrows => (false, None)
  | SecondWriteThrows => (false, Some updated)
  | WritesOk => (true, Some updated)
  end.

(** The room caches, kept as an array under ROOM_IMAGES_CACHE. *)
Record RoomImagesCache : Type := {
  cache_roomId : string;
  cache_images : list CachedImage;
  lastUpdated : Z
}.

Definition stored_room_caches : Type := outcome (option (list RoomImagesCache)).

(** getRoomImagesCaches: the stored array, [] when unset or unreadable. *)
Definition getRoomImagesCaches (store : stored_room_caches) : list RoomImagesCache :=
  match store with
  | Ok (Some caches) => caches
  | _ => []
  end.

(** getRoomImagesCache: the first cache of the room, if it is younger
    than CACHE_EXPIRATION. *)
Definition getRoomImagesCache (store : stored_room_caches) (now : Z) (roomId : string)
  : option RoomImagesCache :=
  match find (λ c, bool_decide (cache_roomId c = roomId)) (getRoomImagesCaches store) with
  | Some roomCache =>
      if (now - lastUpdated roomCache <? CACHE_EXPIRATION)%Z then Some roomCache
      else None
  | None => None
  end.

(** clearExpiredImageCaches: what it returns and what it writes under
    IMAGE_CACHE and under ROOM_IMAGES_CACHE ([None]: not written).  An
    image entry goes when it is older than CACHE_EXPIRATION; the image
    cache is written only if an entry went, the room caches only if their
    number changed.  [image_write] and [rooms_write] say whether each
    setItem, if it is called, succeeds. *)
Definition clearExpiredImageCaches (store : stored_cache) (rooms : stored_room_caches)
    (now : Z) (image_write rooms_write : bool)
  : bool * option (gmap string CachedImage) * option (list RoomImagesCache) :=
  let imageCache := read_cache store in
  let swept :=
    filter (λ kv, ¬ (now - timestamp kv.2 > CACHE_EXPIRATION)%Z) imageCache in
  let hasChanges :=
    existsb (λ kv, (now - timestamp kv.2 >? CACHE_EXPIRATION)%Z)
            (map_to_list imageCache) in
  if hasChanges && negb image_write then (false, None, None)
  else
    let image_written := if hasChanges then Some swept else None in
    let roomCaches := getRoomImagesCaches rooms in
    let validRoomCaches :=
      filter (λ c, (now - lastUpdated c < CACHE_EXPIRATION)%Z) roomCaches in
    if negb (length validRoomCaches =? length roomCaches)%nat then
      if rooms_write then (true, image_written, Some validRoomCaches)
      else (false, image_written, None)
    else (true, image_written, None).

(** The order .sort((a, b) => b.lastUpdated - a.lastUpdated) puts the
    caches in. *)
Definition newer_first (a b : RoomImagesCache) : Prop :=
  (lastUpdated b ≤ lastUpdated a)%Z.

(** saveRoomImagesCache: what it returns, and what it writes under
    ROOM_IMAGES_CACHE.  [sort] is Array.prototype.sort with the comparator
    above, [write_ok] says whether setItem succeeds, and [now] stands for
    Date.now(), read for every image and for the entry. *)
Definition saveRoomImagesCache (sort : list RoomImagesCache → list RoomImagesCache)
    (store : stored_room_caches) (write_ok : bool) (now : Z) (roomId : string)
    (images : list RoomImage) : bool * option (list RoomImagesCache) :=
  let existingCaches := getRoomImagesCaches store in
  let cachedImages :=
    (λ img, {| url := image_url img; cachedPath := None; timestamp := now;
               width := None; height := None; hash := None |}) <$> images in
  let cacheEntry :=
    {| cache_roomId := roomId; cache_images := cachedImages; lastUpdated := now |} in
  let updated :=
    match list_find (λ cache, cache_roomId cache = roomId) existingCaches with
    | Some (roomIndex, _) => <[roomIndex := cacheEntry]> existingCaches
    | None => existingCaches ++ [cacheEntry]
    end in
  let limitedCaches := take 10 (sort updated) in
  if write_ok then (true, Some limitedCaches) else (false, None).

(** What IMAGE_CACHE holds after a call that may have written it. *)
Definition after_write (store : stored_cache)
    (written : option (gmap string CachedImage)) : stored_cache :=
  match written with
  | Some m => Ok (Some m)
  | None => store
  end.

Definition stored_rooms : Type := outcome (option (list Room)).

(** getRecentRooms: the stored list, [] when unset or unreadable. *)
Definition getRecentRooms (store : stored_rooms) : list Room :=
  match store with
  | Ok (Some rooms) => rooms
  | _ => []
  end.

(** saveCurrentRoom: what it returns, and what it has written under
    CURRENT_ROOM and under RECENT_ROOMS. *)
Definition saveCurrentRoom (store : stored_rooms) (fault : WriteFault) (roomData : Room)
  : bool * option Room * option (list Room) :=
  match fault with
  | FirstWriteThrows => (false, None, None)
  | _ =>
      let recentRooms := getRecentRooms store in
      let updatedRooms :=
        roomData :: filter (λ r, room_key r ≠ room_key roomData) recentRooms in
      let limitedRooms := take 5 updatedRooms in
      match fault with
      | SecondWriteThrows => (false, Some roomData, None)
      | _ => (true, Some roomData, Some limitedRooms)
      end
  end.

(** *** removeCachedImage: the rebuilding of the metadata

    After deleting the file, removeCachedImage reads the cache, deletes
    the url from its own copy, and calls saveCachedImage for every other
    entry of the copy, all at once (Promise.all).  Each of those calls
    reads IMAGE_CACHE again, sets its one entry and writes the result
    back; the reads and writes of the calls interleave in any order. *)
Inductive Saver : Type :=
| Waiting (img : CachedImage)                      (* has not read yet *)
| Holding (img : CachedImage) (existingCache : gmap string CachedImage)
| Finished.

Record Removal : Type := {
  disk : gmap string CachedImage;        (* what IMAGE_CACHE holds *)
  savers : list Saver
}.

Definition removal_start (stored : gmap string CachedImage) (imageUrl : string)
  : Removal :=
  {| disk := stored;
     savers := (λ kv, Waiting kv.2) <$> map_to_list (delete imageUrl stored) |}.

Inductive removal_step : Removal → Removal → Prop :=
| saver_reads (c : Removal) (i : nat) (img : CachedImage) :
    savers c !! i = Some (Waiting img) →
    removal_step c
      {| disk := disk c;
         savers := <[i := Holding img (disk c)]> (savers c) |}
| saver_writes (c : Removal) (i : nat) (img : CachedImage)
    (existingCache : gmap string CachedImage) (now : Z) :
    savers c !! i = Some (Holding img existingCache) →
    removal_step c
      {| disk := <[url img := {| url := url img; cachedPath := cachedPath img;
                                 timestamp := now; width := width img;
                                 height := height img; hash := hash img |}]>
                   existingCache;
         savers := <[i := Finished]> (savers c) |}.

(** Every stored entry sits under its own url, as saveCachedImage writes
    them. *)
Definition keyed_by_url (m : gmap string CachedImage) : Prop :=
  ∀ k e, m !! k = Some e → url e = k.

(** What the interleaving keeps true: the disk and every copy held by a
    saver still carry the entry of the url, and no saver saves that url. *)
Definition removal_inv (imageUrl : string) (e : CachedImage) (c : Removal) : Prop :=
  disk c !! imageUrl = Some e
  ∧ ∀ i sv, savers c !! i = Some sv →
      match sv with
      | Waiting img => url img ≠ imageUrl
      | Holding img existingCache =>
          url img ≠ imageUrl ∧ existingCache !! imageUrl = Some e
      | Finished => True
      end.

End StorageWrites.

(** ** lib/imageUtils.ts: cache lookup and bulk download *)
Module ImageUtils.
Import Storage Supabase.

Inductive OS : Type := android | ios.

(** What the device answers while one image is processed.  Each of these
    calls is made at most once per image; the arguments are in the log. *)
Record ItemWorld : Type := {
  now : Z;                                   (* Date.now() *)
  image_cache : stored_cache;                (* AsyncStorage under IMAGE_CACHE *)
  getInfoAsync : outcome bool;               (* FileSystem.getInfoAsync(path).exists *)
  downloadAsync : outcome Z;                 (* FileSystem.downloadAsync(..).status *)
  createAssetAsync : outcome unit;           (* MediaLibrary.createAssetAsync *)
  getAlbumAsync : outcome (option unit);     (* the album, or null *)
  createAlbumAsync : outcome unit;
  addAssetsToAlbumAsync : outcome unit
}.

Record Device : Type := {
  os : OS;                                   (* Platform.OS *)
  cacheDirectory : string;                   (* FileSystem.cacheDirectory *)
  requestPermissionsAsync : outcome string;  (* the status *)
  item : nat → ItemWorld                     (* what the i-th image meets *)
}.

(** getCachedImageUri: the cached path when the entry is valid and its file
    exists, the url itself otherwise (also when anything throws). *)
Definition getCachedImageUri (w : ItemWorld) (u : string) : eff string :=
  etry
    (let* cachedImage := getCachedImage (image_cache w) (now w) u in
     match cachedImage with
     | Some c =>
         match cachedPath c with
         | Some path =>
             if truthy path then
               let* exists_ := call (EvGetInfo path) (getInfoAsync w) in
               if exists_ : bool then ret path else ret u
             else ret u
         | None => ret u
         end
     | None => ret u
     end)
    (ret u).

(** url.split('/').pop(): what follows the last '/'. *)
Fixpoint split_pop (acc s : string) : string :=
  match s with
  | EmptyString => acc
  | String c rest =>
      if Ascii.eqb c "/"%char then split_pop "" rest
      else split_pop (acc +:+ String c "") rest
  end.

Definition temp_file_path (d : Device) (w : ItemWorld) (u : string)
    (successCount : nat) : string :=
  let popped := split_pop "" u in
  let filename :=
    if truthy popped then popped
    else "download-" +:+ pretty (now w) +:+ "-" +:+ pretty successCount +:+ ".jpg" in
  cacheDirectory d +:+ filename.

(** The body of the for loop of downloadMultipleImages, with its own
    try/catch: the new value of successCount.  [None] for the resolved file
    is the continue after a download whose status is not 200. *)
Definition download_one (d : Device) (w : ItemWorld) (image : RoomImage)
    (successCount : nat) : eff nat :=
  etry
    (let* cachedUri := getCachedImageUri w (image_url image) in
     let* fileUri :=
       (if String.eqb cachedUri (image_url image) then
          let tempFilePath := temp_file_path d w (image_url image) successCount in
          let* status := call (EvDownload (image_url image) tempFilePath)
                              (downloadAsync w) in
          if negb (status =? 200)%Z then ret None else ret (Some tempFilePath)
        else ret (Some cachedUri)) in
     match fileUri with
     | None => ret successCount
     | Some fileUri =>
         let* asset := call (EvCreateAsset fileUri) (createAssetAsync w) in
         let* _ :=
           (match os d with
            | android =>
                let* album := call (EvGetAlbum "QuickLoop") (getAlbumAsync w) in
                match album with
                | None => call (EvCreateAlbum "QuickLoop") (createAlbumAsync w)
                | Some _ => call EvAddAssetsToAlbum (addAssetsToAlbumAsync w)
                end
            | ios => ret tt
            end) in
         ret (S successCount)
     end)
    (ret successCount).

(** for (const image of images) { ... }, the i-th image meeting [item d i]. *)
Fixpoint download_each (d : Device) (i : nat) (images : list RoomImage)
    (successCount : nat) : eff nat :=
  match images with
  | [] => ret successCount
  | image :: rest =>
      let* successCount := download_one d (item d i) image successCount in
      download_each d (S i) rest successCount
  end.

Record DownloadResult : Type := {
  success : bool;
  count : nat;
  permissionDenied : option bool
}.

Definition downloadMultipleImages (d : Device) (images : list RoomImage)
  : eff DownloadResult :=
  etry
    (let* status := call EvRequestPermissions (requestPermissionsAsync d) in
     if negb (String.eqb status "granted") then
       ret {| success := false; count := 0; permissionDenied := Some true |}
     else
       let* successCount := download_each d 0 images 0 in
       ret {| success := (0 <? successCount)%nat; count := successCount;
              permissionDenied := None |})
    (ret {| success := false; count := 0; permissionDenied := None |}).

(** *** What "successfully saved" means for one image, read off the world *)

(** A valid cache entry whose file exists: its path. *)
Definition cache_hit (w : ItemWorld) (u : string) : option string :=
  match image_cache w with
  | Ok (Some m) =>
      match m !! u with
      | Some c =>
          if (now w - timestamp c <? CACHE_EXPIRATION)%Z then
            match cachedPath c, getInfoAsync w with
            | Some path, Ok true => if truthy path then Some path else None
            | _, _ => None
            end
          else None
      | None => None
      end
  | _ => None
  end.

Definition download_ok (w : ItemWorld) : bool :=
  match downloadAsync w with
  | Ok status => (status =? 200)%Z
  | Throw => false
  end.

(** A local file is at hand: from the cache, else from a fresh download. *)
Definition has_local_file (w : ItemWorld) (u : string) : bool :=
  match cache_hit w u with
  | Some path => if String.eqb path u then download_ok w else true
  | None => download_ok w
  end.

(** The album step, which only Android has. *)
Definition album_ok (d : Device) (w : ItemWorld) : bool :=
  match os d with
  | android =>
      match getAlbumAsync w with
      | Ok None => is_ok (createAlbumAsync w)
      | Ok (Some _) => is_ok (addAssetsToAlbumAsync w)
      | Throw => false
      end
  | ios => true
  end.

Definition saved (d : Device) (w : ItemWorld) (image : RoomImage) : bool :=
  has_local_file w (image_url image) && is_ok (createAssetAsync w) && album_ok d w.

(** The number of images of the list that are saved, the first one being
    the i-th of the batch. *)
Fixpoint count_saved (d : Device) (i : nat) (images : list RoomImage) : nat :=
  match images with
  | [] => 0
  | image :: rest =>
      (if saved d (item d i) image then 1 else 0) + count_saved d (S i) rest
  end.

(** How many times a log reads the image cache. *)
Fixpoint cache_lookups (log : list event) : nat :=
  match log with
  | [] => 0
  | EvStorageGet _ :: rest => S (cache_lookups rest)
  | _ :: rest => cache_lookups rest
  end.





(** What the device does with one image, whatever the code counts. *)











(** *** downloadImage: one image *)

Record SingleDownloadResult : Type := {
  single_success : bool;
  single_permissionDenied : option bool
}.

(** The name of the temporary file of downloadImage; the fallback name
    carries no counter. *)
Definition single_temp_file_path (d : Device) (w : ItemWorld) (u : string) : string :=
  let popped := split_pop "" u in
  let filename :=
    if truthy popped then popped
    else "download-" +:+ pretty (now w) +:+ ".jpg" in
  cacheDirectory d +:+ filename.

(** downloadImage.  [None] for the resolved file is the early return
    {success: false} after a download whose status is not 200. *)
Definition downloadImage (d : Device) (w : ItemWorld) (imageUrl : string)
  : eff SingleDownloadResult :=
  etry
    (let* status := call EvRequestPermissions (requestPermissionsAsync d) in
     if negb (String.eqb status "granted") then
       ret {| single_success := false; single_permissionDenied := Some true |}
     else
       let* cachedUri := getCachedImageUri w imageUrl in
       let* fileUri :=
         (if String.eqb cachedUri imageUrl then
            let tempFilePath := single_temp_file_path d w imageUrl in
            let* status := call (EvDownload imageUrl tempFilePath) (downloadAsync w) in
            if negb (status =? 200)%Z then ret None else ret (Some tempFilePath)
          else ret (Some cachedUri)) in
       match fileUri with
       | None => ret {| single_success := false; single_permissionDenied := None |}
       | Some fileUri =>
           let* asset := call (EvCreateAsset fileUri) (createAssetAsync w) in
           let* _ :=
             (match os d with
              | android =>
                  let* album := call (EvGetAlbum "QuickLoop") (getAlbumAsync w) in
                  match album with
                  | None => call (EvCreateAlbum "QuickLoop") (createAlbumAsync w)
                  | Some _ => call EvAddAssetsToAlbum (addAssetsToAlbumAsync w)
                  end
              | ios => ret tt
              end) in
           ret {| single_success := true; single_permissionDenied := None |}
       end)
    (ret {| single_success := false; single_permissionDenied := None |}).

(** *** cacheImage *)

Definition IMAGE_CACHE_DIR (d : Device) : string := cacheDirectory d +:+ "images/".

(** url.split('/').pop() || `image-${Date.now()}.jpg` *)
Definition cache_file_name (w : ItemWorld) (u : string) : string :=
  let popped := split_pop "" u in
  if truthy popped then popped
  else "image-" +:+ pretty (now w) +:+ ".jpg".

(** cacheImage: the path it returns (null is [None]), together with what
    its call of saveCachedImage has written under IMAGE_CACHE ([None] when
    saveCachedImage is not called or writes nothing).  The read of the
    cache that saveCachedImage starts with is in the log; [fault] says
    which of its setItem calls throws, if any, which it catches itself. *)
Definition cacheImage (d : Device) (w : ItemWorld) (fault : StorageWrites.WriteFault)
    (u : string) : eff (option string * option (gmap string CachedImage)) :=
  etry
    (let* existingCache := getCachedImage (image_cache w) (now w) u in
     let* found :=
       (match existingCache with
        | Some c =>
            match cachedPath c with
            | Some path =>
                if truthy path then
                  let* exists_ := call (EvGetInfo path) (getInfoAsync w) in
                  if exists_ : bool then ret (Some path) else ret None
                else ret None
            | None => ret None
            end
        | None => ret None
        end) in
     match found with
     | Some path => ret (Some path, None)
     | None =>
         let filename := cache_file_name w u in
         let cachedPath := IMAGE_CACHE_DIR d +:+ filename in
         let* status := call (EvDownload u cachedPath) (downloadAsync w) in
         if (status =? 200)%Z then
           let* _ := getCachedImages (image_cache w) in
           ret (Some cachedPath,
                (StorageWrites.saveCachedImage (image_cache w) fault (now w)
                   u (Some cachedPath) None None None).2)
         else ret (None, None)
     end)
    (ret (None, None)).

(** *** cacheImagesWithPriority *)

Inductive Priority : Type := high | normal | low.

Definition BATCH_SIZE (priority : Priority) : nat :=
  match priority with
  | high => 3
  | _ => 5
  end.

(** priority === 'normal' ? 100 : 300, the delay between two batches. *)
Definition pause_of (priority : Priority) : Z :=
  match priority with
  | normal => 100
  | _ => 300
  end.

(** What a run of cacheImagesWithPriority does, in order. *)
Inductive caching_step : Type :=
| CacheImage (url : string)       (* cacheImage(url) is called *)
| Pause (ms : Z).                 (* the delay between two batches *)

Record Caching : Type := {
  completedCount : nat;
  failedCount : nat;
  caching_steps : list caching_step
}.

(** for (const url of batch) { try { await cacheImage(url); completedCount++ }
    catch { failedCount++ } }, the call for the k-th url of the list
    settling as [cacheImage k url]. *)
Fixpoint cache_in_turn (cacheImage : nat → string → outcome (option string))
    (k : nat) (batch : list string) (c : Caching) : Caching :=
  match batch with
  | [] => c
  | url :: rest =>
      let c :=
        match cacheImage k url with
        | Ok _ =>
            {| completedCount := S (completedCount c);
               failedCount := failedCount c;
               caching_steps := caching_steps c ++ [CacheImage url] |}
        | Throw =>
            {| completedCount := completedCount c;
               failedCount := S (failedCount c);
               caching_steps := caching_steps c ++ [CacheImage url] |}
        end in
      cache_in_turn cacheImage (S k) rest c
  end.

(** One batch, starting at index [i] of the list: with 'high' the calls
    are started together and counted when all have settled
    (Promise.allSettled); otherwise they are awaited one by one. *)
Definition cache_batch (cacheImage : nat → string → outcome (option string))
    (priority : Priority) (i : nat) (batch : list string) (c : Caching) : Caching :=
  match priority with
  | high =>
      let results := imap (λ j url, cacheImage (i + j)%nat url) batch in
      {| completedCount :=
           completedCount c + length (filter (λ r, is_ok r = true) results);
         failedCount :=
           failedCount c + length (filter (λ r, is_ok r = false) results);
         caching_steps := caching_steps c ++ (CacheImage <$> batch) |}
  | _ => cache_in_turn cacheImage i batch c
  end.

(** for (let i = 0; i < imageUrls.length; i += BATCH_SIZE) { ... };
    [fuel] bounds the turns. *)
Fixpoint caching_loop (fuel : nat) (cacheImage : nat → string → outcome (option string))
    (imageUrls : list string) (priority : Priority) (i : nat) (c : Caching)
  : option Caching :=
  if (i <? length imageUrls)%nat then
    match fuel with
    | 0 => None
    | S fuel' =>
        let batch := take (BATCH_SIZE priority) (drop i imageUrls) in
        let c := cache_batch cacheImage priority i batch c in
        let c :=
          match priority with
          | high => c
          | _ =>
              if (i + BATCH_SIZE priority <? length imageUrls)%nat then
                {| completedCount := completedCount c;
                   failedCount := failedCount c;
                   caching_steps := caching_steps c ++ [Pause (pause_of priority)] |}
              else c
          end in
        caching_loop fuel' cacheImage imageUrls priority (i + BATCH_SIZE priority) c
    end
  else Some c.

Definition cacheImagesWithPriority (cacheImage : nat → string → outcome (option string))
    (imageUrls : list string) (priority : Priority) : option Caching :=
  let start := {| completedCount := 0; failedCount := 0; caching_steps := [] |} in
  match imageUrls with
  | [] => Some start
  | _ :: _ => caching_loop (length imageUrls) cacheImage imageUrls priority 0 start
  end.

(** The urls given to cacheImage, and the pauses made, in a run. *)
Definition cached_urls (steps : list caching_step) : list string :=
  omap (λ st, match st with CacheImage url => Some url | Pause _ => None end) steps.

Definition pauses (steps : list caching_step) : list Z :=
  omap (λ st, match st with Pause ms => Some ms | CacheImage _ => None end) steps.

(** How many of the calls of cacheImage on [urls], the first of them being
    the k-th, are fulfilled, and how many are rejected. *)
Definition fulfilled (cacheImage : nat → string → outcome (option string))
    (k : nat) (urls : list string) : nat :=
  length (filter (λ r, is_ok r = true)
                 (imap (λ j url, cacheImage (k + j)%nat url) urls)).

Definition rejected (cacheImage : nat → string → outcome (option string))
    (k : nat) (urls : list string) : nat :=
  length (filter (λ r, is_ok r = false)
                 (imap (λ j url, cacheImage (k + j)%nat url) urls)).

(** *** preloadRoomImages *)

(** preloadRoomImages: the run of the call with 'high' it awaits, and the
    run of the call with 'normal' it then leaves in the background;
    [None] for a call that is not made. *)
Definition preloadRoomImages (cacheImage : nat → string → outcome (option string))
    (images : list RoomImage) : option (option Caching * option Caching) :=
  match images with
  | [] => Some (None, None)
  | _ :: _ =>
      let urls := filter (λ url, truthy url = true) (image_url <$> images) in
      let recentImages := take (10 `min` length urls) urls in
      let remainingImages := drop (10 `min` length urls) urls in
      let recent :=
        match recentImages with
        | [] => Some None
        | _ :: _ => Some <$> cacheImagesWithPriority cacheImage recentImages high
        end in
      let remaining :=
        match remainingImages with
        | [] => Some None
        | _ :: _ =>
            Some <$> cacheImagesWithPriority
                       (λ k, cacheImage (length recentImages + k)%nat)
                       remainingImages normal
        end in
      match recent, remaining with
      | Some recent, Some remaining => Some (recent, remaining)
      | _, _ => None
      end
  end.

(** The steps and the failures of a call that may not have been made. *)
Definition steps_of (r : option Caching) : list caching_step :=
  match r with
  | Some c => caching_steps c
  | None => []
  end.

Definition failures_of (r : option Caching) : nat :=
  match r with
  | Some c => failedCount c
  | None => 0
  end.

(** How the k-th call of cacheImage made on a device settles. *)
Definition cacheImage_on (d : Device) (faults : nat → StorageWrites.WriteFault)
    (k : nat) (u : string) : outcome (option string) :=
  match (run (cacheImage d (item d k) (faults k) u)).1 with
  | Ok r => Ok r.1
  | Throw => Throw
  end.

End ImageUtils.

(** ** screens/ChatRoomScreen.tsx: the room feed and the realtime handler *)
Module ChatRoomScreen.
Import Supabase.

Record Props : Type := {
  room : Room;
  userName : string
}.

Definition isRoomCreator (p : Props) : bool :=
  bool_decide (userName p = created_by (room p)).

(** The React state the feed claims are about.  [toasts] collects the
    messages passed to showToast, oldest first. *)
Record Screen : Type := {
  images : list RoomImage;
  selectedImages : gset string;
  toasts : list string
}.

(** useState initial values. *)
Definition initial : Screen :=
  {| images := []; selectedImages := ∅; toasts := [] |}.

Definition setImages (f : list RoomImage → list RoomImage) (s : Screen) : Screen :=
  {| images := f (images s); selectedImages := selectedImages s; toasts := toasts s |}.

Definition setSelectedImages (f : gset string → gset string) (s : Screen) : Screen :=
  {| images := images s; selectedImages := f (selectedImages s); toasts := toasts s |}.

Definition showToast (message : string) (s : Screen) : Screen :=
  {| images := images s; selectedImages := selectedImages s;
     toasts := toasts s ++ [message] |}.

(** The realtime payload: eventType with payload.new / payload.old. *)
Record OldRecord : Type := { old_id : option string }.

Inductive payload : Type :=
| INSERT (new : RoomImage)
| DELETE (old : option OldRecord)
| UPDATE.

(** img.id === newImage.id, on optional ids (undefined === undefined). *)
Definition same_id (a b : RoomImage) : bool := bool_decide (id a = id b).

(** img.id === deletedImageId, with deletedImageId a string. *)
Definition has_id (x : string) (img : RoomImage) : bool :=
  bool_decide (id img = Some x).

(** The callback given to .on('postgres_changes', ...).

    It is created by setupRealtimeSubscription, which the effect with
    dependencies [room.id] calls; so the callback closes over the render
    that ran the effect.  [captured] is that render's state: the only part
    the callback reads from it is [selectedImages].  [s] is the state at
    the time the event arrives, which the functional updates of setImages
    and setSelectedImages act on. *)
Definition on_postgres_changes (p : Props) (captured : Screen)
    (ev : payload) (s : Screen) : Screen :=
  match ev with
  | INSERT newImage =>
      let exists_ := existsb (λ img, same_id img newImage) (images s) in
      if negb exists_ then
        let s := if negb (bool_decide (uploaded_by newImage = userName p))
                 then showToast (uploaded_by newImage +:+ " shared a new image") s
                 else s in
        setImages (λ prevImages, newImage :: prevImages) s
      else s
  | DELETE (Some {| old_id := Some deletedImageId |}) =>
      if truthy deletedImageId then
        let deletedImage := find (has_id deletedImageId) (images s) in
        let s :=
          match deletedImage with
          | Some img =>
              if negb (bool_decide (uploaded_by img = userName p)) then
                let deleterName :=
                  if bool_decide (uploaded_by img = created_by (room p))
                  then "the room owner"
                  else if truthy (uploaded_by img) then uploaded_by img
                       else "someone" in
                showToast ("An image was deleted by " +:+ deleterName) s
              else s
          | None => s
          end in
        let s :=
          if bool_decide (deletedImageId ∈ selectedImages captured) then
            setSelectedImages (λ prev, prev ∖ {[deletedImageId]}) s
          else s in
        setImages (filter (λ img, id img ≠ Some deletedImageId)) s
      else s
  | DELETE _ => s
  | UPDATE => s
  end.

(** setupRealtimeSubscription, seen from the feed: the render it is called
    in is the one its callback captures. *)
Definition setupRealtimeSubscription_handler (p : Props) (render : Screen)
  : payload → Screen → Screen :=
  on_postgres_changes p render.

(** loadImages, once getRoomImages has answered. *)
Definition loadImages (roomImages : list RoomImage) (s : Screen) : Screen :=
  setImages (λ _, roomImages) s.

(** toggleImageSelection: a UI handler, rebound on every render, so it
    reads the current selection. *)
Definition toggleImageSelection (imageId : string) (s : Screen) : Screen :=
  setSelectedImages
    (λ _, if bool_decide (imageId ∈ selectedImages s)
          then selectedImages s ∖ {[imageId]}
          else selectedImages s ∪ {[imageId]}) s.

(** handleDeleteImage, up to the point where deleteRoomImage is started in
    the background.  [confirmed] is the user's answer to the alert.  The
    result is the new state and the id handed to deleteRoomImage, if any. *)
Definition handleDeleteImage (p : Props) (image : RoomImage) (confirmed : bool)
    (s : Screen) : Screen * option string :=
  if negb (bool_decide (uploaded_by image = userName p)) && negb (isRoomCreator p) then
    (showToast "You can only delete images you uploaded" s, None)
  else
    match id image with
    | Some imageId =>
        if truthy imageId then
          if confirmed then
            (setImages (filter (λ img, id img ≠ Some imageId)) s, Some imageId)
          else (s, None)
        else (showToast "Cannot delete this image: missing ID" s, None)
    | None => (showToast "Cannot delete this image: missing ID" s, None)
    end.

(** The ids shown in the feed. *)
Definition feed_ids (s : Screen) : list (option string) := id <$> images s.

(** *** The subscription status callback *)

Inductive status : Type := SUBSCRIBED | CHANNEL_ERROR | TIMED_OUT | CLOSED.

(** The callback given to .subscribe(...): the delays (ms) of the timers it
    sets, each of which calls setupRealtimeSubscription when it fires.
    retryCount and maxRetries are declared inside the CHANNEL_ERROR
    branch. *)
Definition on_subscribe_status (st : status) : list Z :=
  match st with
  | SUBSCRIBED => []
  | CHANNEL_ERROR =>
      let retryCount := 0%Z in
      let maxRetries := 3%Z in
      if (retryCount <? maxRetries)%Z then
        let delay := (2 ^ retryCount * 2000)%Z in
        [delay]
      else []
  | TIMED_OUT => []
  | CLOSED => []
  end.

(** The subscription manager: subscription.current (the number of the open
    channel), how many channels were opened and closed so far, the timers
    that are set, and the delays of the reconnect attempts already made. *)
Record Manager : Type := {
  subscription : option nat;
  opened : nat;
  unsubscribed : nat;
  timers : list Z;
  reconnects : list Z
}.

Definition unmounted : Manager :=
  {| subscription := None; opened := 0; unsubscribed := 0;
     timers := []; reconnects := [] |}.

(** setupRealtimeSubscription: close the previous channel if there is one,
    open a new one.  The calls on the channel are taken to return; the
    source wraps them in try/catch. *)
Definition setupRealtimeSubscription (m : Manager) : Manager :=
  {| subscription := Some (opened m);
     opened := S (opened m);
     unsubscribed := match subscription m with
                     | Some _ => S (unsubscribed m)
                     | None => unsubscribed m
                     end;
     timers := timers m;
     reconnects := reconnects m |}.

(** What can happen to a mounted manager: the channel reports a status, or
    the oldest timer fires. *)
Inductive manager_event : Type :=
| Status (st : status)
| TimerFires.

Definition manager_step (m : Manager) (e : manager_event) : Manager :=
  match e with
  | Status st =>
      {| subscription := subscription m; opened := opened m;
         unsubscribed := unsubscribed m;
         timers := timers m ++ on_subscribe_status st;
         reconnects := reconnects m |}
  | TimerFires =>
      match timers m with
      | delay :: rest =>
          setupRealtimeSubscription
            {| subscription := subscription m; opened := opened m;
               unsubscribed := unsubscribed m;
               timers := rest;
               reconnects := reconnects m ++ [delay] |}
      | [] => m
      end
  end.

Definition manager_run (es : list manager_event) (m : Manager) : Manager :=
  foldl manager_step m es.

(** The subscription fails [n] times in a row: each time the channel
    reports CHANNEL_ERROR and then the timer set by the callback fires. *)
Fixpoint errors_in_a_row (n : nat) : list manager_event :=
  match n with
  | 0 => []
  | S n' => Status CHANNEL_ERROR :: TimerFires :: errors_in_a_row n'
  end.

(** *** uploadMultipleImages *)

Definition batchSize : nat := 2.
Definition maxRetries : nat := 3.

(** Who called setUploadProgress. *)
Inductive writer : Type :=
| ByReset          (* setUploadProgress(0) on entry *)
| ByTimer          (* the 150 ms progressTimer *)
| BySettle         (* setUploadProgress((completed + failed) / total) *)
| ByCompletion     (* setUploadProgress(1) after the loop *)
| ByRetire.        (* setUploadProgress(0) in the timer of the finally block *)

(** The locals of uploadMultipleImages and the uploadProgress state.
    [progressLog] lists every value uploadProgress took since the batch
    was started, oldest first, with its writer; [uploadCalls] lists the uris handed to uploadRoomImage, in
    call order; [batches] counts the batches taken from the queue. *)
Record Upload : Type := {
  completedUploads : nat;
  failedUploads : nat;
  retries : gmap string nat;
  queue : list string;
  uploadProgress : Q;
  progressLog : list (writer * Q);
  uploadCalls : list string;
  batches : nat
}.

(** What the environment decides during a batch upload: what the k-th call
    of uploadRoomImage meets, how many timer ticks fire between the
    previous settlement and the settlement of the k-th call, and whether in
    the b-th batch the second upload settles before the first. *)
Record UploadSchedule : Type := {
  attempt : nat → UploadWorld;
  ticks_before : nat → nat;
  second_first : nat → bool
}.

(** The updater of the progress timer. *)
Definition progress_tick (prev : Q) : Q :=
  if Qlt_le_dec prev (95 # 100)
  then (prev + ((95 # 100) - prev) * (15 # 100))%Q
  else prev.

Definition fraction (settled total : nat) : Q :=
  (inject_Z (Z.of_nat settled) / inject_Z (Z.of_nat total))%Q.

Definition setUploadProgress (by_ : writer) (f : Q → Q) (u : Upload) : Upload :=
  {| completedUploads := completedUploads u;
     failedUploads := failedUploads u;
     retries := retries u;
     queue := queue u;
     uploadProgress := f (uploadProgress u);
     progressLog := progressLog u ++ [(by_, f (uploadProgress u))];
     uploadCalls := uploadCalls u;
     batches := batches u |}.

Definition timer_ticks (n : nat) (u : Upload) : Upload :=
  Nat.iter n (setUploadProgress ByTimer progress_tick) u.

Definition count_completed (u : Upload) : Upload :=
  {| completedUploads := S (completedUploads u);
     failedUploads := failedUploads u;
     retries := retries u;
     queue := queue u;
     uploadProgress := uploadProgress u;
     progressLog := progressLog u;
     uploadCalls := uploadCalls u;
     batches := batches u |}.

Definition count_failed (u : Upload) : Upload :=
  {| completedUploads := completedUploads u;
     failedUploads := S (failedUploads u);
     retries := retries u;
     queue := queue u;
     uploadProgress := uploadProgress u;
     progressLog := progressLog u;
     uploadCalls := uploadCalls u;
     batches := batches u |}.

Definition requeue (uri : string) (currentRetries : nat) (u : Upload) : Upload :=
  {| completedUploads := completedUploads u;
     failedUploads := failedUploads u;
     retries := <[uri := currentRetries + 1]> (retries u);
     queue := queue u ++ [uri];
     uploadProgress := uploadProgress u;
     progressLog := progressLog u;
     uploadCalls := uploadCalls u;
     batches := batches u |}.

(** The body of the async function mapped over a batch, from the point
    where the awaited uploadRoomImage settles: the try branch when it
    resolves, the catch branch when it rejects. *)
Definition settle (p : Props) (w : UploadWorld) (totalUploads : nat)
    (uri : string) (u : Upload) : Upload :=
  match uploadRoomImage w (room_key (room p)) uri (userName p) with
  | Ok newImage =>
      let u := count_completed u in
      setUploadProgress BySettle
        (λ _, fraction (completedUploads u + failedUploads u) totalUploads) u
  | Throw =>
      let currentRetries := default 0 (retries u !! uri) in
      if (currentRetries <? maxRetries)%nat then
        requeue uri currentRetries u
      else
        let u := count_failed u in
        setUploadProgress BySettle
          (λ _, fraction (completedUploads u + failedUploads u) totalUploads) u
  end.

(** One upload of a batch: its number among all calls, and its uri. *)
Definition job : Type := nat * string.

Definition settle_job (p : Props) (sch : UploadSchedule) (totalUploads : nat)
    (u : Upload) (j : job) : Upload :=
  settle p (attempt sch j.1) totalUploads j.2
    (timer_ticks (ticks_before sch j.1) u).

(** One turn of the while loop: splice the batch off the queue, start its
    uploads in order, let them settle in the order the schedule says. *)
Definition upload_batch (p : Props) (sch : UploadSchedule) (totalUploads : nat)
    (u : Upload) : Upload :=
  let batch := take batchSize (queue u) in
  let first_call := length (uploadCalls u) in
  let jobs := imap (λ i uri, (first_call + i, uri)) batch in
  let order := if second_first sch (batches u) then reverse jobs else jobs in
  let started :=
    {| completedUploads := completedUploads u;
       failedUploads := failedUploads u;
       retries := retries u;
       queue := drop batchSize (queue u);
       uploadProgress := uploadProgress u;
       progressLog := progressLog u;
       uploadCalls := uploadCalls u ++ batch;
       batches := S (batches u) |} in
  foldl (settle_job p sch totalUploads) started order.

(** while (queue.length > 0) { ... }, with [fuel] bounding the number of
    turns. *)
Fixpoint upload_loop (fuel : nat) (p : Props) (sch : UploadSchedule)
    (totalUploads : nat) (u : Upload) : option Upload :=
  match queue u with
  | [] => Some u
  | _ :: _ =>
      match fuel with
      | 0 => None
      | S fuel' =>
          upload_loop fuel' p sch totalUploads (upload_batch p sch totalUploads u)
      end
  end.

(** The toast shown at the end. *)
Inductive UploadReport : Type :=
| NothingToUpload                         (* uris.length === 0: return *)
| UploadedAll (n : nat)                   (* "Uploaded n photos to ..." *)
| UploadedSome (n total : nat)            (* "Uploaded n/total photos to ..." *)
| UploadedNone.                           (* "Failed to upload images. ..." *)

Definition upload_start (uris : list string) : Upload :=
  {| completedUploads := 0;
     failedUploads := 0;
     retries := ∅;
     queue := uris;
     uploadProgress := 0;
     progressLog := [(ByReset, 0%Q)];
     uploadCalls := [];
     batches := 0 |}.

Definition uploadMultipleImages (fuel : nat) (p : Props) (sch : UploadSchedule)
    (uris : list string) : option (Upload * UploadReport) :=
  match uris with
  | [] => Some (upload_start [], NothingToUpload)
  | _ :: _ =>
      let totalUploads := length uris in
      u ← upload_loop fuel p sch totalUploads (upload_start uris);
      let u := setUploadProgress ByCompletion (λ _, 1%Q) u in
      let successfulUploads := completedUploads u in
      Some (u,
            if (successfulUploads =? totalUploads)%nat then UploadedAll successfulUploads
            else if (0 <? successfulUploads)%nat then UploadedSome successfulUploads totalUploads
                 else UploadedNone)
  end.

(** The timer set in the finally block, 500 ms after the batch has
    completed, takes the progress bar away. *)
Definition retire (u : Upload) : Upload :=
  setUploadProgress ByRetire (λ _, 0%Q) u.

(** The values uploadProgress took, and those written at settlements. *)
Definition progress_values (u : Upload) : list Q := snd <$> progressLog u.

Definition settled_values (log : list (writer * Q)) : list Q :=
  omap (λ e, match e.1 with
             | BySettle => Some e.2
             | _ => None
             end) log.

Fixpoint nondecreasing (l : list Q) : Prop :=
  match l with
  | x :: ((y :: _) as rest) => (x <= y)%Q ∧ nondecreasing rest
  | _ => True
  end.

(** Every value written by the timer is at least the value before it. *)
Fixpoint timer_never_decreases (prev : Q) (log : list (writer * Q)) : Prop :=
  match log with
  | [] => True
  | (by_, v) :: rest =>
      (by_ = ByTimer → (prev <= v)%Q) ∧ timer_never_decreases v rest
  end.

(** The value uploadProgress holds after the writes of [log], starting
    from [prev]. *)
Fixpoint last_value (prev : Q) (log : list (writer * Q)) : Q :=
  match log with
  | [] => prev
  | e :: rest => last_value e.2 rest
  end.

(** The fields a settlement leaves alone. *)
Definition same_books (u u' : Upload) : Prop :=
  failedUploads u' = failedUploads u
  ∧ retries u' = retries u
  ∧ queue u' = queue u
  ∧ uploadCalls u' = uploadCalls u
  ∧ batches u' = batches u.

(** What stays true of the progress log while a batch upload runs. *)
Definition log_ok (totalUploads : nat) (u : Upload) : Prop :=
  timer_never_decreases 0 (progressLog u)
  ∧ last_value 0 (progressLog u) = uploadProgress u
  ∧ Forall (λ v, (v <= fraction (completedUploads u + failedUploads u) totalUploads)%Q)
           (settled_values (progressLog u))
  ∧ nondecreasing (settled_values (progressLog u)).

(** *** More handlers of the screen *)

(** img.id && !imageIds.includes(img.id) *)
Definition not_deleted (imageIds : list string) (img : RoomImage) : bool :=
  match id img with
  | Some x => truthy x && negb (bool_decide (x ∈ imageIds))
  | None => false
  end.

(** handleDeleteSelectedImages, up to the point where
    deleteMultipleRoomImages is started in the background: the new state
    and the ids handed to it, if any.

    [render] is the render in which the handler is called: the checks, the
    toasts before the alert, and selectedImagesArray, which the onPress
    callback of the alert closes over, read its feed and its selection.
    [s] is the state when the alert is answered, [confirmed] saying whether
    "Delete" was pressed; the functional update of setImages acts on it. *)
Definition handleDeleteSelectedImages (p : Props) (render : Screen) (confirmed : bool)
    (s : Screen) : Screen * option (list string) :=
  let selectedImagesArray :=
    filter (λ img, default "" (id img) ∈ selectedImages render) (images render) in
  match selectedImagesArray with
  | [] =>
      (showToast "No images selected. Please select at least one image." render, None)
  | _ :: _ =>
      let unauthorizedImages :=
        filter (λ img, uploaded_by img ≠ userName p ∧ isRoomCreator p = false)
               selectedImagesArray in
      if bool_decide (unauthorizedImages ≠ []) && negb (isRoomCreator p) then
        (showToast
           "You can only delete images you uploaded. Please deselect other users' images."
           render, None)
      else if confirmed then
        let imageIds := omap id selectedImagesArray in
        match imageIds with
        | [] => (showToast "No valid image IDs to delete" s, None)
        | _ :: _ =>
            (setImages (filter (λ img, not_deleted imageIds img = true)) s,
             Some imageIds)
        end
      else (s, None)
  end.



(** updateExpiryTime: the label for a room expiring at [expiry] (ms), read
    at [now]. *)
Inductive ExpiryLabel : Type :=
| Expired                               (* "Expired", and the room is left *)
| ExpiresInHours (diffHours diffMinutes : Z)  (* "Expires in {h}h {m}m" *)
| ExpiresInMinutes (diffMinutes : Z).   (* "Expires in {m}m" *)

Definition updateExpiryTime (expiry now : Z) : ExpiryLabel :=
  let diffMs := (expiry - now)%Z in
  if (diffMs <=? 0)%Z then Expired
  else
    let diffHours := (diffMs / (1000 * 60 * 60))%Z in
    let diffMinutes := ((diffMs mod (1000 * 60 * 60)) / (1000 * 60))%Z in
    if (0 <? diffHours)%Z then ExpiresInHours diffHours diffMinutes
    else ExpiresInMinutes diffMinutes.

(** The minutes a label stands for. *)
Definition label_minutes (l : ExpiryLabel) : Z :=
  match l with
  | Expired => 0
  | ExpiresInHours h m => h * 60 + m
  | ExpiresInMinutes m => m
  end.

(** uploadImage (one file), until it returns: the progress is reset, the
    timer ticks [ticks] times while uploadRoomImage is awaited, then the
    progress is set to 1; the result says which toast is shown (true for
    "Uploaded 1 photo").  The timer of the finally block, which sets the
    progress back to 0 half a second later, is not part of it. *)
Definition uploadImage (p : Props) (w : UploadWorld) (ticks : nat) (uri : string)
  : Upload * bool :=
  let u := timer_ticks ticks (upload_start []) in
  match uploadRoomImage w (room_key (room p)) uri (userName p) with
  | Ok newImage =>
      (setUploadProgress ByCompletion (λ _, 1%Q) u,
       match newImage with
       | Some _ => true
       | None => false
       end)
  | Throw => (u, false)
  end.

(** All progress values so far, and the current one, are in the unit
    interval. *)
Definition in_unit (u : Upload) : Prop :=
  Forall (λ v, (0 <= v <= 1)%Q) (progress_values u)
  ∧ (0 <= uploadProgress u <= 1)%Q.

(** How many CHANNEL_ERROR statuses a run of the manager contains. *)
Fixpoint channel_errors (es : list manager_event) : nat :=
  match es with
  | [] => 0
  | Status CHANNEL_ERROR :: rest => S (channel_errors rest)
  | _ :: rest => channel_errors rest
  end.

(** *** getUniqueParticipants *)

(** participants.add(x) on a Set, whose elements stay in insertion
    order. *)
Definition set_add (x : string) (participants : list string) : list string :=
  if bool_decide (x ∈ participants) then participants else participants ++ [x].

(** getUniqueParticipants: Array.from of the Set holding the user, the
    room creator and the uploaders of the feed. *)
Definition getUniqueParticipants (p : Props) (s : Screen) : list string :=
  let participants := set_add (userName p) [] in
  let participants :=
    if truthy (created_by (room p))
       && negb (bool_decide (created_by (room p) = userName p))
    then set_add (created_by (room p)) participants
    else participants in
  foldl (λ participants image,
           if truthy (uploaded_by image)
              && negb (bool_decide (uploaded_by image ∈ participants))
           then set_add (uploaded_by image) participants
           else participants)
        participants (images s).

End ChatRoomScreen.

(** ** Concrete rooms, photos and worlds used by the examples *)
Module Scenario.
Import Supabase ChatRoomScreen.

Definition party : Room :=
  {| room_key := "room-1"; name := "Party"; created_by := "alice" |}.

Definition alice : Props := {| room := party; userName := "alice" |}.

Definition photoX : RoomImage :=
  {| id := Some "X"; room_id := "room-1";
     image_url := "https://res.cloudinary.com/demo/image/upload/v1/x.jpg";
     uploaded_by := "alice"; uploaded_at := Some "2025-01-01T10:00:00Z" |}.

Definition deleteX : payload := DELETE (Some {| old_id := Some "X" |}).

(** A world in which every upload goes through. *)
Definition uploads_succeed : UploadWorld :=
  {| uploadToCloudinary := λ uri, Ok ("https://res.cloudinary.com/demo/" +:+ uri);
     insert_select := λ roomId imageUrl uploadedBy,
       Ok {| data := Some [ {| id := Some "new"; room_id := roomId;
                               image_url := imageUrl; uploaded_by := uploadedBy;
                               uploaded_at := None |} ];
             error := false |} |}.

(** A world in which Cloudinary rejects every upload. *)
Definition uploads_fail : UploadWorld :=
  {| uploadToCloudinary := λ _, Throw;
     insert_select := λ _ _ _, Throw |}.

(** The first upload takes five timer ticks (750 ms), the second settles
    right after it. *)
Definition slow_first_upload : UploadSchedule :=
  {| attempt := λ _, uploads_succeed;
     ticks_before := λ k, match k with 0 => 5 | _ => 0 end;
     second_first := λ _, false |}.

(** The first file never uploads, the second one does. *)
Definition first_upload_fails : UploadSchedule :=
  {| attempt := λ k, match k with 0 => uploads_fail | _ => uploads_succeed end;
     ticks_before := λ _, 1;
     second_first := λ _, false |}.

(** Photos by others, and what a phone answers while saving them. *)
Definition photoY : RoomImage :=
  {| id := Some "Y"; room_id := "room-1";
     image_url := "https://res.cloudinary.com/demo/image/upload/v1/y.jpg";
     uploaded_by := "bob"; uploaded_at := Some "2025-01-01T10:05:00Z" |}.

Definition photoZ : RoomImage :=
  {| id := Some "Z"; room_id := "room-1";
     image_url := "https://res.cloudinary.com/demo/image/upload/v1/z.jpg";
     uploaded_by := "carol"; uploaded_at := Some "2025-01-01T10:10:00Z" |}.

(** Nothing cached, the download answers [status], the library accepts. *)
Definition answers (status : Z) : ImageUtils.ItemWorld :=
  {| ImageUtils.now := 1735725600000%Z;
     ImageUtils.image_cache := Ok None;
     ImageUtils.getInfoAsync := Ok false;
     ImageUtils.downloadAsync := Ok status;
     ImageUtils.createAssetAsync := Ok tt;
     ImageUtils.getAlbumAsync := Ok None;
     ImageUtils.createAlbumAsync := Ok tt;
     ImageUtils.addAssetsToAlbumAsync := Ok tt |}.

(** An Android phone on which the second image of a batch is gone from
    the blob store (404) and the others download. *)
Definition phone (permission : outcome string) : ImageUtils.Device :=
  {| ImageUtils.os := ImageUtils.android;
     ImageUtils.cacheDirectory := "file:///data/cache/";
     ImageUtils.requestPermissionsAsync := permission;
     ImageUtils.item := λ i, match i with
                             | 1 => answers 404%Z
                             | _ => answers 200%Z
                             end |}.

(** A cache entry for photo Y written at time 0, read 7 days later. *)
Definition old_entry : Storage.CachedImage :=
  {| Storage.url := image_url photoY;
     Storage.cachedPath := Some "file:///data/cache/images/y.jpg";
     Storage.timestamp := 0%Z;
     Storage.width := None; Storage.height := None; Storage.hash := None |}.

Definition old_cache : gmap string Storage.CachedImage :=
  {[ image_url photoY := old_entry ]}.

(** The file of the old entry is still there. *)
Definition a_week_later : ImageUtils.ItemWorld :=
  {| ImageUtils.now := Storage.CACHE_EXPIRATION;
     ImageUtils.image_cache := Ok (Some old_cache);
     ImageUtils.getInfoAsync := Ok true;
     ImageUtils.downloadAsync := Ok 200%Z;
     ImageUtils.createAssetAsync := Ok tt;
     ImageUtils.getAlbumAsync := Ok None;
     ImageUtils.createAlbumAsync := Ok tt;
     ImageUtils.addAssetsToAlbumAsync := Ok tt |}.

(** A backend that knows photo Y and deletes what it is asked to. *)
Definition backend : DeleteWorld :=
  {| select_in := λ ids,
       Ok {| data := Some [ {| row_id := "Y"; row_image_url := Some (image_url photoY) |} ];
             error := false |};
     cloudinary :=
       {| Cloudinary.getCloudinaryPublicId := λ _, Some "y";
          Cloudinary.fetch := λ publicIds,
            Ok {| Cloudinary.ok := true;
                  Cloudinary.parsed :=
                    Some {| Cloudinary.body_success := true;
                            Cloudinary.deleted := Some publicIds |} |} |};
     removeCachedImage := λ _, true;
     delete_in := λ _, Ok false |}.

(** A fresh cache entry for photo X, beside the old one of photo Y. *)
Definition entryX : Storage.CachedImage :=
  {| Storage.url := image_url photoX;
     Storage.cachedPath := Some "file:///data/cache/images/x.jpg";
     Storage.timestamp := 500000000%Z;
     Storage.width := None; Storage.height := None; Storage.hash := None |}.

Definition two_entries : gmap string Storage.CachedImage :=
  {[ image_url photoX := entryX; image_url photoY := old_entry ]}.

(** Four rooms visited before the party. *)
Definition earlier_rooms : list Room :=
  [ {| room_key := "AAAAAA"; name := "A"; created_by := "bob" |};
    {| room_key := "room-1"; name := "Party"; created_by := "alice" |};
    {| room_key := "BBBBBB"; name := "B"; created_by := "carol" |};
    {| room_key := "CCCCCC"; name := "C"; created_by := "alice" |} ].


(** The entry cacheImage writes for photo Y on [phone], and the world an
    hour later, offline, with the file in place. *)
Definition fresh_entry : Storage.CachedImage :=
  {| Storage.url := image_url photoY;
     Storage.cachedPath := Some "file:///data/cache/images/y.jpg";
     Storage.timestamp := 1735725600000%Z;
     Storage.width := None; Storage.height := None; Storage.hash := None |}.

Definition an_hour_later : ImageUtils.ItemWorld :=
  {| ImageUtils.now := 1735729200000%Z;
     ImageUtils.image_cache := Ok (Some {[ image_url photoY := fresh_entry ]});
     ImageUtils.getInfoAsync := Ok true;
     ImageUtils.downloadAsync := Throw;
     ImageUtils.createAssetAsync := Ok tt;
     ImageUtils.getAlbumAsync := Ok None;
     ImageUtils.createAlbumAsync := Ok tt;
     ImageUtils.addAssetsToAlbumAsync := Ok tt |}.

(** Two room caches stored before, the one of the party being the older;
    and a sort by merging. *)
Definition stored_caches : list StorageWrites.RoomImagesCache :=
  [ {| StorageWrites.cache_roomId := "room-1"; StorageWrites.cache_images := [];
       StorageWrites.lastUpdated := 1000%Z |};
    {| StorageWrites.cache_roomId := "AAAAAA"; StorageWrites.cache_images := [];
       StorageWrites.lastUpdated := 2000%Z |} ].

(** Array.prototype.sort with the comparator
    (a, b) => b.lastUpdated - a.lastUpdated, which is stable: as an
    insertion sort that puts a cache before the first one that is not
    newer, so caches of equal lastUpdated keep their order. *)
Fixpoint insert_cache (c : StorageWrites.RoomImagesCache)
    (sorted : list StorageWrites.RoomImagesCache)
  : list StorageWrites.RoomImagesCache :=
  match sorted with
  | [] => [c]
  | x :: rest =>
      if (StorageWrites.lastUpdated x <=? StorageWrites.lastUpdated c)%Z
      then c :: x :: rest
      else x :: insert_cache c rest
  end.

Definition sort_caches (caches : list StorageWrites.RoomImagesCache)
  : list StorageWrites.RoomImagesCache :=
  foldr insert_cache [] caches.



(** Alice, the creator, looks at photo X alone; photo Y arrives while an
    alert is open. *)
Definition only_x : Screen := loadImages [photoX] initial.


(** The same with X selected. *)
Definition x_selected : Screen := toggleImageSelection "X" only_x.

Definition y_arrived_x_selected : Screen :=
  on_postgres_changes alice initial (INSERT photoY) x_selected.

End Scenario.

(* ===================================================================== *)
(** * Part II: the claims *)
(* ===================================================================== *)

Import Supabase ChatRoomScreen.

(** ** The room feed under remote events *)
Section Feed.

Context (p : Props).
(** The render captured by the realtime callback; the feed part of the
    handler does not depend on it. *)
Context (captured : Screen).

Local Abbreviation remote := (on_postgres_changes p captured).

Lemma existsb_same_id (newImage : RoomImage) (l : list RoomImage) :
  existsb (λ img, same_id img newImage) l = true ↔ id newImage ∈ id <$> l.
Proof.
  induction l as [|img l IH]; simpl.
  - split; [discriminate | intros H; inversion H].
  - rewrite orb_true_iff, IH, elem_of_cons. unfold same_id.
    rewrite bool_decide_eq_true. split; intros [H|H]; auto.
Qed.

Lemma remote_insert_present (s : Screen) (newImage : RoomImage) :
  id newImage ∈ feed_ids s → remote (INSERT newImage) s = s.
Proof.
  intros Hin. unfold on_postgres_changes.
  apply existsb_same_id in Hin. unfold feed_ids in Hin. by rewrite Hin.
Qed.

Lemma remote_insert_absent (s : Screen) (newImage : RoomImage) :
  id newImage ∉ feed_ids s →
  images (remote (INSERT newImage) s) = newImage :: images s.
Proof.
  intros Hnin. unfold on_postgres_changes.
  destruct (existsb _ (images s)) eqn:E.
  - apply existsb_same_id in E. contradiction.
  - simpl. by destruct (negb (bool_decide _)).
Qed.

Lemma remote_insert_ids (s : Screen) (newImage : RoomImage) :
  id newImage ∈ feed_ids (remote (INSERT newImage) s).
Proof.
  destruct (decide (id newImage ∈ feed_ids s)) as [Hin|Hnin].
  - by rewrite remote_insert_present.
  - unfold feed_ids. rewrite remote_insert_absent by done.
    rewrite fmap_cons. apply elem_of_cons. by left.
Qed.

Lemma filter_drops_id (x : string) (l : list RoomImage) :
  Some x ∉ id <$> filter (λ img, id img ≠ Some x) l.
Proof.
  intros (img & Heq & Hin)%list_elem_of_fmap.
  apply list_elem_of_filter in Hin as [Hne _]. congruence.
Qed.

Lemma remote_delete_images (s : Screen) (x : string) :
  truthy x = true →
  images (remote (DELETE (Some {| old_id := Some x |})) s)
  = filter (λ img, id img ≠ Some x) (images s).
Proof.
  intros Hx. unfold on_postgres_changes. rewrite Hx.
  destruct (find _ _) as [img|]; simpl;
    repeat match goal with
           | |- context [if ?b then _ else _] => destruct b; simpl
           end; reflexivity.
Qed.

Lemma handleDeleteImage_images (image : RoomImage) (s : Screen) (x : string) :
  id image = Some x → truthy x = true →
  uploaded_by image = userName p ∨ isRoomCreator p = true →
  handleDeleteImage p image true s
  = (setImages (filter (λ img, id img ≠ Some x)) s, Some x).
Proof.
  intros Hid Hx Hauth. unfold handleDeleteImage. rewrite Hid, Hx.
  destruct Hauth as [-> | ->].
  - by rewrite bool_decide_eq_true_2.
  - by rewrite andb_false_r.
Qed.

(** C1, as amended.  The feed keeps no record of an optimistic removal:
    after the local delete of X the item is gone from the feed, a remote
    insert event carrying X puts it back at the head of the feed, and a
    remote delete event for X removes it again. *)
Theorem optimistic_delete_then_remote_insert
    (s : Screen) (image newImage : RoomImage) (x : string) :
  id image = Some x → truthy x = true →
  uploaded_by image = userName p ∨ isRoomCreator p = true →
  id newImage = Some x →
  let s1 := (handleDeleteImage p image true s).1 in
  let s2 := remote (INSERT newImage) s1 in
  let s3 := remote (DELETE (Some {| old_id := Some x |})) s2 in
  (Some x ∉ feed_ids s1)
  ∧ images s2 = newImage :: images s1
  ∧ (Some x ∉ feed_ids s3).
Proof.
  intros Hid Hx Hauth Hnew s1 s2 s3.
  assert (Hs1 : Some x ∉ feed_ids s1).
  { subst s1. rewrite (handleDeleteImage_images _ _ x) by done.
    apply filter_drops_id. }
  split; [done|]. split.
  - subst s2. apply remote_insert_absent. by rewrite Hnew.
  - subst s3. unfold feed_ids. rewrite remote_delete_images by done.
    apply filter_drops_id.
Qed.

(** C7.  A remote insert event whose id X is already in the feed leaves
    the state as it is; applying an insert event twice is the same as
    applying it once; and a feed without duplicate ids stays so. *)
Theorem remote_insert_idempotent (s : Screen) (newImage : RoomImage) (x : string) :
  (id newImage = Some x → Some x ∈ feed_ids s →
     remote (INSERT newImage) s = s)
  ∧ remote (INSERT newImage) (remote (INSERT newImage) s)
    = remote (INSERT newImage) s
  ∧ (NoDup (feed_ids s) → NoDup (feed_ids (remote (INSERT newImage) s))).
Proof.
  split; [|split].
  - intros Hid Hin. apply remote_insert_present. by rewrite Hid.
  - apply remote_insert_present, remote_insert_ids.
  - intros Hnd. destruct (decide (id newImage ∈ feed_ids s)) as [Hin|Hnin].
    + by rewrite remote_insert_present.
    + unfold feed_ids. rewrite remote_insert_absent by done.
      rewrite fmap_cons. by apply NoDup_cons.
Qed.

End Feed.

(** C1, counterexample.  Alice deletes her photo X (it leaves the feed at
    once); the insert event for X arrives afterwards; X is back in the
    feed. *)
Lemma stale_insert_reintroduces_item :
  let s0 := loadImages [Scenario.photoX] initial in
  let s1 := (handleDeleteImage Scenario.alice Scenario.photoX true s0).1 in
  let s2 := on_postgres_changes Scenario.alice initial (INSERT Scenario.photoX) s1 in
  (Some "X" ∉ feed_ids s1) ∧ ¬ (Some "X" ∉ feed_ids s2).
Proof.
  split.
  - vm_compute. inversion 1.
  - intros H. apply H. vm_compute. apply list_elem_of_here.
Qed.

Lemma optimistic_delete_then_remote_insert_witness :
  let s0 := loadImages [Scenario.photoX] initial in
  let s1 := (handleDeleteImage Scenario.alice Scenario.photoX true s0).1 in
  let s2 := on_postgres_changes Scenario.alice initial (INSERT Scenario.photoX) s1 in
  let s3 := on_postgres_changes Scenario.alice initial Scenario.deleteX s2 in
  (Some "X" ∉ feed_ids s1)
  ∧ images s2 = Scenario.photoX :: images s1
  ∧ (Some "X" ∉ feed_ids s3).
Proof.
  apply (optimistic_delete_then_remote_insert Scenario.alice initial
           (loadImages [Scenario.photoX] initial) Scenario.photoX Scenario.photoX "X").
  - reflexivity.
  - reflexivity.
  - left. reflexivity.
  - reflexivity.
Defined.

Lemma remote_insert_idempotent_witness :
  let s := loadImages [Scenario.photoX] initial in
  let ev := INSERT Scenario.photoX in
  on_postgres_changes Scenario.alice initial ev s = s
  ∧ NoDup (feed_ids (on_postgres_changes Scenario.alice initial ev s)).
Proof.
  pose proof (remote_insert_idempotent Scenario.alice initial
                (loadImages [Scenario.photoX] initial) Scenario.photoX "X")
    as (Hsame & _ & Hnodup).
  split.
  - apply Hsame; [reflexivity | vm_compute; apply list_elem_of_here].
  - apply Hnodup. vm_compute. apply NoDup_singleton.
Defined.

(** ** The selection under remote delete events *)

Lemma stale_selection_untouched (p : Props) (captured : Screen) (ev : payload)
    (s : Screen) :
  selectedImages captured = ∅ →
  selectedImages (on_postgres_changes p captured ev s) = selectedImages s.
Proof.
  intros Hempty. destruct ev as [newImage | [[[x|]]|] | ]; simpl; try reflexivity.
  - destruct (negb (existsb _ _)); [|reflexivity].
    by destruct (negb (bool_decide _)).
  - destruct (truthy x); [|reflexivity].
    rewrite Hempty, bool_decide_eq_false_2 by set_solver.
    destruct (find _ _) as [img|]; simpl;
      repeat match goal with
             | |- context [if ?b then _ else _] => destruct b; simpl
             end; reflexivity.
Qed.

(** C9, on the code.  The realtime callback tests the selection of the
    render that set the subscription up, which is the first render of the
    room, with nothing selected; so a remote delete event never changes the
    selection.  In particular: X is loaded, the user selects X, the delete
    event for X arrives; X leaves the feed and stays selected. *)
Theorem remote_delete_keeps_stale_selection :
  (∀ (p : Props) (old : option OldRecord) (s : Screen),
     selectedImages (setupRealtimeSubscription_handler p initial (DELETE old) s)
     = selectedImages s)
  ∧ (let handler := setupRealtimeSubscription_handler Scenario.alice initial in
     let s := toggleImageSelection "X" (loadImages [Scenario.photoX] initial) in
     let s' := handler Scenario.deleteX s in
     images s' = [] ∧ "X" ∈ selectedImages s').
Proof.
  split.
  - intros p old s. by apply stale_selection_untouched.
  - intros handler s s'. split; [reflexivity|].
    subst s' handler. unfold setupRealtimeSubscription_handler.
    rewrite stale_selection_untouched by reflexivity.
    subst s. simpl. rewrite bool_decide_eq_false_2 by set_solver. set_solver.
Qed.

(** ** The subscription manager *)

Lemma errors_in_a_row_run (n : nat) (m : Manager) :
  timers m = [] →
  let m' := manager_run (errors_in_a_row n) m in
  reconnects m' = reconnects m ++ replicate n 2000%Z
  ∧ opened m' = n + opened m
  ∧ timers m' = [].
Proof.
  revert m. induction n as [|n IH]; intros m Hm; simpl.
  - by rewrite app_nil_r.
  - rewrite Hm. simpl.
    match goal with
    | |- context [manager_run _ ?m1] => specialize (IH m1 eq_refl)
    end.
    simpl in IH. destruct IH as (Hr & Ho & Ht).
    unfold manager_run in *. rewrite Hr, Ho, Ht.
    rewrite <- app_assoc. simpl. split; [done|]. split; [lia|done].
Qed.

(** C3, on the code.  retryCount is a local of the status callback and
    starts at 0 on every CHANNEL_ERROR, so the bound of 3 is never reached
    and the delay never grows: after [n] errors in a row the manager has
    made [n] reconnect attempts, each after 2000 ms.  With 4 errors that is
    4 attempts, the last one beyond the stated maximum. *)
Theorem channel_error_always_reconnects :
  (∀ n : nat,
     let m := manager_run (errors_in_a_row n) (setupRealtimeSubscription unmounted) in
     reconnects m = replicate n 2000%Z ∧ opened m = S n)
  ∧ reconnects (manager_run (errors_in_a_row 4) (setupRealtimeSubscription unmounted))
    = [2000; 2000; 2000; 2000]%Z.
Proof.
  split; [|reflexivity].
  intros n m.
  destruct (errors_in_a_row_run n (setupRealtimeSubscription unmounted) eq_refl)
    as (Hr & Ho & _).
  fold m in Hr, Ho. simpl in Hr, Ho. split; [done|lia].
Qed.

(** ** Batch upload *)
Section BatchUpload.

Context (p : Props) (sch : UploadSchedule).

(** uploadRoomImage catches whatever its body throws. *)
Lemma uploadRoomImage_never_throws (w : UploadWorld) (roomId imageUri uploadedBy : string) :
  ∃ newImage, uploadRoomImage w roomId imageUri uploadedBy = Ok newImage.
Proof.
  unfold uploadRoomImage, try_catch, bind.
  destruct (uploadToCloudinary w imageUri) as [imageUrl|]; [|by eexists].
  destruct (insert_select w roomId imageUrl uploadedBy) as [r|]; [|by eexists].
  destruct (error r); by eexists.
Qed.

(** So the catch branch of the batch loop is never entered: a settled
    upload is always counted as completed. *)
Lemma settle_counts_completed (w : UploadWorld) (total : nat) (uri : string) (u : Upload) :
  settle p w total uri u
  = setUploadProgress BySettle
      (λ _, fraction (S (completedUploads u) + failedUploads u) total)
      (count_completed u).
Proof.
  unfold settle.
  by destruct (uploadRoomImage_never_throws w (room_key (room p)) uri (userName p))
    as [newImage ->].
Qed.

Lemma timer_ticks_books (n : nat) (u : Upload) :
  same_books u (timer_ticks n u)
  ∧ completedUploads (timer_ticks n u) = completedUploads u.
Proof.
  unfold same_books, timer_ticks.
  induction n as [|n IH]; simpl; [done|]. exact IH.
Qed.

Lemma settle_job_books (total : nat) (u : Upload) (j : job) :
  same_books u (settle_job p sch total u j)
  ∧ completedUploads (settle_job p sch total u j) = S (completedUploads u).
Proof.
  unfold settle_job. rewrite settle_counts_completed.
  destruct (timer_ticks_books (ticks_before sch j.1) u) as ((?&?&?&?&?) & Hc).
  unfold same_books. simpl. rewrite Hc. done.
Qed.

Lemma settle_jobs_books (total : nat) (jobs : list job) (u : Upload) :
  same_books u (foldl (settle_job p sch total) u jobs)
  ∧ completedUploads (foldl (settle_job p sch total) u jobs)
    = length jobs + completedUploads u.
Proof.
  revert u. induction jobs as [|j jobs IH]; intros u; simpl.
  - by unfold same_books.
  - destruct (IH (settle_job p sch total u j)) as ((?&?&?&?&?) & Hc).
    destruct (settle_job_books total u j) as ((?&?&?&?&?) & Hc').
    unfold same_books. rewrite Hc, Hc'. split; [|lia].
    repeat split; congruence.
Qed.

Lemma upload_batch_books (total : nat) (u : Upload) :
  let u' := upload_batch p sch total u in
  completedUploads u' = length (take batchSize (queue u)) + completedUploads u
  ∧ failedUploads u' = failedUploads u
  ∧ retries u' = retries u
  ∧ queue u' = drop batchSize (queue u)
  ∧ uploadCalls u' = uploadCalls u ++ take batchSize (queue u).
Proof.
  intros u'. subst u'. unfold upload_batch.
  match goal with
  | |- context [foldl _ ?st ?order] =>
      destruct (settle_jobs_books total order st) as ((Hf&Hr&Hq&Hu&_) & Hc)
  end.
  rewrite Hc, Hf, Hr, Hq, Hu. simpl.
  split; [|done]. f_equal.
  destruct (second_first sch (batches u));
    rewrite ?length_reverse, length_imap; done.
Qed.

(** The loop ends within as many turns as the queue is long, every queued
    uri having been uploaded once and counted as completed. *)
Lemma upload_loop_books (total fuel : nat) (u : Upload) :
  (length (queue u) ≤ fuel)%nat →
  ∃ u', upload_loop fuel p sch total u = Some u'
        ∧ queue u' = []
        ∧ completedUploads u' = length (queue u) + completedUploads u
        ∧ failedUploads u' = failedUploads u
        ∧ retries u' = retries u
        ∧ uploadCalls u' = uploadCalls u ++ queue u.
Proof.
  revert u. induction fuel as [|fuel IH]; intros u Hfuel.
  - destruct (queue u) eqn:Hq; [|simpl in Hfuel; lia].
    exists u. simpl. rewrite Hq, app_nil_r. done.
  - simpl. destruct (queue u) as [|uri rest] eqn:Hq.
    + exists u. rewrite Hq, app_nil_r. done.
    + destruct (upload_batch_books total u) as (Hc & Hf & Hr & Hq' & Hu).
      rewrite Hq in Hc, Hq', Hu.
      destruct (IH (upload_batch p sch total u)) as (u' & Hrun & ? & Hc2 & ? & ? & Hu2).
      { rewrite Hq', length_drop. simpl in *. lia. }
      exists u'. split; [done|]. split; [done|].
      rewrite Hc2, Hu2, Hq', Hc, Hu, length_drop, length_take.
      split; [unfold batchSize; cbn [length]; lia|].
      split; [congruence|]. split; [congruence|].
      by rewrite <- app_assoc, take_drop.
Qed.

(** C2, on the code.  With enough fuel for one turn per file, a batch of N
    files ends with completedUploads = N and failedUploads = 0 whatever the
    uploads meet: uploadRoomImage was called once per file and never again,
    the retries map is still empty, and the report is "uploaded all".  An
    upload that fails makes uploadRoomImage return null, not throw, so the
    catch branch with the re-enqueueing never runs. *)
Theorem failed_uploads_are_counted_completed (fuel : nat) (uris : list string) :
  uris ≠ [] → (length uris ≤ fuel)%nat →
  ∃ u, uploadMultipleImages fuel p sch uris = Some (u, UploadedAll (length uris))
       ∧ completedUploads u = length uris
       ∧ failedUploads u = 0
       ∧ uploadCalls u = uris
       ∧ retries u = ∅.
Proof.
  intros Hne Hfuel. unfold uploadMultipleImages.
  destruct uris as [|uri rest] eqn:Huris; [done|]. rewrite <- Huris in *.
  destruct (upload_loop_books (length uris) fuel (upload_start uris) Hfuel)
    as (u & Hrun & _ & Hc & Hf & Hr & Hu).
  simpl in Hc, Hf, Hr, Hu. rewrite Hrun. simpl.
  rewrite Hc, Nat.add_0_r, Nat.eqb_refl.
  eexists. split; [reflexivity|]. simpl. by rewrite Hc, Nat.add_0_r.
Qed.

End BatchUpload.

Lemma failed_uploads_are_counted_completed_witness :
  ∃ u, uploadMultipleImages 2 Scenario.alice Scenario.first_upload_fails
         ["file:///a.jpg"; "file:///b.jpg"]
       = Some (u, UploadedAll 2)
       ∧ completedUploads u = 2
       ∧ failedUploads u = 0
       ∧ uploadCalls u = ["file:///a.jpg"; "file:///b.jpg"]
       ∧ retries u = ∅.
Proof.
  apply (failed_uploads_are_counted_completed Scenario.alice
           Scenario.first_upload_fails 2 ["file:///a.jpg"; "file:///b.jpg"]).
  - discriminate.
  - simpl. lia.
Defined.


(** *** The progress log *)

Lemma progress_tick_ge (prev : Q) : (prev <= progress_tick prev)%Q.
Proof.
  unfold progress_tick. destruct (Qlt_le_dec prev (95 # 100)); lra.
Qed.

Lemma fraction_mono (a b total : nat) :
  (a ≤ b)%nat → (0 < total)%nat → (fraction a total <= fraction b total)%Q.
Proof.
  intros Hab Ht. unfold fraction, Qdiv.
  apply Qmult_le_compat_r.
  - rewrite <- Zle_Qle. lia.
  - apply Qinv_le_0_compat. replace 0%Q with (inject_Z 0) by reflexivity.
    rewrite <- Zle_Qle. lia.
Qed.

Lemma last_value_snoc (prev : Q) (log : list (writer * Q)) (e : writer * Q) :
  last_value prev (log ++ [e]) = e.2.
Proof. revert prev. induction log as [|e' log IH]; intros prev; simpl; auto. Qed.

Lemma timer_never_decreases_snoc (prev : Q) (log : list (writer * Q))
    (by_ : writer) (v : Q) :
  timer_never_decreases prev log →
  (by_ = ByTimer → (last_value prev log <= v)%Q) →
  timer_never_decreases prev (log ++ [(by_, v)]).
Proof.
  revert prev. induction log as [|[w x] log IH]; intros prev Hlog Hv; simpl in *.
  - done.
  - destruct Hlog as [Hx Hrest]. split; [done|]. by apply IH.
Qed.

Lemma settled_values_snoc (log : list (writer * Q)) (by_ : writer) (v : Q) :
  settled_values (log ++ [(by_, v)])
  = settled_values log ++ match by_ with BySettle => [v] | _ => [] end.
Proof.
  unfold settled_values. rewrite omap_app. f_equal. by destruct by_.
Qed.

Lemma nondecreasing_snoc (l : list Q) (x : Q) :
  nondecreasing l → Forall (λ y, (y <= x)%Q) l → nondecreasing (l ++ [x]).
Proof.
  induction l as [|a l IH]; intros Hl Hall; [done|].
  apply Forall_cons in Hall as [Ha Hall].
  destruct l as [|b l]; simpl in *; [done|].
  destruct Hl as [Hab Hl]. split; [done|]. by apply IH.
Qed.

Section ProgressLog.

Context (p : Props) (sch : UploadSchedule) (total : nat).
Hypothesis total_pos : (0 < total)%nat.

Lemma log_ok_tick (u : Upload) :
  log_ok total u → log_ok total (setUploadProgress ByTimer progress_tick u).
Proof.
  intros (Ht & Hlast & Hall & Hnd). unfold log_ok. simpl.
  rewrite last_value_snoc, settled_values_snoc, app_nil_r. simpl.
  repeat split; try done.
  apply timer_never_decreases_snoc; [done|].
  intros _. rewrite Hlast. apply progress_tick_ge.
Qed.

Lemma log_ok_ticks (n : nat) (u : Upload) :
  log_ok total u → log_ok total (timer_ticks n u).
Proof.
  intros Hu. unfold timer_ticks. induction n as [|n IH]; simpl; [done|].
  by apply log_ok_tick.
Qed.

Lemma log_ok_settle_job (u : Upload) (j : job) :
  log_ok total u → log_ok total (settle_job p sch total u j).
Proof.
  intros Hu. unfold settle_job. rewrite settle_counts_completed.
  apply (log_ok_ticks (ticks_before sch j.1)) in Hu.
  destruct Hu as (Ht & Hlast & Hall & Hnd). unfold log_ok. simpl.
  rewrite last_value_snoc, settled_values_snoc. simpl.
  assert (Hle : Forall (λ v, (v <= fraction
                 (S (completedUploads (timer_ticks (ticks_before sch j.1) u)
                     + failedUploads (timer_ticks (ticks_before sch j.1) u)))
                 total)%Q)
                 (settled_values (progressLog (timer_ticks (ticks_before sch j.1) u)))).
  { eapply Forall_impl; [exact Hall|]. intros v Hv. simpl in Hv.
    eapply Qle_trans; [exact Hv|]. apply fraction_mono; [lia|done]. }
  repeat split.
  - by apply timer_never_decreases_snoc.
  - apply Forall_app. split; [done|]. apply Forall_singleton. apply Qle_refl.
  - by apply nondecreasing_snoc.
Qed.

Lemma log_ok_settle_jobs (jobs : list job) (u : Upload) :
  log_ok total u → log_ok total (foldl (settle_job p sch total) u jobs).
Proof.
  revert u. induction jobs as [|j jobs IH]; intros u Hu; simpl; [done|].
  by apply IH, log_ok_settle_job.
Qed.

Lemma log_ok_batch (u : Upload) :
  log_ok total u → log_ok total (upload_batch p sch total u).
Proof.
  intros Hu. unfold upload_batch. by apply log_ok_settle_jobs.
Qed.

Lemma log_ok_loop (fuel : nat) (u u' : Upload) :
  log_ok total u → upload_loop fuel p sch total u = Some u' → log_ok total u'.
Proof.
  revert u. induction fuel as [|fuel IH]; intros u Hu Hrun; simpl in Hrun.
  - destruct (queue u); [|discriminate]. by injection Hrun as <-.
  - destruct (queue u); [by injection Hrun as <-|].
    eapply IH; [|exact Hrun]. by apply log_ok_batch.
Qed.

End ProgressLog.

Lemma log_ok_start (uris : list string) : log_ok (length uris) (upload_start uris).
Proof.
  unfold log_ok. simpl. repeat split; done.
Qed.

(** C4, as amended.  With enough fuel for one turn per file, a batch upload
    of at least one file ends, and over its lifetime: a write by the timer
    never lowers uploadProgress; the values written at settlements,
    (completed + failed) / total, never decrease among themselves; and the
    last write is the one after the loop, which sets uploadProgress to
    exactly 1.  (A settlement write may be lower than the timer value
    before it.) *)
Theorem progress_of_batch (p : Props) (sch : UploadSchedule)
    (fuel : nat) (uris : list string) :
  uris ≠ [] → (length uris ≤ fuel)%nat →
  ∃ u report,
    uploadMultipleImages fuel p sch uris = Some (u, report)
    ∧ timer_never_decreases 0 (progressLog u)
    ∧ nondecreasing (settled_values (progressLog u))
    ∧ last (progressLog u) = Some (ByCompletion, 1%Q)
    ∧ uploadProgress u = 1%Q.
Proof.
  intros Hne Hfuel. unfold uploadMultipleImages.
  destruct uris as [|uri rest] eqn:Huris; [done|]. rewrite <- Huris in *.
  assert (Hpos : (0 < length uris)%nat) by (rewrite Huris; simpl; lia).
  destruct (upload_loop_books p sch (length uris) fuel (upload_start uris) Hfuel)
    as (u & Hrun & _).
  pose proof (log_ok_loop p sch (length uris) Hpos fuel _ _ (log_ok_start uris) Hrun)
    as (Ht & Hlast & Hall & Hnd).
  rewrite Hrun. simpl. eexists _, _. split; [reflexivity|]. simpl.
  rewrite settled_values_snoc, app_nil_r, last_snoc.
  repeat split; try done.
  by apply timer_never_decreases_snoc.
Qed.

Lemma progress_of_batch_witness :
  ∃ u report,
    uploadMultipleImages 2 Scenario.alice Scenario.slow_first_upload
      ["file:///a.jpg"; "file:///b.jpg"] = Some (u, report)
    ∧ timer_never_decreases 0 (progressLog u)
    ∧ nondecreasing (settled_values (progressLog u))
    ∧ last (progressLog u) = Some (ByCompletion, 1%Q)
    ∧ uploadProgress u = 1%Q.
Proof.
  apply (progress_of_batch Scenario.alice Scenario.slow_first_upload 2
           ["file:///a.jpg"; "file:///b.jpg"]).
  - discriminate.
  - simpl. lia.
Defined.

(** C4, counterexample.  Two files; the first upload takes five timer
    ticks, which bring uploadProgress above 1/2; when it settles the
    progress is set to 1/2: the sequence of values goes down. *)
Lemma progress_drops_at_settlement :
  match uploadMultipleImages 2 Scenario.alice Scenario.slow_first_upload
          ["file:///a.jpg"; "file:///b.jpg"] with
  | Some (u, _) => ¬ nondecreasing (progress_values u)
  | None => False
  end.
Proof.
  vm_compute. intuition congruence.
Qed.

(** ** The cache and the bulk download *)
Section Download.
Import Storage ImageUtils.

(** C8.  A stored entry whose timestamp is CACHE_EXPIRATION or more in the
    past is a miss: getCachedImage returns null, and getCachedImageUri
    gives back the url without asking whether the cached file exists, so
    whatever the file system would have answered. *)
Theorem expired_entry_is_a_miss
    (m : gmap string CachedImage) (u : string) (entry : CachedImage) (t : Z)
    (w : ItemWorld) :
  m !! u = Some entry →
  (t - timestamp entry >= CACHE_EXPIRATION)%Z →
  run (getCachedImage (Ok (Some m)) t u) = (Ok None, [EvStorageGet IMAGE_CACHE])
  ∧ (image_cache w = Ok (Some m) → now w = t →
     run (getCachedImageUri w u) = (Ok u, [EvStorageGet IMAGE_CACHE])).
Proof.
  intros Hentry Hold.
  assert (Hlt : (t - timestamp entry <? CACHE_EXPIRATION)%Z = false)
    by (apply Z.ltb_ge; lia).
  assert (Hget : ∀ log, getCachedImage (Ok (Some m)) t u log
                        = (Ok None, log ++ [EvStorageGet IMAGE_CACHE])).
  { intros log. unfold getCachedImage, getCachedImages, etry, ebind, call, ret.
    by rewrite Hentry, Hlt. }
  split.
  - apply Hget.
  - intros Hcache Hnow. unfold run, getCachedImageUri, etry, ebind.
    by rewrite Hcache, Hnow, Hget.
Qed.

Lemma cache_lookups_app (l1 l2 : list event) :
  cache_lookups (l1 ++ l2) = cache_lookups l1 + cache_lookups l2.
Proof.
  induction l1 as [|e l1 IH]; simpl; [done|]. destruct e; simpl; lia.
Qed.

(** Closes a case of a run: the result is as stated, and the log has one
    more cache lookup than [bound] says. *)
Local Ltac run_ends :=
  eexists; split; [reflexivity | rewrite ?cache_lookups_app; simpl; lia].

(** getCachedImageUri never throws; it answers the cached path on a hit
    and the url otherwise, after one cache lookup. *)
Lemma getCachedImageUri_resolves (w : ItemWorld) (u : string) (log : list event) :
  ∃ log', getCachedImageUri w u log = (Ok (default u (cache_hit w u)), log')
          ∧ cache_lookups log' = S (cache_lookups log).
Proof.
  unfold getCachedImageUri, getCachedImage, getCachedImages, cache_hit,
    etry, ebind, call, ret.
  destruct (image_cache w) as [[m|]|]; simpl; try run_ends.
  destruct (m !! u) as [c|]; simpl; [|run_ends].
  destruct (now w - timestamp c <? CACHE_EXPIRATION)%Z; simpl; [|run_ends].
  destruct (cachedPath c) as [path|]; simpl; [|run_ends].
  destruct (truthy path); simpl;
    destruct (getInfoAsync w) as [[|]|]; simpl; run_ends.
Qed.

(** One turn of the loop never throws, looks the image up in the cache,
    and counts it exactly when it is saved. *)
Lemma download_one_counts (d : Device) (w : ItemWorld) (image : RoomImage)
    (successCount : nat) (log : list event) :
  ∃ log', download_one d w image successCount log
          = (Ok ((if saved d w image then 1 else 0) + successCount), log')
          ∧ cache_lookups log' = S (cache_lookups log).
Proof.
  unfold download_one, etry, ebind.
  destruct (getCachedImageUri_resolves w (image_url image) log) as (log1 & -> & Hlog1).
  unfold saved, has_local_file, download_ok, album_ok, call, ret.
  destruct (cache_hit w (image_url image)) as [path|]; simpl;
    [destruct (String.eqb path (image_url image)) eqn:Heq; simpl|
     rewrite String.eqb_refl; simpl].
  all: try (destruct (downloadAsync w) as [status|]; simpl; [|run_ends];
            destruct (status =? 200)%Z; simpl; [|run_ends]).
  all: destruct (createAssetAsync w) as [asset|]; simpl; [|run_ends].
  all: destruct (os d); simpl; [|run_ends].
  all: destruct (getAlbumAsync w) as [[album|]|]; simpl; [| |run_ends].
  all: try (destruct (addAssetsToAlbumAsync w); simpl; run_ends).
  all: destruct (createAlbumAsync w); simpl; run_ends.
Qed.

Lemma download_each_counts (d : Device) (images : list RoomImage) (i : nat)
    (successCount : nat) (log : list event) :
  ∃ log', download_each d i images successCount log
          = (Ok (count_saved d i images + successCount), log')
          ∧ cache_lookups log' = length images + cache_lookups log.
Proof.
  revert i successCount log.
  induction images as [|image rest IH]; intros i successCount log; simpl.
  - by eexists.
  - unfold ebind.
    destruct (download_one_counts d (item d i) image successCount log)
      as (log1 & -> & Hlog1).
    destruct (IH (S i) ((if saved d (item d i) image then 1 else 0) + successCount) log1)
      as (log2 & -> & Hlog2).
    eexists. split; [f_equal; f_equal; lia | lia].
Qed.









Lemma download_denied_run (d : Device) (images : list RoomImage) (status : string) :
  requestPermissionsAsync d = Ok status →
  status ≠ "granted" →
  run (downloadMultipleImages d images)
  = (Ok {| success := false; count := 0; permissionDenied := Some true |},
     [EvRequestPermissions]).
Proof.
  intros Hperm Hdenied.
  unfold run, downloadMultipleImages, etry, ebind, call. rewrite Hperm.
  apply String.eqb_neq in Hdenied. by rewrite Hdenied.
Qed.

(** C5.  When the permission request answers anything but "granted", the
    bulk download returns {success: false, count: 0, permissionDenied:
    true}, and the permission request is the only call it has made: no
    cache lookup, no download, nothing saved. *)
Theorem download_denied_does_nothing
    (d : Device) (images : list RoomImage) (status : string) :
  requestPermissionsAsync d = Ok status →
  status ≠ "granted" →
  run (downloadMultipleImages d images)
  = (Ok {| success := false; count := 0; permissionDenied := Some true |},
     [EvRequestPermissions])
  ∧ Forall (λ e, e = EvRequestPermissions) (run (downloadMultipleImages d images)).2.
Proof.
  intros Hperm Hdenied. rewrite (download_denied_run d images status) by done.
  split; [done|]. simpl. by apply Forall_singleton.
Qed.


End Download.

Lemma expired_entry_is_a_miss_witness :
  run (Storage.getCachedImage (Ok (Some Scenario.old_cache)) Storage.CACHE_EXPIRATION
         (image_url Scenario.photoY))
  = (Ok None, [EvStorageGet Storage.IMAGE_CACHE])
  ∧ run (ImageUtils.getCachedImageUri Scenario.a_week_later (image_url Scenario.photoY))
    = (Ok (image_url Scenario.photoY), [EvStorageGet Storage.IMAGE_CACHE]).
Proof.
  destruct (expired_entry_is_a_miss Scenario.old_cache (image_url Scenario.photoY)
              Scenario.old_entry Storage.CACHE_EXPIRATION Scenario.a_week_later)
    as [Hmiss Huri].
  - vm_compute. reflexivity.
  - vm_compute. discriminate.
  - split; [exact Hmiss|]. apply Huri; reflexivity.
Defined.

Lemma download_denied_does_nothing_witness :
  let images := [Scenario.photoX; Scenario.photoY; Scenario.photoZ] in
  run (ImageUtils.downloadMultipleImages (Scenario.phone (Ok "denied")) images)
  = (Ok {| ImageUtils.success := false; ImageUtils.count := 0;
           ImageUtils.permissionDenied := Some true |},
     [EvRequestPermissions])
  ∧ Forall (λ e, e = EvRequestPermissions)
      (run (ImageUtils.downloadMultipleImages (Scenario.phone (Ok "denied")) images)).2.
Proof.
  apply (download_denied_does_nothing (Scenario.phone (Ok "denied"))
           [Scenario.photoX; Scenario.photoY; Scenario.photoZ] "denied").
  - reflexivity.
  - discriminate.
Defined.



(** ** Bulk delete *)

(** C10.  For the empty list both bulk deletes succeed at once, with no
    remote call: deleteMultipleRoomImages([]) returns true and
    deleteMultipleFromCloudinary([]) returns {success: true, deletedCount:
    0}, the log of calls staying empty. *)
Theorem bulk_delete_of_nothing
    (w : Supabase.DeleteWorld) (cw : Cloudinary.CloudinaryWorld) :
  run (deleteMultipleRoomImages w []) = (Ok true, [])
  ∧ run (Cloudinary.deleteMultipleFromCloudinary cw [])
    = (Ok {| Cloudinary.success := true; Cloudinary.deletedCount := 0 |}, []).
Proof. split; reflexivity. Qed.

(** By contrast, deleting photo Y goes to the database, to Cloudinary and
    to the local cache. *)
Example bulk_delete_of_one :
  run (deleteMultipleRoomImages Scenario.backend ["Y"])
  = (Ok true,
     [EvDbSelect ["Y"];
      EvFetch Cloudinary.delete_resources_url ["y"];
      EvRemoveCachedImage (image_url Scenario.photoY);
      EvDbDelete ["Y"]]).
Proof. reflexivity. Qed.

(* ===================================================================== *)
(** * Part III: further properties of the code *)
(* ===================================================================== *)

(** ** The feed and the selection *)
Section FeedMore.

Context (p : Props) (captured : Screen).

Local Abbreviation remote := (on_postgres_changes p captured).

Lemma find_has_id_none (x : string) (l : list RoomImage) :
  Some x ∉ id <$> l → find (has_id x) l = None.
Proof.
  induction l as [|img l IH]; intros Hnin; simpl; [done|].
  rewrite fmap_cons, not_elem_of_cons in Hnin. destruct Hnin as [Hne Hnin].
  unfold has_id at 1. rewrite bool_decide_eq_false_2 by congruence. by apply IH.
Qed.

Lemma find_has_id_some (x : string) (l : list RoomImage) (img : RoomImage) :
  find (has_id x) l = Some img → img ∈ l ∧ id img = Some x.
Proof.
  induction l as [|a l IH]; simpl; [done|].
  unfold has_id at 1. case_bool_decide as Ha.
  - intros [= <-]. split; [apply list_elem_of_here|done].
  - intros Hf. destruct (IH Hf) as [Hin Hid]. split; [by apply list_elem_of_further|done].
Qed.

Lemma filter_keeps_all (x : string) (l : list RoomImage) :
  Some x ∉ id <$> l → filter (λ img, id img ≠ Some x) l = l.
Proof.
  induction l as [|img l IH]; intros Hnin; [done|].
  rewrite fmap_cons, not_elem_of_cons in Hnin. destruct Hnin as [Hne Hnin].
  rewrite filter_cons_True by congruence. f_equal. by apply IH.
Qed.

(** A remote delete event for X touches X only: for an id that is not in
    the feed it changes neither the feed nor the toasts; otherwise the new
    feed is the old one without the items of id X, the others staying in
    their order, and a feed without duplicate ids stays so.  An event
    whose old record has no id, or an empty one, changes nothing. *)
Theorem remote_delete_touches_only_its_id (s : Screen) (x : string) :
  let s' := remote (DELETE (Some {| old_id := Some x |})) s in
  (truthy x = true → Some x ∉ feed_ids s →
     images s' = images s ∧ toasts s' = toasts s)
  ∧ (truthy x = true →
     images s' = filter (λ img, id img ≠ Some x) (images s)
     ∧ images s' `sublist_of` images s
     ∧ (NoDup (feed_ids s) → NoDup (feed_ids s')))
  ∧ (truthy x = false → s' = s)
  ∧ remote (DELETE None) s = s
  ∧ remote (DELETE (Some {| old_id := None |})) s = s.
Proof.
  intros s'. split; [|split; [|split; [|split]]]; try reflexivity.
  - intros Hx Hnin. subst s'. unfold on_postgres_changes. rewrite Hx.
    rewrite find_has_id_none by done.
    destruct (bool_decide (x ∈ selectedImages captured)); simpl;
      by rewrite filter_keeps_all.
  - intros Hx.
    assert (Himg : images s' = filter (λ img, id img ≠ Some x) (images s)).
    { subst s'. unfold on_postgres_changes. rewrite Hx.
      destruct (find _ _) as [img|]; simpl;
        repeat match goal with
               | |- context [if ?b then _ else _] => destruct b; simpl
               end; reflexivity. }
    split; [done|]. split.
    + rewrite Himg. apply sublist_filter.
    + intros Hnd. unfold feed_ids. rewrite Himg.
      eapply sublist_NoDup; [exact Hnd | apply fmap_sublist, sublist_filter].
  - intros Hx. subst s'. unfold on_postgres_changes. by rewrite Hx.
Qed.

(** Who is notified of remote events.  An insert event shows a toast
    exactly when it adds an image uploaded by someone else, and the toast
    names the uploader.  A delete event shows no toast when the images of
    that id in the feed were uploaded by the user; when the image found was
    uploaded by someone else, the toast names that uploader (the room
    owner as such), whoever deleted it. *)
Theorem remote_event_toasts (s : Screen) :
  (∀ newImage,
     uploaded_by newImage = userName p ∨ id newImage ∈ feed_ids s →
     toasts (remote (INSERT newImage) s) = toasts s)
  ∧ (∀ newImage,
       uploaded_by newImage ≠ userName p → id newImage ∉ feed_ids s →
       toasts (remote (INSERT newImage) s)
       = toasts s ++ [uploaded_by newImage +:+ " shared a new image"])
  ∧ (∀ x,
       (∀ img, img ∈ images s → id img = Some x → uploaded_by img = userName p) →
       toasts (remote (DELETE (Some {| old_id := Some x |})) s) = toasts s)
  ∧ (∀ x img,
       truthy x = true →
       find (has_id x) (images s) = Some img →
       uploaded_by img ≠ userName p →
       toasts (remote (DELETE (Some {| old_id := Some x |})) s)
       = toasts s ++ ["An image was deleted by " +:+
                      (if bool_decide (uploaded_by img = created_by (room p))
                       then "the room owner"
                       else if truthy (uploaded_by img) then uploaded_by img
                            else "someone")]).
Proof.
  split; [|split; [|split]].
  - intros newImage [Hown|Hin].
    + unfold on_postgres_changes.
      destruct (negb (existsb _ _)); [|done].
      by rewrite bool_decide_eq_true_2.
    + by rewrite (remote_insert_present p captured).
  - intros newImage Hother Hnin. unfold on_postgres_changes.
    destruct (existsb _ (images s)) eqn:E.
    { apply (existsb_same_id newImage) in E. contradiction. }
    simpl. by rewrite bool_decide_eq_false_2.
  - intros x Hown. unfold on_postgres_changes.
    destruct (truthy x); [|done].
    destruct (find (has_id x) (images s)) as [img|] eqn:Hf.
    + apply find_has_id_some in Hf as [Hin Hid].
      rewrite (bool_decide_eq_true_2 _ (Hown img Hin Hid)). simpl.
      by destruct (bool_decide (x ∈ selectedImages captured)).
    + by destruct (bool_decide (x ∈ selectedImages captured)).
  - intros x img Hx Hf Hother. unfold on_postgres_changes. rewrite Hx, Hf.
    rewrite (bool_decide_eq_false_2 _ Hother). simpl.
    by destruct (bool_decide (x ∈ selectedImages captured)).
Qed.

End FeedMore.

Lemma remote_delete_touches_only_its_id_witness :
  let s := loadImages [Scenario.photoX; Scenario.photoY] initial in
  let s' := on_postgres_changes Scenario.alice initial
              (DELETE (Some {| old_id := Some "Z" |})) s in
  images s' = images s ∧ toasts s' = toasts s.
Proof.
  intros s s'.
  apply (remote_delete_touches_only_its_id Scenario.alice initial s "Z").
  - reflexivity.
  - vm_compute. intros H. by repeat (apply elem_of_cons in H as [H|H]; [discriminate|]);
      apply elem_of_nil in H.
Defined.

Lemma remote_event_toasts_witness :
  let s := loadImages [Scenario.photoX] initial in
  toasts (on_postgres_changes Scenario.alice initial (INSERT Scenario.photoY) s)
  = toasts s ++ ["bob shared a new image"].
Proof.
  intros s.
  apply (remote_event_toasts Scenario.alice initial s).
  - discriminate.
  - vm_compute. intros H. by repeat (apply elem_of_cons in H as [H|H]; [discriminate|]);
      apply elem_of_nil in H.
Defined.

(** ** Deleting from the screen *)
Section DeleteHandlers.

Context (p : Props).

(** handleDeleteImage asks the backend to delete only what it has removed
    from the feed, and only for a confirmed request on an image that has a
    non-empty id and that the user uploaded or whose room the user created;
    in every other case the feed is left as it is. *)
Theorem handleDeleteImage_guards (image : RoomImage) (confirmed : bool) (s : Screen) :
  let r := handleDeleteImage p image confirmed s in
  (r.2 = None → images r.1 = images s)
  ∧ (∀ x, r.2 = Some x →
       id image = Some x ∧ truthy x = true ∧ confirmed = true
       ∧ (uploaded_by image = userName p ∨ isRoomCreator p = true)
       ∧ images r.1 = filter (λ img, id img ≠ Some x) (images s)).
Proof.
  intros r. subst r. unfold handleDeleteImage.
  destruct (bool_decide (uploaded_by image = userName p)) eqn:Hown;
    destruct (isRoomCreator p) eqn:Hcreator; simpl;
    destruct (id image) as [imageId|]; simpl;
    try (destruct (truthy imageId) eqn:Ht; simpl);
    try (destruct confirmed; simpl).
  all: split; [done | intros x Hx; simplify_eq].
  all: try apply bool_decide_eq_true in Hown.
  all: repeat split; auto.
Qed.

Lemma omap_id_elem (l : list RoomImage) (x : string) :
  x ∈ omap id l ↔ ∃ img, img ∈ l ∧ id img = Some x.
Proof. rewrite list_elem_of_omap. naive_solver. Qed.

(** handleDeleteSelectedImages reads the feed and the selection of the
    render in which it is called, and filters the feed as it is when
    "Delete" is pressed.  A confirmed delete that reaches the backend hands
    it the ids of the images selected in that render, each of them the id
    of a selected image which, for a user who is not the room creator, the
    user uploaded; and it leaves in the feed of that moment exactly the
    images with a non-empty id that is not among those handed over, in
    their order: an image without an id leaves the feed too, and an image
    that arrived while the alert was open stays.  When nothing changed
    while the alert was open, the feed keeps exactly the images with a
    non-empty id that is not selected, and a user who is not the room
    creator removes no image with a non-empty id that somebody else
    uploaded. *)
Theorem handleDeleteSelectedImages_removes_selection
    (render s s' : Screen) (imageIds : list string) :
  handleDeleteSelectedImages p render true s = (s', Some imageIds) →
  imageIds
  = omap id (filter (λ img, default "" (id img) ∈ selectedImages render) (images render))
  ∧ (∀ img, img ∈ images s' ↔
            img ∈ images s
            ∧ ∃ x, id img = Some x ∧ truthy x = true ∧ x ∉ imageIds)
  ∧ images s' `sublist_of` images s
  ∧ selectedImages s' = selectedImages s
  ∧ (∀ x, x ∈ imageIds →
       ∃ img, img ∈ images render ∧ id img = Some x ∧ x ∈ selectedImages render
              ∧ (isRoomCreator p = false → uploaded_by img = userName p))
  ∧ (s = render →
     (∀ img, img ∈ images s' ↔
             img ∈ images s
             ∧ ∃ x, id img = Some x ∧ truthy x = true ∧ x ∉ selectedImages s)
     ∧ (isRoomCreator p = false →
        ∀ img x, img ∈ images s → img ∉ images s' →
                 id img = Some x → truthy x = true → uploaded_by img = userName p)).
Proof.
  unfold handleDeleteSelectedImages.
  set (sel := filter (λ img, default "" (id img) ∈ selectedImages render) (images render)).
  destruct sel as [|i0 rest] eqn:Hsel; [intros [= _ ?]; done|]. rewrite <- Hsel.
  destruct (bool_decide (filter _ sel ≠ []) && negb (isRoomCreator p)) eqn:Hauth;
    [intros [= _ ?]; done|].
  destruct (omap id sel) as [|y ys] eqn:Hids; [intros [= _ ?]; done|].
  rewrite <- Hids. intros [= <- <-]. simpl.
  assert (Hnone : isRoomCreator p = false →
            filter (λ img, uploaded_by img ≠ userName p ∧ isRoomCreator p = false)
              sel = []).
  { intros Hnc. apply andb_false_iff in Hauth as [Hb|Hb]; [|by rewrite Hnc in Hb].
    apply bool_decide_eq_false in Hb.
    destruct (filter _ sel); [done|]. by destruct Hb. }
  assert (Hown : isRoomCreator p = false →
            ∀ img, img ∈ sel → uploaded_by img = userName p).
  { intros Hnc img Hin.
    destruct (decide (uploaded_by img = userName p)) as [|Hne]; [done|].
    assert (Hbad : img ∈ filter (λ img, uploaded_by img ≠ userName p
                                        ∧ isRoomCreator p = false) sel)
      by (apply list_elem_of_filter; split; [split|]; done).
    rewrite (Hnone Hnc) in Hbad. by apply elem_of_nil in Hbad. }
  assert (Hkeep : ∀ img,
            not_deleted (omap id sel) img = true
            ↔ ∃ x, id img = Some x ∧ truthy x = true ∧ x ∉ omap id sel).
  { intros img. unfold not_deleted. destruct (id img) as [x|] eqn:Hid.
    - rewrite andb_true_iff, negb_true_iff, bool_decide_eq_false. split.
      + intros [Ht Hno]. by exists x.
      + by intros (x' & [= <-] & Ht & Hx).
    - split; [done|]. by intros (x & [=] & _). }
  assert (Hsame : ∀ img x, img ∈ images render → id img = Some x →
            (x ∈ omap id sel ↔ x ∈ selectedImages render)).
  { intros img x Hin Hid. rewrite omap_id_elem. split.
    - intros (img' & Hin' & Hid'). subst sel.
      apply list_elem_of_filter in Hin' as [Hs _]. by rewrite Hid' in Hs.
    - intros Hx. exists img. split; [|done]. subst sel.
      apply list_elem_of_filter. split; [|done]. by rewrite Hid. }
  split; [done|]. split; [|split; [|split; [|split]]].
  - intros img. rewrite list_elem_of_filter, Hkeep. tauto.
  - apply sublist_filter.
  - done.
  - intros x (img & Hin & Hid)%omap_id_elem. exists img.
    assert (Himg : img ∈ images render ∧ default "" (id img) ∈ selectedImages render).
    { subst sel. apply list_elem_of_filter in Hin. tauto. }
    destruct Himg as [Himg Hx]. rewrite Hid in Hx.
    split; [done|]. split; [done|]. split; [done|]. intros Hnc. by apply Hown.
  - intros ->. split.
    + intros img. rewrite list_elem_of_filter, Hkeep. split.
      * intros [(x & Hid & Ht & Hx) Hin]. split; [done|]. exists x.
        split; [done|]. split; [done|]. by rewrite <- (Hsame img x Hin Hid).
      * intros [Hin (x & Hid & Ht & Hx)]. split; [|done]. exists x.
        split; [done|]. split; [done|]. by rewrite (Hsame img x Hin Hid).
    + intros Hnc img x Hin Hgone Hid Ht.
      destruct (decide (x ∈ selectedImages render)) as [Hx|Hx].
      * apply (Hown Hnc). subst sel. apply list_elem_of_filter.
        split; [|done]. by rewrite Hid.
      * exfalso. apply Hgone. apply list_elem_of_filter. split; [|done].
        apply Hkeep. exists x. split; [done|]. split; [done|].
        by rewrite (Hsame img x Hin Hid).
Qed.


End DeleteHandlers.

Lemma remove_then_add (X : gset string) (x : string) :
  x ∈ X → X ∖ {[x]} ∪ {[x]} = X.
Proof.
  intros Hx. apply set_eq. intros y.
  rewrite elem_of_union, elem_of_difference, elem_of_singleton.
  destruct (decide (y = x)) as [->|]; intuition congruence.
Qed.

Lemma add_then_remove (X : gset string) (x : string) :
  x ∉ X → (X ∪ {[x]}) ∖ {[x]} = X.
Proof.
  intros Hx. apply set_eq. intros y.
  rewrite elem_of_difference, elem_of_union, elem_of_singleton.
  destruct (decide (y = x)) as [->|]; intuition congruence.
Qed.

(** Tapping an image twice in selection mode restores the selection; one
    tap flips the membership of that image and of no other. *)
Theorem toggleImageSelection_involutive (imageId : string) (s : Screen) :
  toggleImageSelection imageId (toggleImageSelection imageId s) = s
  ∧ (imageId ∈ selectedImages (toggleImageSelection imageId s)
     ↔ imageId ∉ selectedImages s)
  ∧ (∀ other, other ≠ imageId →
       (other ∈ selectedImages (toggleImageSelection imageId s)
        ↔ other ∈ selectedImages s))
  ∧ images (toggleImageSelection imageId s) = images s.
Proof.
  unfold toggleImageSelection, setSelectedImages. simpl.
  destruct s as [imgs sel ts]. simpl.
  destruct (decide (imageId ∈ sel)) as [Hin|Hnin].
  - rewrite (bool_decide_eq_true_2 _ Hin).
    assert (Hout : imageId ∉ sel ∖ {[imageId]}).
    { rewrite elem_of_difference, elem_of_singleton. intuition congruence. }
    rewrite (bool_decide_eq_false_2 _ Hout), remove_then_add by done.
    split; [done|]. split; [intuition congruence|]. split; [|done].
    intros other Hne. rewrite elem_of_difference, elem_of_singleton. intuition congruence.
  - rewrite (bool_decide_eq_false_2 _ Hnin).
    assert (Hnow : imageId ∈ sel ∪ {[imageId]}).
    { rewrite elem_of_union, elem_of_singleton. intuition congruence. }
    rewrite (bool_decide_eq_true_2 _ Hnow), add_then_remove by done.
    split; [done|]. split; [intuition congruence|]. split; [|done].
    intros other Hne. rewrite elem_of_union, elem_of_singleton. intuition congruence.
Qed.

Lemma handleDeleteImage_guards_witness :
  let s := loadImages [Scenario.photoX; Scenario.photoY] initial in
  let r := handleDeleteImage Scenario.alice Scenario.photoX true s in
  id Scenario.photoX = Some "X" ∧ truthy "X" = true ∧ true = true
  ∧ (uploaded_by Scenario.photoX = userName Scenario.alice
     ∨ isRoomCreator Scenario.alice = true)
  ∧ images r.1 = filter (λ img, id img ≠ Some "X") (images s).
Proof.
  intros s r.
  apply (handleDeleteImage_guards Scenario.alice Scenario.photoX true s).
  reflexivity.
Defined.

(** Alice selects her photo X and asks to delete the selection; photo Y
    arrives while the alert is open; she presses "Delete": X is handed
    over and leaves the feed, Y stays. *)
Lemma handleDeleteSelectedImages_removes_selection_witness :
  handleDeleteSelectedImages Scenario.alice Scenario.x_selected true
    Scenario.y_arrived_x_selected
  = (setImages (λ _, [Scenario.photoY]) Scenario.y_arrived_x_selected, Some ["X"])
  ∧ (∀ img, img ∈ [Scenario.photoY] ↔
            img ∈ images Scenario.y_arrived_x_selected
            ∧ ∃ x, id img = Some x ∧ truthy x = true ∧ x ∉ ["X"])
  ∧ [Scenario.photoY] `sublist_of` images Scenario.y_arrived_x_selected.
Proof.
  assert (Hr : handleDeleteSelectedImages Scenario.alice Scenario.x_selected true
                 Scenario.y_arrived_x_selected
               = (setImages (λ _, [Scenario.photoY]) Scenario.y_arrived_x_selected,
                  Some ["X"])).
  { vm_compute. reflexivity. }
  split; [exact Hr|].
  destruct (handleDeleteSelectedImages_removes_selection Scenario.alice
              Scenario.x_selected Scenario.y_arrived_x_selected
              (setImages (λ _, [Scenario.photoY]) Scenario.y_arrived_x_selected)
              ["X"] Hr) as (_ & Hfeed & Hsub & _).
  split; [exact Hfeed | exact Hsub].
Defined.


Lemma toggleImageSelection_involutive_witness :
  let s := toggleImageSelection "X" (loadImages [Scenario.photoX; Scenario.photoY] initial) in
  "Y" ∈ selectedImages (toggleImageSelection "X" s) ↔ "Y" ∈ selectedImages s.
Proof.
  intros s.
  apply (toggleImageSelection_involutive "X" s). discriminate.
Defined.

(** ** Uploads: one file, and the bounds of a batch *)

Lemma progress_tick_bounds (prev : Q) :
  (0 <= prev <= 1)%Q → (0 <= progress_tick prev <= 1)%Q.
Proof.
  intros [H0 H1]. unfold progress_tick.
  destruct (Qlt_le_dec prev (95 # 100)); split; lra.
Qed.

Lemma timer_ticks_log (n : nat) (u : Upload) :
  (0 <= uploadProgress u <= 1)%Q →
  ∃ ticks,
    progressLog (timer_ticks n u) = progressLog u ++ ((λ v, (ByTimer, v)) <$> ticks)
    ∧ uploadProgress (timer_ticks n u) = last_value (uploadProgress u) ((λ v, (ByTimer, v)) <$> ticks)
    ∧ (0 <= uploadProgress (timer_ticks n u) <= 1)%Q
    ∧ Forall (λ v, (0 <= v <= 1)%Q) ticks
    ∧ nondecreasing (uploadProgress u :: ticks).
Proof.
  intros Hu. unfold timer_ticks. induction n as [|n IH]; simpl.
  - exists []. simpl. rewrite app_nil_r. repeat split; try done; apply Hu.
  - destruct IH as (ticks & Hlog & Hlast & Hb & Hall & Hnd).
    set (u' := Nat.iter n (setUploadProgress ByTimer progress_tick) u) in *.
    exists (ticks ++ [progress_tick (uploadProgress u')]).
    rewrite Hlog, fmap_app, app_assoc. simpl.
    rewrite last_value_snoc. simpl.
    split; [done|]. split; [done|]. split; [by apply progress_tick_bounds|].
    split; [apply Forall_app; split; [done|]; apply Forall_singleton;
            by apply progress_tick_bounds|].
    change (uploadProgress u :: ticks ++ [progress_tick (uploadProgress u')])
      with ((uploadProgress u :: ticks) ++ [progress_tick (uploadProgress u')]).
    clear Hlog. revert Hlast Hnd. generalize (uploadProgress u) as a.
    generalize (uploadProgress u') as b. clear.
    induction ticks as [|t ticks IH]; intros b a Hlast Hnd; simpl in *.
    + subst b. split; [apply progress_tick_ge|done].
    + destruct Hnd as [Hat Hnd]. split; [done|]. by apply IH.
Qed.

(** uploadImage, the upload of one file: until it returns, the values
    uploadProgress takes never decrease, all lie between 0 and 1, and the
    last one is exactly 1 (the finally block resets it half a second
    later); and the success toast is shown exactly when uploadRoomImage
    returned a record, so a failed upload is reported as failed. *)
Theorem uploadImage_progress_and_report
    (p : Props) (w : UploadWorld) (ticks : nat) (uri : string) :
  let r := uploadImage p w ticks uri in
  nondecreasing (progress_values r.1)
  ∧ Forall (λ v, (0 <= v <= 1)%Q) (progress_values r.1)
  ∧ last (progressLog r.1) = Some (ByCompletion, 1%Q)
  ∧ (r.2 = true ↔
     ∃ newImage, uploadRoomImage w (room_key (room p)) uri (userName p)
                 = Ok (Some newImage)).
Proof.
  intros r. subst r. unfold uploadImage.
  destruct (uploadRoomImage_never_throws w (room_key (room p)) uri (userName p))
    as [newImage ->].
  destruct (timer_ticks_log ticks (upload_start [])) as (vs & Hlog & _ & Hb & Hall & Hnd).
  { simpl. split; lra. }
  change (progressLog (upload_start [])) with [(ByReset, 0%Q)] in Hlog.
  change (uploadProgress (upload_start [])) with 0%Q in Hnd.
  cbn [fst snd].
  assert (Hvals : progress_values
                    (setUploadProgress ByCompletion (λ _, 1%Q)
                       (timer_ticks ticks (upload_start [])))
                  = (0%Q :: vs) ++ [1%Q]).
  { unfold progress_values. cbn [progressLog setUploadProgress]. rewrite Hlog.
    rewrite !fmap_app, <- list_fmap_compose. cbn [fmap list_fmap snd app].
    do 2 f_equal. clear. induction vs as [|v vs IH]; [done|].
    rewrite fmap_cons. by f_equal. }
  rewrite Hvals. cbn [progressLog setUploadProgress]. rewrite last_snoc.
  split; [|split; [|split; [done|]]].
  - apply nondecreasing_snoc; [done|].
    apply Forall_cons. split; [lra|].
    eapply Forall_impl; [exact Hall|]. intros v [_ Hv]. exact Hv.
  - apply Forall_app. split; [apply Forall_cons; split; [split; lra|done]|].
    apply Forall_singleton. split; lra.
  - destruct newImage as [img|]; split; try done; try by eexists.
    by intros (img & [=]).
Qed.

Lemma uploadImage_progress_and_report_witness :
  let r := uploadImage Scenario.alice Scenario.uploads_fail 3 "file:///a.jpg" in
  r.2 = true ↔
  ∃ newImage, uploadRoomImage Scenario.uploads_fail
                (room_key (room Scenario.alice)) "file:///a.jpg"
                (userName Scenario.alice) = Ok (Some newImage).
Proof.
  intros r.
  apply (uploadImage_progress_and_report Scenario.alice Scenario.uploads_fail 3
           "file:///a.jpg").
Defined.

Lemma fraction_bounds (k total : nat) :
  (k ≤ total)%nat → (0 < total)%nat → (0 <= fraction k total <= 1)%Q.
Proof.
  intros Hk Ht. split.
  - eapply Qle_trans; [|apply (fraction_mono 0 k total); [lia|done]].
    unfold fraction, Qdiv. simpl. rewrite Qmult_0_l. apply Qle_refl.
  - eapply Qle_trans; [apply (fraction_mono k total total); done|].
    unfold fraction, Qdiv. rewrite Qmult_inv_r; [apply Qle_refl|].
    intros H. unfold Qeq in H. simpl in H. lia.
Qed.

Section BatchBounds.

Context (p : Props) (sch : UploadSchedule) (total : nat).
Hypothesis total_pos : (0 < total)%nat.

Lemma in_unit_ticks (n : nat) (u : Upload) :
  in_unit u → in_unit (timer_ticks n u).
Proof.
  unfold in_unit. intros [Hall Hb]. unfold timer_ticks.
  induction n as [|n IH]; [done|].
  simpl. destruct IH as [Hall' Hb']. unfold progress_values. simpl.
  rewrite fmap_app. split; [|by apply progress_tick_bounds].
  apply Forall_app. split; [done|]. apply Forall_singleton.
  by apply progress_tick_bounds.
Qed.

Lemma in_unit_settle_jobs (jobs : list job) (u : Upload) :
  (completedUploads u + failedUploads u + length jobs ≤ total)%nat →
  in_unit u → in_unit (foldl (settle_job p sch total) u jobs).
Proof.
  revert u. induction jobs as [|j jobs IH]; intros u Hcount Hu; [done|].
  simpl in *. apply IH.
  - destruct (settle_job_books p sch total u j) as ((Hf & _) & Hc).
    rewrite Hc, Hf. lia.
  - unfold settle_job. rewrite settle_counts_completed.
    destruct (in_unit_ticks (ticks_before sch j.1) u Hu) as [Hall Hb].
    destruct (timer_ticks_books (ticks_before sch j.1) u) as ((Hf & _) & Hc).
    unfold in_unit, progress_values. simpl. rewrite fmap_app, Hc, Hf.
    assert (Hfr : (0 <= fraction (S (completedUploads u + failedUploads u)) total <= 1)%Q)
      by (apply fraction_bounds; [lia|done]).
    split; [|done]. apply Forall_app. split; [done|]. by apply Forall_singleton.
Qed.

Lemma in_unit_loop (fuel : nat) (u u' : Upload) :
  (completedUploads u + failedUploads u + length (queue u) ≤ total)%nat →
  in_unit u →
  upload_loop fuel p sch total u = Some u' →
  in_unit u' ∧ batches u' = (batches u + (length (queue u) + 1) / 2)%nat.
Proof.
  revert u. induction fuel as [|fuel IH]; intros u Hcount Hu Hrun; simpl in Hrun.
  - destruct (queue u); [|discriminate]. injection Hrun as <-.
    split; [done|]. simpl. lia.
  - destruct (queue u) as [|uri rest] eqn:Hq.
    { injection Hrun as <-. split; [done|]. simpl. lia. }
    destruct (upload_batch_books p sch total u) as (Hc & Hf & _ & Hq' & _).
    rewrite Hq in Hc, Hq'.
    assert (Hb : batches (upload_batch p sch total u) = S (batches u)).
    { unfold upload_batch.
      match goal with
      | |- context [foldl _ ?st ?order] =>
          destruct (settle_jobs_books p sch total order st) as ((_&_&_&_&Hb) & _)
      end. exact Hb. }
    destruct (IH (upload_batch p sch total u)) as [Hu' Hb']; [| |exact Hrun|].
    + rewrite Hc, Hf, Hq', length_take, length_drop.
      unfold batchSize. cbn [length] in *. lia.
    + unfold upload_batch. apply in_unit_settle_jobs; [|done].
      cbn [completedUploads failedUploads].
      destruct (second_first sch (batches u));
        rewrite ?length_reverse, length_imap, length_take, Hq;
        unfold batchSize; cbn [length] in *; lia.
    + split; [done|]. rewrite Hb', Hb, Hq', length_drop.
      unfold batchSize. cbn [length].
      destruct rest as [|uri2 rest]; cbn [length];
        [change ((1 - 2 + 1) / 2)%nat with 0%nat;
         change ((1 + 1) / 2)%nat with 1%nat; lia|].
      replace (S (S (length rest)) - 2 + 1)%nat with (length rest + 1)%nat by lia.
      replace (S (S (length rest)) + 1)%nat with (length rest + 1 + 1 * 2)%nat by lia.
      rewrite Nat.div_add by lia. lia.
Qed.

End BatchBounds.

(** With enough fuel for one turn per file, a batch upload of N files
    ends after ⌈N/2⌉ turns of its loop, having called uploadRoomImage N
    times, and every value uploadProgress took on the way lies between 0
    and 1. *)
Theorem batch_upload_turns_and_bounds (p : Props) (sch : UploadSchedule)
    (fuel : nat) (uris : list string) :
  uris ≠ [] → (length uris ≤ fuel)%nat →
  ∃ u report,
    uploadMultipleImages fuel p sch uris = Some (u, report)
    ∧ batches u = ((length uris + 1) / 2)%nat
    ∧ length (uploadCalls u) = length uris
    ∧ Forall (λ v, (0 <= v <= 1)%Q) (progress_values u).
Proof.
  intros Hne Hfuel. unfold uploadMultipleImages.
  destruct uris as [|uri rest] eqn:Huris; [done|]. rewrite <- Huris in *.
  assert (Hpos : (0 < length uris)%nat) by (rewrite Huris; simpl; lia).
  destruct (upload_loop_books p sch (length uris) fuel (upload_start uris) Hfuel)
    as (u & Hrun & _ & _ & _ & _ & Hcalls).
  destruct (in_unit_loop p sch (length uris) Hpos fuel (upload_start uris) u)
    as [[Hall Hb] Hbatches]; [simpl; lia | | exact Hrun |].
  { unfold in_unit, progress_values. simpl.
    split; [apply Forall_singleton|]; split; lra. }
  rewrite Hrun. simpl. eexists _, _. split; [reflexivity|].
  simpl in Hbatches, Hcalls. unfold progress_values. simpl.
  rewrite Hbatches, Hcalls, fmap_app. repeat split; try done.
  apply Forall_app. split; [done|]. apply Forall_singleton. simpl. split; lra.
Qed.

Lemma batch_upload_turns_and_bounds_witness :
  ∃ u report,
    uploadMultipleImages 3 Scenario.alice Scenario.slow_first_upload
      ["file:///a.jpg"; "file:///b.jpg"; "file:///c.jpg"] = Some (u, report)
    ∧ batches u = 2
    ∧ length (uploadCalls u) = 3
    ∧ Forall (λ v, (0 <= v <= 1)%Q) (progress_values u).
Proof.
  apply (batch_upload_turns_and_bounds Scenario.alice Scenario.slow_first_upload 3
           ["file:///a.jpg"; "file:///b.jpg"; "file:///c.jpg"]).
  - discriminate.
  - simpl. lia.
Defined.

(** ** The expiry label *)

(** updateExpiryTime shows "Expired" exactly when the expiry time is not
    in the future; otherwise the label stands for the remaining time
    rounded down to whole minutes, its minutes part is below 60, and the
    hours are shown exactly when at least one hour is left. *)
Theorem updateExpiryTime_rounds_down (expiry now : Z) :
  (updateExpiryTime expiry now = Expired ↔ (expiry <= now)%Z)
  ∧ ((now < expiry)%Z →
     label_minutes (updateExpiryTime expiry now) = ((expiry - now) / 60000)%Z
     ∧ match updateExpiryTime expiry now with
       | Expired => False
       | ExpiresInHours h m =>
           (0 < h ∧ 0 <= m < 60 ∧ 3600000 <= expiry - now)%Z
       | ExpiresInMinutes m => (0 <= m < 60 ∧ expiry - now < 3600000)%Z
       end).
Proof.
  unfold updateExpiryTime.
  change (1000 * 60 * 60)%Z with 3600000%Z. change (1000 * 60)%Z with 60000%Z.
  split.
  - destruct (expiry - now <=? 0)%Z eqn:E.
    + apply Z.leb_le in E. split; [lia|done].
    + apply Z.leb_gt in E. split; [|lia].
      destruct (0 <? (expiry - now) / 3600000)%Z; discriminate.
  - intros Hlt. rewrite (proj2 (Z.leb_gt _ _)) by lia.
    set (diffMs := (expiry - now)%Z) in *.
    assert (Hd : (0 < diffMs)%Z) by (subst diffMs; lia).
    pose proof (Z.div_mod diffMs 3600000 ltac:(lia)) as Hdm.
    pose proof (Z.mod_pos_bound diffMs 3600000 ltac:(lia)) as Hr.
    pose proof (Z.div_pos diffMs 3600000 ltac:(lia) ltac:(lia)) as Hh.
    set (h := (diffMs / 3600000)%Z) in *. set (r := (diffMs mod 3600000)%Z) in *.
    assert (Hm : (0 <= r / 60000 < 60)%Z).
    { split; [apply Z.div_pos; lia|]. apply Z.div_lt_upper_bound; lia. }
    assert (Hsum : (diffMs / 60000 = h * 60 + r / 60000)%Z).
    { rewrite Hdm. replace (3600000 * h + r)%Z with (r + (h * 60) * 60000)%Z by lia.
      rewrite Z.div_add by lia. lia. }
    destruct (0 <? h)%Z eqn:Eh; simpl.
    + apply Z.ltb_lt in Eh. split; [lia|]. repeat split; lia.
    + apply Z.ltb_ge in Eh. assert (h = 0%Z) by lia. split; [lia|].
      repeat split; lia.
Qed.

Lemma updateExpiryTime_rounds_down_witness :
  label_minutes (updateExpiryTime 7530000 0) = (7530000 / 60000)%Z
  ∧ match updateExpiryTime 7530000 0 with
    | Expired => False
    | ExpiresInHours h m => (0 < h ∧ 0 <= m < 60 ∧ 3600000 <= 7530000 - 0)%Z
    | ExpiresInMinutes m => (0 <= m < 60 ∧ 7530000 - 0 < 3600000)%Z
    end.
Proof.
  apply (updateExpiryTime_rounds_down 7530000 0). lia.
Defined.

(** ** The subscription manager, whatever happens *)

Lemma manager_step_invariant (m : Manager) (e : manager_event) :
  subscription m = Some (opened m - 1)%nat →
  opened m = S (unsubscribed m) →
  opened m = S (length (reconnects m)) →
  Forall (λ d, d = 2000%Z) (reconnects m ++ timers m) →
  let m' := manager_step m e in
  subscription m' = Some (opened m' - 1)%nat
  ∧ opened m' = S (unsubscribed m')
  ∧ opened m' = S (length (reconnects m'))
  ∧ Forall (λ d, d = 2000%Z) (reconnects m' ++ timers m')
  ∧ (length (reconnects m') + length (timers m')
     = length (reconnects m) + length (timers m) + channel_errors [e])%nat.
Proof.
  intros Hsub Hopen Hrec Hall m'. subst m'. destruct e as [st|]; simpl.
  - repeat split; try done.
    + rewrite app_assoc. apply Forall_app. split; [done|].
      destruct st; simpl; repeat constructor.
    + rewrite length_app. destruct st; simpl; lia.
  - destruct (timers m) as [|delay rest] eqn:Ht; simpl.
    + rewrite Ht. rewrite app_nil_r in Hall. rewrite app_nil_r.
      repeat split; try done; simpl; lia.
    + rewrite Hsub, length_app. simpl.
      split; [f_equal; lia|]. split; [lia|]. split; [lia|].
      split; [by rewrite <- app_assoc | lia].
Qed.

(** From the moment the room is entered, whatever statuses the channel
    reports and whenever the timers fire: exactly one channel is open
    (each reconnect closes the previous channel before it opens the next);
    every CHANNEL_ERROR sets exactly one reconnect timer and no other
    status sets any, so a channel that times out is never reconnected; and
    every reconnect delay is 2000 ms. *)
Theorem manager_keeps_one_channel (es : list manager_event) :
  let m := manager_run es (setupRealtimeSubscription unmounted) in
  subscription m = Some (opened m - 1)%nat
  ∧ opened m = S (unsubscribed m)
  ∧ opened m = S (length (reconnects m))
  ∧ (length (reconnects m) + length (timers m) = channel_errors es)%nat
  ∧ Forall (λ d, d = 2000%Z) (reconnects m ++ timers m).
Proof.
  assert (Hgen : ∀ es m,
    subscription m = Some (opened m - 1)%nat →
    opened m = S (unsubscribed m) →
    opened m = S (length (reconnects m)) →
    Forall (λ d, d = 2000%Z) (reconnects m ++ timers m) →
    let m' := manager_run es m in
    subscription m' = Some (opened m' - 1)%nat
    ∧ opened m' = S (unsubscribed m')
    ∧ opened m' = S (length (reconnects m'))
    ∧ (length (reconnects m') + length (timers m')
       = length (reconnects m) + length (timers m) + channel_errors es)%nat
    ∧ Forall (λ d, d = 2000%Z) (reconnects m' ++ timers m')).
  { clear es. induction es as [|e es IH]; intros m Hsub Hopen Hrec Hall; simpl.
    - repeat split; try done; lia.
    - destruct (manager_step_invariant m e Hsub Hopen Hrec Hall)
        as (Hsub' & Hopen' & Hrec' & Hall' & Hcount).
      destruct (IH (manager_step m e) Hsub' Hopen' Hrec' Hall')
        as (? & ? & ? & Hcount' & ?).
      unfold manager_run in *. repeat split; try done.
      rewrite Hcount', Hcount. simpl.
      destruct e as [[]|]; simpl; lia. }
  intros m.
  destruct (Hgen es (setupRealtimeSubscription unmounted)) as (? & ? & ? & Hc & ?);
    [done | done | done | simpl; constructor |].
  fold m in Hc. simpl in Hc. by repeat split.
Qed.

(** ** Saving one image, and the names of temporary files *)
Section SingleDownload.
Import ImageUtils.

(** downloadImage never throws.  With the permission granted it succeeds
    exactly when a bulk download of that one image counts it, whatever
    the device answers; without the permission it returns
    {success: false, permissionDenied: true} after the permission request
    alone. *)
Theorem downloadImage_agrees_with_bulk (d : Device) (image : RoomImage) :
  (requestPermissionsAsync d = Ok "granted" →
   ∃ single bulk,
     (run (downloadImage d (item d 0) (image_url image))).1 = Ok single
     ∧ (run (downloadMultipleImages d [image])).1 = Ok bulk
     ∧ single_success single = success bulk
     ∧ count bulk = (if single_success single then 1 else 0)%nat
     ∧ single_permissionDenied single = None)
  ∧ (∀ status, requestPermissionsAsync d = Ok status → status ≠ "granted" →
       run (downloadImage d (item d 0) (image_url image))
       = (Ok {| single_success := false; single_permissionDenied := Some true |},
          [EvRequestPermissions]))
  ∧ (∃ single, (run (downloadImage d (item d 0) (image_url image))).1 = Ok single).
Proof.
  set (w := item d 0). set (u := image_url image).
  assert (Hgranted : requestPermissionsAsync d = Ok "granted" →
    (run (downloadImage d w u)).1
    = Ok {| single_success := saved d w image; single_permissionDenied := None |}).
  { intros Hperm. unfold run, downloadImage, etry, ebind, call. rewrite Hperm. simpl.
    destruct (getCachedImageUri_resolves w u [EvRequestPermissions]) as (log1 & -> & _).
    unfold saved, has_local_file, download_ok, album_ok, call, ret. fold u.
    destruct (cache_hit w u) as [path|]; simpl;
      [destruct (String.eqb path u) eqn:Heq; simpl | rewrite String.eqb_refl; simpl].
    all: try (destruct (downloadAsync w) as [status|]; simpl; [|done];
              destruct (status =? 200)%Z; simpl; [|done]).
    all: destruct (createAssetAsync w) as [asset|]; simpl; [|done].
    all: destruct (os d); simpl; [|done].
    all: destruct (getAlbumAsync w) as [[album|]|]; simpl; [| |done].
    all: try (destruct (addAssetsToAlbumAsync w); simpl; done).
    all: destruct (createAlbumAsync w); simpl; done. }
  assert (Hdenied : ∀ status, requestPermissionsAsync d = Ok status → status ≠ "granted" →
    run (downloadImage d w u)
    = (Ok {| single_success := false; single_permissionDenied := Some true |},
       [EvRequestPermissions])).
  { intros status Hperm Hne. unfold run, downloadImage, etry, ebind, call.
    rewrite Hperm. apply String.eqb_neq in Hne. by rewrite Hne. }
  split; [|split; [exact Hdenied|]].
  - intros Hperm. rewrite (Hgranted Hperm).
    unfold run, downloadMultipleImages, etry, ebind, call. rewrite Hperm.
    cbn [String.eqb Ascii.eqb Bool.eqb negb app].
    destruct (download_each_counts d [image] 0 0 [EvRequestPermissions])
      as (log1 & -> & _).
    cbn [count_saved]. fold w. eexists _, _. split; [reflexivity|].
    split; [reflexivity|]. simpl. by destruct (saved d w image).
  - destruct (requestPermissionsAsync d) as [status|] eqn:Hperm.
    + destruct (decide (status = "granted")) as [->|Hne].
      * rewrite Hgranted by done. by eexists.
      * rewrite (Hdenied status) by done. by eexists.
    + unfold run, downloadImage, etry, ebind, call. rewrite Hperm. by eexists.
Qed.

Lemma sapp_nil_r (s : string) : s +:+ "" = s.
Proof.
  induction s as [|a s IH]; [done|].
  change (String a (s +:+ "") = String a s). by f_equal.
Qed.

Lemma sapp_assoc (a b c : string) : (a +:+ b) +:+ c = a +:+ (b +:+ c).
Proof.
  induction a as [|x a IH]; [done|].
  change (String x ((a +:+ b) +:+ c) = String x (a +:+ (b +:+ c))). by f_equal.
Qed.

Lemma chars_app (a b : string) : chars (a +:+ b) = chars a ++ chars b.
Proof.
  induction a as [|x a IH]; [done|].
  change (x :: chars (a +:+ b) = x :: (chars a ++ chars b)). by f_equal.
Qed.

Lemma split_pop_no_slash (s acc : string) :
  (∀ c, c ∈ chars acc → c ≠ "/"%char) →
  ∀ c, c ∈ chars (split_pop acc s) → c ≠ "/"%char.
Proof.
  revert acc. induction s as [|c s IH]; intros acc Hacc; simpl; [done|].
  destruct (Ascii.eqb c "/") eqn:Hc.
  - apply IH. by intros ? ?%elem_of_nil.
  - apply IH. intros x. rewrite chars_app. simpl.
    rewrite elem_of_app, list_elem_of_singleton. intros [Hx| ->]; [by apply Hacc|].
    intros ->. by rewrite Ascii.eqb_refl in Hc.
Qed.

Lemma split_pop_suffix (s acc done_ : string) :
  (done_ = "" ∨ ∃ dir, done_ = dir +:+ "/") →
  ∃ front, done_ +:+ (acc +:+ s) = front +:+ split_pop acc s
           ∧ (front = "" ∨ ∃ dir, front = dir +:+ "/").
Proof.
  revert acc done_. induction s as [|c s IH]; intros acc done_ Hdone; simpl.
  - exists done_. by rewrite sapp_nil_r.
  - destruct (Ascii.eqb c "/") eqn:Hc.
    + apply Ascii.eqb_eq in Hc as ->.
      destruct (IH "" (done_ +:+ (acc +:+ "/"))) as (front & Hfront & Hshape).
      { right. exists (done_ +:+ acc). by rewrite sapp_assoc. }
      exists front. split; [|done]. rewrite <- Hfront.
      by rewrite !sapp_assoc.
    + destruct (IH (acc +:+ String c "") done_ Hdone) as (front & Hfront & Hshape).
      exists front. split; [|done]. rewrite <- Hfront.
      by rewrite !sapp_assoc.
Qed.

(** The file name taken from a url, url.split('/').pop(), is the part of
    the url after its last '/': it contains no '/', and the url is that
    name preceded by nothing or by a text that ends with '/'.  (The name
    can still be "." or "..": nothing is said about where a file of that
    name lies.) *)
Theorem split_pop_is_last_segment (u : string) :
  (∀ c, c ∈ chars (split_pop "" u) → c ≠ "/"%char)
  ∧ (∃ front, u = front +:+ split_pop "" u
              ∧ (front = "" ∨ ∃ dir, front = dir +:+ "/")).
Proof.
  split; [apply split_pop_no_slash; by intros ? ?%elem_of_nil|].
  destruct (split_pop_suffix u "" "") as (front & Hfront & Hshape); [by left|].
  exists front. by split.
Qed.

End SingleDownload.

Lemma downloadImage_agrees_with_bulk_witness :
  ∃ single bulk,
    (run (ImageUtils.downloadImage (Scenario.phone (Ok "granted"))
            (ImageUtils.item (Scenario.phone (Ok "granted")) 0)
            (image_url Scenario.photoY))).1 = Ok single
    ∧ (run (ImageUtils.downloadMultipleImages (Scenario.phone (Ok "granted"))
              [Scenario.photoY])).1 = Ok bulk
    ∧ ImageUtils.single_success single = ImageUtils.success bulk
    ∧ ImageUtils.count bulk = (if ImageUtils.single_success single then 1 else 0)%nat
    ∧ ImageUtils.single_permissionDenied single = None.
Proof.
  apply (downloadImage_agrees_with_bulk (Scenario.phone (Ok "granted")) Scenario.photoY).
  reflexivity.
Defined.

(** ** The stored caches *)
Section StoredCaches.
Import Storage StorageWrites.

Lemma read_cache_value (store : stored_cache) :
  read_cache store = match store with
                     | Ok (Some m) => m
                     | _ => ∅
                     end.
Proof. by destruct store as [[m|]|]. Qed.

Lemma getCachedImage_value (m : gmap string CachedImage) (t : Z) (u : string)
    (log : list event) :
  getCachedImage (Ok (Some m)) t u log
  = (Ok (match m !! u with
         | Some c => if (t - timestamp c <? CACHE_EXPIRATION)%Z then Some c else None
         | None => None
         end), log ++ [EvStorageGet IMAGE_CACHE]).
Proof. reflexivity. Qed.

(** saveCachedImage followed by getCachedImage.  Whenever the cache was
    written, a lookup of the url less than CACHE_EXPIRATION later returns
    the entry just saved, with its path and the time of saving; the
    entries of the other urls are those that were read.  But when the read
    of the cache failed, what is written holds the new entry alone: the
    other entries are lost. *)
Theorem saveCachedImage_then_lookup
    (store : stored_cache) (fault : WriteFault) (now later : Z) (u : string)
    (path : option string) (w h : option Z) (hsh : option string)
    (written : gmap string CachedImage) :
  (saveCachedImage store fault now u path w h hsh).2 = Some written →
  let cacheEntry := {| url := u; cachedPath := path; timestamp := now;
                       width := w; height := h; hash := hsh |} in
  ((later - now < CACHE_EXPIRATION)%Z →
   run (getCachedImage (Ok (Some written)) later u)
   = (Ok (Some cacheEntry), [EvStorageGet IMAGE_CACHE]))
  ∧ (∀ other, other ≠ u → written !! other = read_cache store !! other)
  ∧ (store = Throw → written = {[u := cacheEntry]})
  ∧ ((saveCachedImage store fault now u path w h hsh).1 = true ↔ fault = WritesOk).
Proof.
  intros Hw cacheEntry.
  assert (Hwritten : written = <[u := cacheEntry]> (read_cache store)).
  { unfold saveCachedImage in Hw.
    destruct fault; simpl in Hw; try discriminate; by injection Hw as <-. }
  split; [|split; [|split]].
  - intros Hfresh. unfold run. rewrite getCachedImage_value, Hwritten, lookup_insert_eq.
    simpl. by rewrite (proj2 (Z.ltb_lt _ _) Hfresh).
  - intros other Hne. by rewrite Hwritten, lookup_insert_ne.
  - intros ->. rewrite Hwritten, read_cache_value. apply insert_empty.
  - unfold saveCachedImage. destruct fault; simpl; split; done.
Qed.

(** clearExpiredImageCaches never changes what a lookup returns: at the
    time of the sweep or later, getCachedImage answers for every url as it
    would have without the sweep.  What the sweep writes holds no entry
    older than CACHE_EXPIRATION; and when it succeeds without writing the
    image cache, there was no such entry. *)
Theorem clearExpiredImageCaches_keeps_lookups
    (store : stored_cache) (rooms : stored_room_caches) (now later : Z)
    (image_write rooms_write : bool) (u : string) :
  let r := clearExpiredImageCaches store rooms now image_write rooms_write in
  ((now <= later)%Z →
   run (getCachedImage (after_write store r.1.2) later u)
   = run (getCachedImage store later u))
  ∧ (∀ m e k, r.1.2 = Some m → m !! k = Some e →
       (now - timestamp e <= CACHE_EXPIRATION)%Z)
  ∧ (r.1.1 = true → r.1.2 = None →
     ∀ e k, read_cache store !! k = Some e →
       (now - timestamp e <= CACHE_EXPIRATION)%Z).
Proof.
  intros r.
  set (swept := filter (λ kv : string * CachedImage,
                          ¬ (now - timestamp kv.2 > CACHE_EXPIRATION)%Z)
                       (read_cache store)).
  set (hasChanges := existsb (λ kv : string * CachedImage,
                                (now - timestamp kv.2 >? CACHE_EXPIRATION)%Z)
                             (map_to_list (read_cache store))).
  assert (Hr : r.1.2 = None ∨ r.1.2 = Some swept).
  { subst r. unfold clearExpiredImageCaches. fold swept hasChanges.
    destruct (hasChanges && negb image_write); [by left|].
    destruct hasChanges; simpl;
      repeat match goal with
             | |- context [if ?b then _ else _] => destruct b; simpl
             end; auto. }
  split; [|split].
  - intros Hlater. destruct Hr as [-> | ->]; [done|]. simpl.
    destruct store as [[m|]|]; simpl.
    + unfold run. rewrite !getCachedImage_value. do 2 f_equal.
      subst swept. rewrite read_cache_value.
      destruct (m !! u) as [c|] eqn:Hm.
      * destruct (decide (now - timestamp c > CACHE_EXPIRATION)%Z) as [Hold|Hyoung].
        -- rewrite (proj2 (map_lookup_filter_None _ _ _)).
           ++ symmetry. destruct (later - timestamp c <? CACHE_EXPIRATION)%Z eqn:E;
                [apply Z.ltb_lt in E; lia | done].
           ++ right. intros c' Hc'. rewrite Hm in Hc'. injection Hc' as <-. simpl. tauto.
        -- by rewrite (map_lookup_filter_Some_2 _ _ _ _ Hm Hyoung).
      * rewrite (proj2 (map_lookup_filter_None _ _ _)); [done|]. by left.
    + subst swept. rewrite read_cache_value, map_filter_empty. reflexivity.
    + subst swept. rewrite read_cache_value, map_filter_empty. reflexivity.
  - intros m e k Hm Hk. destruct Hr as [Hr|Hr]; rewrite Hr in Hm; [done|].
    injection Hm as <-. subst swept.
    apply map_lookup_filter_Some in Hk as [_ Hyoung]. simpl in Hyoung. lia.
  - intros Hok Hnone e k Hk.
    assert (Hno : hasChanges = false).
    { subst r. unfold clearExpiredImageCaches in Hok, Hnone.
      fold swept hasChanges in Hok, Hnone.
      destruct hasChanges; [|done]. simpl in *.
      destruct image_write; simpl in *; [|done].
      repeat match type of Hnone with
             | context [if ?b then _ else _] => destruct b; simpl in *
             end; done. }
    subst hasChanges.
    destruct (decide (now - timestamp e <= CACHE_EXPIRATION)%Z) as [|Hold]; [done|].
    assert (existsb (λ kv : string * CachedImage,
                       (now - timestamp kv.2 >? CACHE_EXPIRATION)%Z)
                    (map_to_list (read_cache store)) = true); [|congruence].
    apply existsb_exists. exists (k, e). split.
    + apply list_elem_of_In, elem_of_map_to_list. exact Hk.
    + simpl. apply Z.gtb_lt. lia.
Qed.

End StoredCaches.

Lemma saveCachedImage_then_lookup_witness :
  let cacheEntry :=
    {| Storage.url := "https://x/y.jpg"; Storage.cachedPath := Some "file:///c/y.jpg";
       Storage.timestamp := 1000; Storage.width := None; Storage.height := None;
       Storage.hash := None |} in
  run (Storage.getCachedImage (Ok (Some {[ "https://x/y.jpg" := cacheEntry ]})) 2000
         "https://x/y.jpg")
  = (Ok (Some cacheEntry), [EvStorageGet Storage.IMAGE_CACHE]).
Proof.
  intros cacheEntry.
  apply (saveCachedImage_then_lookup (Ok None) StorageWrites.WritesOk 1000 2000
           "https://x/y.jpg" (Some "file:///c/y.jpg") None None None
           {[ "https://x/y.jpg" := cacheEntry ]}).
  - vm_compute. reflexivity.
  - vm_compute. reflexivity.
Defined.

Lemma clearExpiredImageCaches_keeps_lookups_witness :
  let r := StorageWrites.clearExpiredImageCaches (Ok (Some Scenario.old_cache))
             (Ok None) 700000000 true true in
  run (Storage.getCachedImage (StorageWrites.after_write (Ok (Some Scenario.old_cache)) r.1.2)
         700000000 (image_url Scenario.photoY))
  = run (Storage.getCachedImage (Ok (Some Scenario.old_cache)) 700000000
           (image_url Scenario.photoY)).
Proof.
  intros r.
  apply (clearExpiredImageCaches_keeps_lookups (Ok (Some Scenario.old_cache)) (Ok None)
           700000000 700000000 true true (image_url Scenario.photoY)).
  lia.
Defined.

Section RecentRooms.
Import StorageWrites.

(** saveCurrentRoom, when both writes succeed, stores as recent rooms the
    room itself followed by at most four of the rooms that were stored, in
    their order and without the room itself: the room comes first and
    once, the list has at most five rooms, ids that were distinct stay
    distinct, and when at most four other rooms were stored none of them
    is dropped. *)
Theorem saveCurrentRoom_recent_rooms (store : stored_rooms) (roomData : Room) :
  ∃ others,
    saveCurrentRoom store WritesOk roomData
    = (true, Some roomData, Some (roomData :: others))
    ∧ (length others ≤ 4)%nat
    ∧ others `sublist_of` getRecentRooms store
    ∧ (∀ r, r ∈ others → room_key r ≠ room_key roomData)
    ∧ (NoDup (room_key <$> getRecentRooms store) →
       NoDup (room_key <$> roomData :: others))
    ∧ ((length (getRecentRooms store) ≤ 4)%nat →
       ∀ r, r ∈ getRecentRooms store → room_key r ≠ room_key roomData → r ∈ others).
Proof.
  set (kept := filter (λ r, room_key r ≠ room_key roomData) (getRecentRooms store)).
  exists (take 4 kept). split; [reflexivity|].
  assert (Hsub : take 4 kept `sublist_of` getRecentRooms store).
  { etrans; [apply sublist_take | apply sublist_filter]. }
  assert (Hne : ∀ r, r ∈ take 4 kept → room_key r ≠ room_key roomData).
  { intros r Hr. apply (elem_of_sublist _ kept) in Hr; [|apply sublist_take].
    subst kept. by apply list_elem_of_filter in Hr as [? _]. }
  split; [rewrite length_take; lia|]. split; [done|]. split; [done|]. split.
  - intros Hnd. rewrite fmap_cons. apply NoDup_cons. split.
    + intros (r & Hk & Hr)%list_elem_of_fmap. by apply (Hne r).
    + eapply sublist_NoDup; [exact Hnd | by apply fmap_sublist].
  - intros Hlen r Hr Hk. rewrite take_ge.
    + subst kept. by apply list_elem_of_filter.
    + subst kept. etrans; [apply length_filter | done].
Qed.

End RecentRooms.

Section RemoveCachedImage.
Import Storage StorageWrites.

Lemma removal_start_inv (stored : gmap string CachedImage) (imageUrl : string)
    (e : CachedImage) :
  keyed_by_url stored → stored !! imageUrl = Some e →
  removal_inv imageUrl e (removal_start stored imageUrl).
Proof.
  intros Hkeys He. split; [done|].
  intros i sv Hsv. unfold removal_start in Hsv. simpl in Hsv.
  rewrite list_lookup_fmap in Hsv.
  destruct (map_to_list (delete imageUrl stored) !! i) as [[k v]|] eqn:Hi; [|done].
  simpl in Hsv. injection Hsv as <-. simpl.
  apply list_elem_of_lookup_2, elem_of_map_to_list in Hi.
  apply lookup_delete_Some in Hi as [Hne Hk].
  rewrite (Hkeys k v Hk). congruence.
Qed.

Lemma removal_step_inv (imageUrl : string) (e : CachedImage) (c c' : Removal) :
  removal_inv imageUrl e c → removal_step c c' → removal_inv imageUrl e c'.
Proof.
  intros [Hdisk Hsavers] Hstep.
  inversion Hstep as [c0 i img Hi Hc0 Hc' | c0 i img existingCache now Hi Hc0 Hc'];
    subst.
  - split; [done|]. simpl. intros j sv Hj.
    apply list_lookup_insert_Some in Hj as [(-> & <- & _) | (Hne & Hj)].
    + split; [|done]. exact (Hsavers _ _ Hi).
    + exact (Hsavers j sv Hj).
  - destruct (Hsavers i _ Hi) as [Hurl Hcopy]. split.
    + simpl. by rewrite lookup_insert_ne.
    + simpl. intros j sv Hj.
      apply list_lookup_insert_Some in Hj as [(-> & <- & _) | (Hne & Hj)]; [done|].
      exact (Hsavers j sv Hj).
Qed.

(** removeCachedImage does not remove the metadata of the url.  While it
    rebuilds the cache, in whatever order the saveCachedImage calls it
    starts read and write IMAGE_CACHE (reads and writes succeeding), the
    stored cache holds the entry of the url, unchanged, at every moment: a
    later getCachedImage of the url finds it as before. *)
Theorem removeCachedImage_keeps_metadata
    (stored : gmap string CachedImage) (imageUrl : string) (e : CachedImage)
    (c : Removal) :
  keyed_by_url stored →
  stored !! imageUrl = Some e →
  rtc removal_step (removal_start stored imageUrl) c →
  disk c !! imageUrl = Some e
  ∧ ∀ t log, getCachedImage (Ok (Some (disk c))) t imageUrl log
             = getCachedImage (Ok (Some stored)) t imageUrl log.
Proof.
  intros Hkeys He Hrun.
  assert (Hgen : ∀ c1 c2, rtc removal_step c1 c2 →
                 removal_inv imageUrl e c1 → removal_inv imageUrl e c2).
  { clear. induction 1 as [|c1 c2 c3 Hstep _ IH]; [done|].
    intros Hinv. apply IH. by eapply removal_step_inv. }
  assert (Hinv : removal_inv imageUrl e c).
  { eapply Hgen; [exact Hrun|]. by apply removal_start_inv. }
  destruct Hinv as [Hdisk _]. split; [done|].
  intros t log. by rewrite !getCachedImage_value, Hdisk, He.
Qed.

End RemoveCachedImage.

Lemma saveCurrentRoom_recent_rooms_witness :
  ∃ others,
    StorageWrites.saveCurrentRoom (Ok (Some Scenario.earlier_rooms))
      StorageWrites.WritesOk Scenario.party
    = (true, Some Scenario.party, Some (Scenario.party :: others))
    ∧ (length others ≤ 4)%nat
    ∧ others `sublist_of` Scenario.earlier_rooms
    ∧ (∀ r, r ∈ others → room_key r ≠ room_key Scenario.party)
    ∧ (NoDup (room_key <$> Scenario.earlier_rooms) →
       NoDup (room_key <$> Scenario.party :: others))
    ∧ ((length Scenario.earlier_rooms ≤ 4)%nat →
       ∀ r, r ∈ Scenario.earlier_rooms → room_key r ≠ room_key Scenario.party →
            r ∈ others).
Proof.
  exact (saveCurrentRoom_recent_rooms (Ok (Some Scenario.earlier_rooms)) Scenario.party).
Defined.

(** Removing photo Y from a cache that also holds photo X: the one
    saveCachedImage call, for X, reads and writes; Y is still stored. *)
Lemma removeCachedImage_keeps_metadata_witness :
  ∃ c, rtc StorageWrites.removal_step
         (StorageWrites.removal_start Scenario.two_entries (image_url Scenario.photoY)) c
       ∧ StorageWrites.savers c = [StorageWrites.Finished]
       ∧ StorageWrites.disk c !! image_url Scenario.photoY = Some Scenario.old_entry.
Proof.
  assert (Hrun : ∃ c, rtc StorageWrites.removal_step
                        (StorageWrites.removal_start Scenario.two_entries
                           (image_url Scenario.photoY)) c
                      ∧ StorageWrites.savers c = [StorageWrites.Finished]).
  { eexists. split.
    - eapply rtc_l.
      { apply (StorageWrites.saver_reads _ 0 Scenario.entryX). vm_compute. reflexivity. }
      eapply rtc_l.
      { apply (StorageWrites.saver_writes _ 0 Scenario.entryX
                 Scenario.two_entries 600000000%Z).
        apply list_lookup_insert_eq. vm_compute. lia. }
      apply rtc_refl.
    - vm_compute. reflexivity. }
  destruct Hrun as (c & Hrun & Hsavers). exists c. split; [done|]. split; [done|].
  apply (removeCachedImage_keeps_metadata Scenario.two_entries
           (image_url Scenario.photoY) Scenario.old_entry c).
  - intros k e Hk. unfold Scenario.two_entries in Hk.
    apply lookup_insert_Some in Hk as [[<- <-] | [_ Hk]]; [reflexivity|].
    apply lookup_singleton_Some in Hk as [<- <-]. reflexivity.
  - vm_compute. reflexivity.
  - exact Hrun.
Defined.

(** ** The backend calls *)
Section Backend.
Import Cloudinary.

(** uploadToCloudinary always ends, after at least one and at most
    MAX_RETRIES = 3 attempts.  Every attempt before the last failed with
    a timeout or a network error; the delays waited between attempts are
    1000 ms times the number of the attempt (1000, then 2000); it returns
    the url exactly when its last attempt uploaded; and when it throws,
    the last attempt was the third or met an error that is not retried. *)
Theorem uploadToCloudinary_bounded_retries (world : nat → Attempt) :
  ∃ r, uploadToCloudinary world = Some r
       ∧ (1 ≤ attempts r ≤ MAX_RETRIES)%nat
       ∧ delays r = (λ k, (1000 * Z.of_nat k)%Z) <$> seq 1 (attempts r - 1)
       ∧ (∀ k, (1 ≤ k < attempts r)%nat → retryable (world k) = true)
       ∧ (∀ secure_url, upload_result r = Ok secure_url
                        ↔ world (attempts r) = Uploaded secure_url)
       ∧ (upload_result r = Throw →
          attempts r = MAX_RETRIES ∨ retryable (world (attempts r)) = false).
Proof.
  unfold uploadToCloudinary, MAX_RETRIES. simpl.
  destruct (world 1%nat) as [url1|t1 n1] eqn:E1; simpl.
  { eexists. split; [reflexivity|]. simpl. rewrite E1.
    repeat split; try lia; try congruence; try done; intros k Hk; lia. }
  destruct (t1 || n1) eqn:R1; simpl.
  2:{ eexists. split; [reflexivity|]. simpl. rewrite E1. simpl.
      repeat split; try lia; try congruence; try done; auto; intros k Hk; lia. }
  destruct (world 2%nat) as [url2|t2 n2] eqn:E2; simpl.
  { eexists. split; [reflexivity|]. simpl. rewrite E2.
    repeat split; try lia; try congruence; try done;
      intros k Hk; assert (k = 1%nat) as -> by lia; by rewrite E1. }
  destruct (t2 || n2) eqn:R2; simpl.
  2:{ eexists. split; [reflexivity|]. simpl. rewrite E2. simpl.
      repeat split; try lia; try congruence; try done; auto;
        intros k Hk; assert (k = 1%nat) as -> by lia; by rewrite E1. }
  assert (Hearlier : ∀ k, (1 ≤ k < 3)%nat → retryable (world k) = true).
  { intros k Hk. assert (k = 1 ∨ k = 2)%nat as [-> | ->] by lia.
    - by rewrite E1.
    - by rewrite E2. }
  destruct (world 3%nat) as [url3|t3 n3] eqn:E3; simpl.
  - eexists. split; [reflexivity|]. simpl. rewrite E3.
    repeat split; try lia; try congruence; done.
  - eexists. split; [reflexivity|]. simpl. rewrite E3.
    repeat split; try lia; try congruence; try done; auto.
Qed.

(** deleteMultipleFromCloudinary never throws and sends at most one
    request, to the bulk endpoint, with the public ids found in the urls;
    when no url yields a public id it sends none, and fails unless the
    list was empty.  It reports success only for an empty list or for an
    answer that is ok, parses and says success; deletedCount is then the
    number of keys of the answer's deleted object. *)
Theorem deleteMultipleFromCloudinary_one_request
    (w : CloudinaryWorld) (imageUrls : list string) :
  let publicIds :=
    omap (λ url, match getCloudinaryPublicId w url with
                 | Some publicId => if truthy publicId then Some publicId else None
                 | None => None
                 end) imageUrls in
  ∃ res, run (deleteMultipleFromCloudinary w imageUrls)
         = (Ok res, if bool_decide (publicIds = [])
                    then []
                    else [EvFetch delete_resources_url publicIds])
         ∧ (publicIds = [] → success res = bool_decide (imageUrls = []))
         ∧ (success res = true → imageUrls ≠ [] →
            ∃ response result,
              fetch w publicIds = Ok response ∧ ok response = true
              ∧ parsed response = Some result ∧ body_success result = true
              ∧ deletedCount res = length (default [] (deleted result)))
         ∧ (success res = false → deletedCount res = 0%nat).
Proof.
  intros publicIds. unfold run, deleteMultipleFromCloudinary, etry, ebind, call, ret.
  destruct imageUrls as [|url urls].
  { simpl. eexists. split; [reflexivity|]. simpl. repeat split; done. }
  subst publicIds.
  destruct (omap _ (url :: urls)) as [|pid pids] eqn:Hids.
  { eexists. split; [reflexivity|]. simpl. repeat split; done. }
  rewrite bool_decide_eq_false_2 by done.
  destruct (fetch w (pid :: pids)) as [response|] eqn:Hfetch; simpl.
  - destruct (parsed response) as [result|] eqn:Hparsed; simpl.
    + destruct (ok response) eqn:Hok; simpl.
      * destruct (body_success result) eqn:Hs; simpl.
        -- eexists. split; [reflexivity|]. simpl. repeat split; try done.
           intros _ _. by exists response, result.
        -- eexists. split; [reflexivity|]. simpl. repeat split; done.
      * eexists. split; [reflexivity|]. simpl. repeat split; done.
    + eexists. split; [reflexivity|]. simpl. repeat split; done.
  - eexists. split; [reflexivity|]. simpl. repeat split; done.
Qed.

Lemma deleteMultipleFromCloudinary_extends (w : CloudinaryWorld)
    (imageUrls : list string) (log : list event) :
  ∃ res suffix, deleteMultipleFromCloudinary w imageUrls log = (Ok res, log ++ suffix).
Proof.
  unfold deleteMultipleFromCloudinary, etry, ebind, call, ret.
  destruct imageUrls; [eexists _, []; by rewrite app_nil_r|].
  destruct (omap _ _); [eexists _, []; by rewrite app_nil_r|].
  destruct (fetch w _) as [response|]; simpl; [|by eexists _, _].
  destruct (parsed response); [|by eexists _, _].
  destruct (ok response && _); by eexists _, _.
Qed.

Lemma removeCachedImages_extends (w : DeleteWorld) (imageUrls : list string)
    (log : list event) :
  ∃ suffix, removeCachedImages w imageUrls log = (Ok tt, log ++ suffix).
Proof.
  revert log. induction imageUrls as [|url urls IH]; intros log; simpl.
  - exists []. by rewrite app_nil_r.
  - unfold ebind, call. destruct (IH (log ++ [EvRemoveCachedImage url])) as [suffix ->].
    exists (EvRemoveCachedImage url :: suffix). by rewrite <- app_assoc.
Qed.

(** Closes a case of deleteMultipleRoomImages: the delete is called, it
    decides the result, and [before] was logged between the select and
    it. *)
Local Ltac ends_with before :=
  match goal with
  | |- context [delete_in ?w ?ids] => destruct (delete_in w ids) as [[|]|]
  end;
  simpl;
  (split; [done | intros _; exists before; simpl; rewrite <- ?app_assoc; reflexivity]).

(** What deleteMultipleRoomImages returns for a non-empty list depends on
    the database alone: true exactly when the select of the urls returned
    (even with an error) and the delete returned without error.  Whatever
    Cloudinary and the local cache answer changes nothing; and whenever
    the select returns, the delete of the records is the last call made. *)
Theorem deleteMultipleRoomImages_result (w : DeleteWorld) (imageIds : list string) :
  imageIds ≠ [] →
  (run (deleteMultipleRoomImages w imageIds)).1
  = Ok (match select_in w imageIds, delete_in w imageIds with
        | Ok _, Ok failed => negb failed
        | _, _ => false
        end)
  ∧ (is_ok (select_in w imageIds) = true →
     ∃ before, (run (deleteMultipleRoomImages w imageIds)).2
               = EvDbSelect imageIds :: before ++ [EvDbDelete imageIds]).
Proof.
  intros Hne. destruct imageIds as [|imageId rest]; [done|]. clear Hne.
  set (imageIds := imageId :: rest).
  unfold run, deleteMultipleRoomImages, etry, ebind, call, ret. fold imageIds.
  destruct (select_in w imageIds) as [fetched|] eqn:Hsel; simpl; [|done].
  destruct (error fetched); [by ends_with (@nil event)|].
  destruct (data fetched) as [[|row rows]|]; try by ends_with (@nil event).
  destruct (omap _ (row :: rows)) as [|url urls]; [by ends_with (@nil event)|].
  destruct (deleteMultipleFromCloudinary_extends (cloudinary w) (url :: urls)
              [EvDbSelect imageIds]) as (res & suffix1 & ->).
  destruct (removeCachedImages_extends w (url :: urls) ([EvDbSelect imageIds] ++ suffix1))
    as (suffix2 & ->).
  by ends_with (suffix1 ++ suffix2).
Qed.

(** deleteRoomImage never throws, and what it returns does not depend on
    Cloudinary or on the local cache: it returns true exactly when the
    select of the url returned and either the rpc returned true without
    error or, that failing, the direct delete returned without error.
    The rpc is called whenever the select returns, even with an error; the
    direct delete is called exactly when the rpc returned without
    deleting. *)
Theorem deleteRoomImage_falls_back (w : DeleteOneWorld) (imageId : string) :
  let r := deleteRoomImage w imageId in
  let rpc_deleted :=
    match rpc_delete w with
    | Ok rpc => negb (error rpc) && bool_decide (data rpc = Some true)
    | Throw => false
    end in
  (r.1 = true ↔
   is_ok (select_single w) = true
   ∧ (rpc_deleted = true
      ∨ (is_ok (rpc_delete w) = true ∧ direct_delete w = Ok false)))
  ∧ (RpcDelete imageId ∈ r.2 ↔ is_ok (select_single w) = true)
  ∧ (DirectDelete imageId ∈ r.2 ↔
     is_ok (select_single w) = true ∧ is_ok (rpc_delete w) = true
     ∧ rpc_deleted = false)
  ∧ (rpc_deleted = true → is_ok (select_single w) = true →
     r.1 = true ∧ DirectDelete imageId ∉ r.2).
Proof.
  intros r rpc_deleted. subst r rpc_deleted. unfold deleteRoomImage.
  destruct (select_single w) as [fetched|]; simpl.
  2:{ assert (Hn1 : RpcDelete imageId ∉ [SelectUrl imageId]).
      { intros Hin. apply elem_of_cons in Hin as [Hin|Hin];
          [discriminate|by apply elem_of_nil in Hin]. }
      assert (Hn2 : DirectDelete imageId ∉ [SelectUrl imageId]).
      { intros Hin. apply elem_of_cons in Hin as [Hin|Hin];
          [discriminate|by apply elem_of_nil in Hin]. }
      intuition congruence. }
  set (helpers := if error fetched then [] else _).
  assert (Hnd : DirectDelete imageId ∉ helpers).
  { subst helpers. destruct (error fetched); [by intros ?%elem_of_nil|].
    destruct (data fetched) as [image_url|]; [|by intros ?%elem_of_nil].
    destruct (truthy image_url); [|by intros ?%elem_of_nil].
    intros Hin. repeat (apply elem_of_cons in Hin as [Hin|Hin]; [discriminate|]).
    by apply elem_of_nil in Hin. }
  clearbody helpers.
  assert (Hrpc_in : RpcDelete imageId ∈ SelectUrl imageId :: helpers ++ [RpcDelete imageId]).
  { apply list_elem_of_further, elem_of_app. right. apply list_elem_of_here. }
  assert (Hdd_out : DirectDelete imageId ∉ SelectUrl imageId :: helpers ++ [RpcDelete imageId]).
  { intros Hin. apply elem_of_cons in Hin as [Hin|Hin]; [discriminate|].
    apply elem_of_app in Hin as [Hin|Hin]; [done|].
    apply elem_of_cons in Hin as [Hin|Hin]; [discriminate|by apply elem_of_nil in Hin]. }
  destruct (rpc_delete w) as [rpc|]; simpl; [|intuition congruence].
  destruct (negb (error rpc) && bool_decide (data rpc = Some true)) eqn:Hrpc; simpl;
    [intuition congruence|].
  assert (Hrpc2 : RpcDelete imageId ∈
            (SelectUrl imageId :: helpers ++ [RpcDelete imageId]) ++ [DirectDelete imageId]).
  { apply elem_of_app. by left. }
  assert (Hdd_in : DirectDelete imageId ∈
            (SelectUrl imageId :: helpers ++ [RpcDelete imageId]) ++ [DirectDelete imageId]).
  { apply elem_of_app. right. apply list_elem_of_here. }
  destruct (direct_delete w) as [[|]|]; simpl; intuition congruence.
Qed.

End Backend.

(** ** Who is in the room, and what a download takes *)
Section Participants.
Import Supabase ChatRoomScreen.

Lemma set_add_elem (x y : string) (l : list string) :
  y ∈ set_add x l ↔ y ∈ l ∨ y = x.
Proof.
  unfold set_add. case_bool_decide as Hin.
  - split; [by left|]. intros [?| ->]; done.
  - rewrite elem_of_app, list_elem_of_singleton. done.
Qed.

Lemma set_add_NoDup (x : string) (l : list string) :
  NoDup l → NoDup (set_add x l).
Proof.
  intros Hl. unfold set_add. case_bool_decide as Hin; [done|].
  apply NoDup_app. split; [done|]. split; [|apply NoDup_singleton].
  intros y Hy ->%list_elem_of_singleton. done.
Qed.

Lemma set_add_prefix (x : string) (l : list string) : l `prefix_of` set_add x l.
Proof.
  unfold set_add. case_bool_decide; [done|]. by apply prefix_app_r.
Qed.

(** The loop over the feed, from any set built so far. *)
Lemma participants_loop (l : list RoomImage) (acc : list string) :
  let r :=
    foldl (λ participants image,
             if truthy (uploaded_by image)
                && negb (bool_decide (uploaded_by image ∈ participants))
             then set_add (uploaded_by image) participants
             else participants) acc l in
  (NoDup acc → NoDup r)
  ∧ acc `prefix_of` r
  ∧ ∀ x, x ∈ r ↔ x ∈ acc ∨ (x ≠ "" ∧ ∃ image, image ∈ l ∧ uploaded_by image = x).
Proof.
  revert acc. induction l as [|image l IH]; intros acc; simpl.
  - split; [done|]. split; [done|]. intros x. split; [by left|].
    intros [?|(_ & image & Hin & _)]; [done|]. by apply elem_of_nil in Hin.
  - match goal with |- context [foldl _ ?a l] => set (acc' := a) end.
    assert (Hacc' : (NoDup acc → NoDup acc') ∧ acc `prefix_of` acc'
                    ∧ ∀ x, x ∈ acc' ↔ x ∈ acc ∨ (x ≠ "" ∧ uploaded_by image = x)).
    { subst acc'. unfold truthy.
      destruct (bool_decide (uploaded_by image = "")) eqn:Hempty; simpl.
      - apply bool_decide_eq_true in Hempty. split; [done|]. split; [done|].
        intros x. split; [by left|]. intros [?|[Hx <-]]; done.
      - apply bool_decide_eq_false in Hempty.
        destruct (bool_decide (uploaded_by image ∈ acc)) eqn:Hin; simpl.
        + apply bool_decide_eq_true in Hin. split; [done|]. split; [done|].
          intros x. split; [by left|]. intros [?|[_ <-]]; done.
        + split; [apply set_add_NoDup|]. split; [apply set_add_prefix|].
          intros x. rewrite set_add_elem. split.
          * intros [?| ->]; [by left|by right].
          * intros [?|[_ <-]]; [by left|by right]. }
    destruct Hacc' as (Hnd' & Hpre' & Hel').
    destruct (IH acc') as (Hnd & Hpre & Hel).
    split; [by intros ?%Hnd'%Hnd|]. split; [by etrans|].
    intros x. rewrite Hel, Hel'. split.
    + intros [[?|[Hx Hup]]|(Hx & img & Hin & Hup)].
      * by left.
      * right. split; [done|]. exists image. split; [apply list_elem_of_here|done].
      * right. split; [done|]. exists img. split; [by apply list_elem_of_further|done].
    + intros [?|(Hx & img & Hin & Hup)]; [by left; left|].
      apply elem_of_cons in Hin as [-> | Hin].
      * left. right. done.
      * right. split; [done|]. by exists img.
Qed.

(** getUniqueParticipants lists every participant once, the user first
    (even with an empty name); the others are exactly the creator of the
    room and the uploaders of the images in the feed, those with an empty
    name left out. *)
Theorem getUniqueParticipants_lists_each_once (p : Props) (s : Screen) :
  NoDup (getUniqueParticipants p s)
  ∧ head (getUniqueParticipants p s) = Some (userName p)
  ∧ ∀ x, x ∈ getUniqueParticipants p s ↔
         x = userName p
         ∨ (x ≠ "" ∧ (x = created_by (room p)
                      ∨ ∃ image, image ∈ images s ∧ uploaded_by image = x)).
Proof.
  unfold getUniqueParticipants.
  match goal with |- context [foldl _ ?a (images s)] => set (start := a) end.
  assert (Hstart : NoDup start ∧ [userName p] `prefix_of` start
                   ∧ ∀ x, x ∈ start ↔ x = userName p
                                       ∨ (x ≠ "" ∧ x = created_by (room p))).
  { subst start. unfold truthy. change (set_add (userName p) []) with [userName p].
    destruct (bool_decide (created_by (room p) = "")) eqn:Hempty; simpl.
    - apply bool_decide_eq_true in Hempty. split; [apply NoDup_singleton|].
      split; [done|]. intros x. rewrite list_elem_of_singleton.
      split; [by left|]. intros [?|[Hx ->]]; done.
    - apply bool_decide_eq_false in Hempty.
      destruct (bool_decide (created_by (room p) = userName p)) eqn:Hsame; simpl.
      + apply bool_decide_eq_true in Hsame. split; [apply NoDup_singleton|].
        split; [done|]. intros x. rewrite list_elem_of_singleton.
        split; [by left|]. intros [?|[_ ->]]; done.
      + split; [apply set_add_NoDup, NoDup_singleton|].
        split; [apply set_add_prefix|].
        intros x. rewrite set_add_elem, list_elem_of_singleton. split.
        * intros [?| ->]; [by left|by right].
        * intros [?|[_ ->]]; [by left|by right]. }
  destruct Hstart as (Hnd0 & Hpre0 & Hel0).
  destruct (participants_loop (images s) start) as (Hnd & Hpre & Hel).
  split; [by apply Hnd|]. split.
  - destruct (transitivity Hpre0 Hpre) as [rest ->]. done.
  - intros x. rewrite Hel, Hel0. split.
    + intros [[?|[? ?]]|[? ?]]; [by left|right..]; split; auto.
    + intros [?|[Hx [?|?]]]; [by left; left|by left; right|by right].
Qed.

End Participants.

Section DownloadChoice.
Import Supabase ChatRoomScreen.


End DownloadChoice.

(** ** Room codes *)
Section RoomCode.
Import Supabase.

Lemma length_chars (s : string) : String.length s = length (chars s).
Proof. induction s as [|c s IH]; simpl; congruence. Qed.

Lemma get_in_chars (s : string) (n : nat) :
  (n < String.length s)%nat → ∃ c, String.get n s = Some c ∧ c ∈ chars s.
Proof.
  revert n. induction s as [|c s IH]; intros n Hn; simpl in *; [lia|].
  destruct n as [|n].
  - exists c. split; [done|]. apply list_elem_of_here.
  - destruct (IH n) as (c' & Hget & Hin); [lia|].
    exists c'. split; [done|]. by apply list_elem_of_further.
Qed.

(** chars.charAt(Math.floor(r * chars.length)) for r in [0, 1). *)
Lemma random_char (r : Q) :
  (0 <= r)%Q → (r < 1)%Q →
  ∃ c, charAt room_code_chars
         (Qfloor (r * inject_Z (Z.of_nat (String.length room_code_chars))))
       = String c "" ∧ c ∈ chars room_code_chars.
Proof.
  intros H0 H1. change (Z.of_nat (String.length room_code_chars)) with 32%Z.
  set (i := Qfloor (r * inject_Z 32)).
  assert (0 ≤ i < 32)%Z as Hi.
  { subst i. split.
    - change 0%Z with (Qfloor 0). apply Qfloor_resp_le.
      change (inject_Z 32) with 32%Q. lra.
    - apply Z.lt_nge. intros Hge.
      assert (inject_Z 32 <= inject_Z (Qfloor (r * inject_Z 32)))%Q as Hq
        by (rewrite <- Zle_Qle; exact Hge).
      pose proof (Qfloor_le (r * inject_Z 32)) as Hle.
      change (inject_Z 32) with 32%Q in *. lra. }
  unfold charAt. rewrite (proj2 (Z.ltb_ge i 0)) by lia.
  destruct (get_in_chars room_code_chars (Z.to_nat i)) as (c & -> & Hin).
  { change (String.length room_code_chars) with 32%nat. lia. }
  by exists c.
Qed.

(** generateRoomCode gives six characters, each taken from the 32 of its
    alphabet, so none of them is 0, O, 1 or I. *)
Theorem generateRoomCode_six_clear_chars (random : nat → Q) :
  (∀ i, (0 <= random i)%Q ∧ (random i < 1)%Q) →
  String.length (generateRoomCode random) = 6%nat
  ∧ ∀ c, c ∈ chars (generateRoomCode random) →
         c ∈ chars room_code_chars ∧ c ∉ chars "0O1I".
Proof.
  intros Hrandom. unfold generateRoomCode.
  assert (Hclear : Forall (λ c, c ∉ chars "0O1I") (chars room_code_chars)).
  { apply (bool_decide_unpack _). vm_compute. exact I. }
  cbn [seq foldl].
  destruct (random_char (random 0%nat)) as (c0 & -> & H0); [apply Hrandom..|].
  destruct (random_char (random 1%nat)) as (c1 & -> & H1); [apply Hrandom..|].
  destruct (random_char (random 2%nat)) as (c2 & -> & H2); [apply Hrandom..|].
  destruct (random_char (random 3%nat)) as (c3 & -> & H3); [apply Hrandom..|].
  destruct (random_char (random 4%nat)) as (c4 & -> & H4); [apply Hrandom..|].
  destruct (random_char (random 5%nat)) as (c5 & -> & H5); [apply Hrandom..|].
  split; [reflexivity|].
  intros c Hc.
  assert (Hin : c ∈ chars room_code_chars).
  { change (c ∈ [c0; c1; c2; c3; c4; c5]) in Hc.
    repeat (apply elem_of_cons in Hc as [-> | Hc]; [done|]).
    by apply elem_of_nil in Hc. }
  split; [done|]. by apply (proj1 (Forall_forall _ _) Hclear).
Qed.

End RoomCode.

(** ** Filling the image cache *)
Section Caching.
Import Storage StorageWrites ImageUtils.

Variable cacheImage : nat → string → outcome (option string).

Lemma fulfilled_cons (k : nat) (url : string) (rest : list string) :
  fulfilled cacheImage k (url :: rest)
  = ((if is_ok (cacheImage k url) then 1 else 0) + fulfilled cacheImage (S k) rest)%nat.
Proof.
  unfold fulfilled. cbn [imap]. rewrite Nat.add_0_r.
  rewrite (imap_ext ((λ j url0, cacheImage (k + j)%nat url0) ∘ S)
                    (λ j url0, cacheImage (S k + j)%nat url0) rest)
    by (intros; simpl; f_equal; lia).
  destruct (cacheImage k url); simpl;
    rewrite ?filter_cons_True, ?filter_cons_False by done; done.
Qed.

Lemma rejected_cons (k : nat) (url : string) (rest : list string) :
  rejected cacheImage k (url :: rest)
  = ((if is_ok (cacheImage k url) then 0 else 1) + rejected cacheImage (S k) rest)%nat.
Proof.
  unfold rejected. cbn [imap]. rewrite Nat.add_0_r.
  rewrite (imap_ext ((λ j url0, cacheImage (k + j)%nat url0) ∘ S)
                    (λ j url0, cacheImage (S k + j)%nat url0) rest)
    by (intros; simpl; f_equal; lia).
  destruct (cacheImage k url); simpl;
    rewrite ?filter_cons_True, ?filter_cons_False by done; done.
Qed.

Lemma fulfilled_app (k : nat) (l1 l2 : list string) :
  fulfilled cacheImage k (l1 ++ l2)
  = (fulfilled cacheImage k l1 + fulfilled cacheImage (k + length l1) l2)%nat.
Proof.
  revert k. induction l1 as [|url l1 IH]; intros k.
  - simpl. rewrite Nat.add_0_r. done.
  - simpl. rewrite !fulfilled_cons, IH. replace (S k + length l1)%nat with (k + S (length l1))%nat by lia. lia.
Qed.

Lemma rejected_app (k : nat) (l1 l2 : list string) :
  rejected cacheImage k (l1 ++ l2)
  = (rejected cacheImage k l1 + rejected cacheImage (k + length l1) l2)%nat.
Proof.
  revert k. induction l1 as [|url l1 IH]; intros k.
  - simpl. rewrite Nat.add_0_r. done.
  - simpl. rewrite !rejected_cons, IH. replace (S k + length l1)%nat with (k + S (length l1))%nat by lia. lia.
Qed.

Lemma settled_total (k : nat) (urls : list string) :
  (fulfilled cacheImage k urls + rejected cacheImage k urls = length urls)%nat.
Proof.
  revert k. induction urls as [|url rest IH]; intros k; [done|].
  rewrite fulfilled_cons, rejected_cons. specialize (IH (S k)). simpl.
  destruct (is_ok (cacheImage k url)); lia.
Qed.

Lemma rejected_none (k : nat) (urls : list string) :
  (∀ j url, urls !! j = Some url → is_ok (cacheImage (k + j) url) = true) →
  rejected cacheImage k urls = 0%nat.
Proof.
  revert k. induction urls as [|url rest IH]; intros k Hok; [done|].
  rewrite rejected_cons, IH.
  - specialize (Hok 0%nat url eq_refl). rewrite Nat.add_0_r in Hok. by rewrite Hok.
  - intros j u Hj. replace (S k + j)%nat with (k + S j)%nat by lia. by apply Hok.
Qed.

(** The urls of one batch, awaited in turn. *)
Lemma cache_in_turn_counts (batch : list string) (k : nat) (c : Caching) :
  let c' := cache_in_turn cacheImage k batch c in
  completedCount c' = (completedCount c + fulfilled cacheImage k batch)%nat
  ∧ failedCount c' = (failedCount c + rejected cacheImage k batch)%nat
  ∧ caching_steps c' = caching_steps c ++ (CacheImage <$> batch).
Proof.
  revert k c. induction batch as [|url rest IH]; intros k c.
  - simpl. rewrite app_nil_r, !Nat.add_0_r. done.
  - cbn [cache_in_turn]. cbv zeta.
    match goal with |- context [cache_in_turn _ _ _ ?c0] =>
      destruct (IH (S k) c0) as (Hc & Hf & Hs) end.
    rewrite Hc, Hf, Hs, fulfilled_cons, rejected_cons.
    destruct (cacheImage k url) as [r|]; simpl;
      (split; [lia|split; [lia|by rewrite <- app_assoc]]).
Qed.

Lemma cache_batch_counts (priority : Priority) (i : nat) (batch : list string) (c : Caching) :
  let c' := cache_batch cacheImage priority i batch c in
  completedCount c' = (completedCount c + fulfilled cacheImage i batch)%nat
  ∧ failedCount c' = (failedCount c + rejected cacheImage i batch)%nat
  ∧ caching_steps c' = caching_steps c ++ (CacheImage <$> batch).
Proof.
  destruct priority; simpl; try apply cache_in_turn_counts. done.
Qed.

Lemma cached_urls_app (l1 l2 : list caching_step) :
  cached_urls (l1 ++ l2) = cached_urls l1 ++ cached_urls l2.
Proof. apply omap_app. Qed.

Lemma pauses_app (l1 l2 : list caching_step) :
  pauses (l1 ++ l2) = pauses l1 ++ pauses l2.
Proof. apply omap_app. Qed.

Lemma cached_urls_calls (batch : list string) : cached_urls (CacheImage <$> batch) = batch.
Proof. induction batch as [|u l IH]; [done|]. unfold cached_urls in *. simpl. by f_equal. Qed.

Lemma pauses_calls (batch : list string) : pauses (CacheImage <$> batch) = [].
Proof. induction batch as [|u l IH]; [done|]. unfold pauses in *. simpl. done. Qed.

(** The loop from index [i] on, with enough fuel for the batches left. *)
Lemma caching_loop_counts (imageUrls : list string) (priority : Priority) (fuel i : nat) (c : Caching) :
  (length imageUrls ≤ fuel + i)%nat →
  ∃ c', caching_loop fuel cacheImage imageUrls priority i c = Some c'
    ∧ completedCount c' = (completedCount c + fulfilled cacheImage i (drop i imageUrls))%nat
    ∧ failedCount c' = (failedCount c + rejected cacheImage i (drop i imageUrls))%nat
    ∧ cached_urls (caching_steps c') = cached_urls (caching_steps c) ++ drop i imageUrls
    ∧ pauses (caching_steps c')
      = pauses (caching_steps c)
        ++ match priority with
           | high => []
           | _ => replicate ((length imageUrls - i - 1) / BATCH_SIZE priority)
                            (pause_of priority)
           end.
Proof.
  revert i c. induction fuel as [|fuel IH]; intros i c Hfuel.
  - cbn [caching_loop]. rewrite (proj2 (Nat.ltb_ge i (length imageUrls))) by lia.
    exists c. rewrite drop_ge by lia. rewrite !app_nil_r, !Nat.add_0_r.
    repeat split. destruct priority; [by rewrite app_nil_r|..].
    all: rewrite Nat.div_small by (simpl; lia); simpl; by rewrite app_nil_r.
  - cbn [caching_loop]. destruct (i <? length imageUrls)%nat eqn:Hi.
    2:{ apply Nat.ltb_ge in Hi.
        exists c. rewrite drop_ge by lia. rewrite !app_nil_r, !Nat.add_0_r.
        repeat split. destruct priority; [by rewrite app_nil_r|..].
        all: rewrite Nat.div_small by (simpl; lia); simpl; by rewrite app_nil_r. }
    apply Nat.ltb_lt in Hi.
    set (B := BATCH_SIZE priority).
    assert (1 ≤ B)%nat as HB by (subst B; destruct priority; simpl; lia).
    set (batch := take B (drop i imageUrls)).
    destruct (cache_batch_counts priority i batch c) as (Hc & Hf & Hs).
    set (c1 := cache_batch cacheImage priority i batch c) in *.
    match goal with |- context [caching_loop fuel _ _ _ _ ?c0] => set (c2 := c0) end.
    assert (Hc2 : completedCount c2 = completedCount c1 ∧ failedCount c2 = failedCount c1
                  ∧ cached_urls (caching_steps c2) = cached_urls (caching_steps c1)
                  ∧ pauses (caching_steps c2)
                    = pauses (caching_steps c1)
                      ++ match priority with
                         | high => []
                         | _ => if (i + B <? length imageUrls)%nat
                                then [pause_of priority] else []
                         end).
    { subst c2. destruct priority; simpl; rewrite ?app_nil_r; try done.
      all: destruct (i + _ <? length imageUrls)%nat; simpl;
        rewrite ?cached_urls_app, ?pauses_app, ?app_nil_r; done. }
    destruct Hc2 as (Hc2 & Hf2 & Hu2 & Hp2).
    destruct (IH (i + B)%nat c2) as (c' & Hrun & Hc' & Hf' & Hu' & Hp'); [lia|].
    exists c'. split; [done|].
    assert (Hsplit : drop i imageUrls = batch ++ drop (i + B) imageUrls).
    { subst batch. rewrite <- drop_drop. by rewrite take_drop. }
    assert (Hlen : (i + B < length imageUrls → length batch = B)%nat).
    { intros ?. subst batch. rewrite length_take, length_drop. lia. }
    assert (Hrest : (length imageUrls ≤ i + B → drop (i + B) imageUrls = [])%nat).
    { intros ?. by rewrite drop_ge by lia. }
    assert (Hful : fulfilled cacheImage i (drop i imageUrls)
                   = (fulfilled cacheImage i batch
                      + fulfilled cacheImage (i + length batch) (drop (i + B) imageUrls))%nat)
      by (rewrite Hsplit at 1; apply fulfilled_app).
    assert (Hrej : rejected cacheImage i (drop i imageUrls)
                   = (rejected cacheImage i batch
                      + rejected cacheImage (i + length batch) (drop (i + B) imageUrls))%nat)
      by (rewrite Hsplit at 1; apply rejected_app).
    rewrite Hc', Hf', Hu', Hp', Hc2, Hf2, Hu2, Hp2, Hc, Hf, Hs, Hful, Hrej.
    rewrite cached_urls_app, pauses_app, cached_urls_calls, pauses_calls, app_nil_r.
    rewrite <- !app_assoc, <- Hsplit.
    destruct (decide (i + B < length imageUrls)%nat) as [Hlt|Hge].
    + rewrite (Hlen Hlt). rewrite (proj2 (Nat.ltb_lt _ _) Hlt).
      repeat split; try lia.
      destruct priority; [done|..]; f_equal; subst B; simpl BATCH_SIZE in *.
      all: replace (length imageUrls - i - 1)%nat with ((length imageUrls - (i + 5) - 1) + 1 * 5)%nat by lia;
        rewrite Nat.div_add by lia; rewrite Nat.add_1_r; done.
    + rewrite (Hrest ltac:(lia)). rewrite (proj2 (Nat.ltb_ge _ _)) by lia.
      change (fulfilled cacheImage (i + B) []) with 0%nat.
      change (fulfilled cacheImage (i + length batch) []) with 0%nat.
      change (rejected cacheImage (i + B) []) with 0%nat.
      change (rejected cacheImage (i + length batch) []) with 0%nat.
      repeat split; try lia.
      destruct priority; [done|..]; f_equal; subst B; simpl BATCH_SIZE in *.
      all: rewrite !Nat.div_small by lia; done.
Qed.

(** cacheImagesWithPriority always ends; it calls cacheImage once for
    every url of the list, in the order of the list, also for a url that
    occurs twice; completedCount and failedCount count the calls that
    were fulfilled and rejected, so they add up to the length of the list;
    with 'high' it never pauses, otherwise it makes one pause less than
    there are batches of five, each of 100 ms for 'normal' and of 300 ms
    for 'low'. *)
Theorem cacheImagesWithPriority_covers (imageUrls : list string) (priority : Priority) :
  ∃ c, cacheImagesWithPriority cacheImage imageUrls priority = Some c
    ∧ cached_urls (caching_steps c) = imageUrls
    ∧ completedCount c = fulfilled cacheImage 0 imageUrls
    ∧ failedCount c = rejected cacheImage 0 imageUrls
    ∧ (completedCount c + failedCount c = length imageUrls)%nat
    ∧ pauses (caching_steps c)
      = match priority with
        | high => []
        | normal => replicate ((length imageUrls - 1) / 5) 100%Z
        | low => replicate ((length imageUrls - 1) / 5) 300%Z
        end.
Proof.
  unfold cacheImagesWithPriority.
  destruct imageUrls as [|url rest] eqn:Hurls.
  { eexists. split; [reflexivity|]. simpl. repeat split. by destruct priority. }
  rewrite <- Hurls. clear Hurls.
  destruct (caching_loop_counts imageUrls priority (length imageUrls) 0
              {| completedCount := 0; failedCount := 0; caching_steps := [] |})
    as (c & Hrun & Hc & Hf & Hu & Hp); [lia|].
  exists c. rewrite drop_0 in *. simpl in Hc, Hf, Hu, Hp.
  split; [done|]. split; [done|]. split; [done|]. split; [done|].
  split; [rewrite Hc, Hf; apply settled_total|].
  rewrite Hp, Nat.sub_0_r. by destruct priority.
Qed.
End Caching.

Section Preload.
Import Storage StorageWrites ImageUtils.

(** The body of cacheImage is inside try/catch. *)
Lemma cacheImage_never_throws (d : Device) (w : ItemWorld) (fault : StorageWrites.WriteFault)
    (u : string) (log : list event) :
  ∃ r log', cacheImage d w fault u log = (Ok r, log').
Proof.
  unfold cacheImage, etry.
  match goal with |- context [match ?body log with _ => _ end] =>
    destruct (body log) as [[r|] log'] end; by eexists _, _.
Qed.

Lemma cacheImage_on_ok (d : Device) (faults : nat → StorageWrites.WriteFault) (k : nat) (u : string) :
  is_ok (cacheImage_on d faults k u) = true.
Proof.
  unfold cacheImage_on, run.
  destruct (cacheImage_never_throws d (item d k) (faults k) u []) as (r & log' & ->). done.
Qed.

(** preloadRoomImages hands every non-empty url of the feed to cacheImage
    exactly once and in feed order: the first ten in the call with 'high'
    that it awaits, the others in the call with 'normal' that it leaves
    running.  As cacheImage catches its own errors, neither call counts a
    failure; the first never pauses, the second makes one pause of 100 ms
    less than it has batches of five. *)
Theorem preloadRoomImages_caches_each_url_once
    (d : Device) (faults : nat → StorageWrites.WriteFault) (images : list RoomImage) :
  let urls := filter (λ url, truthy url = true) (image_url <$> images) in
  ∃ recent remaining,
    preloadRoomImages (cacheImage_on d faults) images = Some (recent, remaining)
    ∧ cached_urls (steps_of recent) = take 10 urls
    ∧ cached_urls (steps_of remaining) = drop 10 urls
    ∧ cached_urls (steps_of recent) ++ cached_urls (steps_of remaining) = urls
    ∧ failures_of recent = 0%nat ∧ failures_of remaining = 0%nat
    ∧ pauses (steps_of recent) = []
    ∧ pauses (steps_of remaining) = replicate ((length urls - 11) / 5) 100%Z.
Proof.
  intros urls. subst urls. unfold preloadRoomImages.
  destruct images as [|image rest]; [exists None, None; simpl; repeat split|].
  cbv zeta. set (urls := filter _ (image_url <$> image :: rest)).
  assert (Htake : take (10 `min` length urls) urls = take 10 urls).
  { destruct (decide (10 ≤ length urls)%nat).
    - by rewrite Nat.min_l.
    - rewrite Nat.min_r by lia. by rewrite !take_ge by lia. }
  assert (Hdrop : drop (10 `min` length urls) urls = drop 10 urls).
  { destruct (decide (10 ≤ length urls)%nat).
    - by rewrite Nat.min_l.
    - rewrite Nat.min_r by lia. by rewrite !drop_ge by lia. }
  rewrite Htake, Hdrop.
  assert (Hrecent : ∃ recent,
    match take 10 urls with
    | [] => Some None
    | _ :: _ => Some <$> cacheImagesWithPriority (cacheImage_on d faults) (take 10 urls) high
    end = Some recent
    ∧ cached_urls (steps_of recent) = take 10 urls
    ∧ failures_of recent = 0%nat ∧ pauses (steps_of recent) = []).
  { destruct (take 10 urls) as [|u0 l0] eqn:Hrecent; [by exists None|].
    destruct (cacheImagesWithPriority_covers (cacheImage_on d faults) (u0 :: l0) high)
      as (c & -> & Hu & _ & Hf & _ & Hp).
    exists (Some c). simpl. repeat split; try done.
    rewrite Hf. apply rejected_none. intros. apply cacheImage_on_ok. }
  assert (Hremaining : ∃ remaining,
    match drop 10 urls with
    | [] => Some None
    | _ :: _ => Some <$> cacheImagesWithPriority
                  (λ k, cacheImage_on d faults (length (take 10 urls) + k)%nat)
                  (drop 10 urls) normal
    end = Some remaining
    ∧ cached_urls (steps_of remaining) = drop 10 urls
    ∧ failures_of remaining = 0%nat
    ∧ pauses (steps_of remaining) = replicate ((length (drop 10 urls) - 1) / 5) 100%Z).
  { destruct (drop 10 urls) as [|u0 l0] eqn:Hremaining; [by exists None|].
    destruct (cacheImagesWithPriority_covers
                (λ k, cacheImage_on d faults (length (take 10 urls) + k)%nat)
                (u0 :: l0) normal)
      as (c & -> & Hu & _ & Hf & _ & Hp).
    exists (Some c). simpl. repeat split; try done.
    rewrite Hf. apply rejected_none. intros. apply cacheImage_on_ok. }
  destruct Hrecent as (recent & -> & Hu1 & Hf1 & Hp1).
  destruct Hremaining as (remaining & -> & Hu2 & Hf2 & Hp2).
  exists recent, remaining. rewrite Hu1, Hu2, take_drop.
  repeat split; try done.
  rewrite Hp2, length_drop. do 2 f_equal. lia.
Qed.

End Preload.

(** ** cacheImage *)
Section CacheImage.
Import Storage StorageWrites ImageUtils.

Lemma IMAGE_CACHE_DIR_path_truthy (d : Device) (filename : string) :
  truthy (IMAGE_CACHE_DIR d +:+ filename) = true.
Proof.
  unfold truthy. rewrite bool_decide_eq_false_2; [done|].
  intros Hempty. apply (f_equal chars) in Hempty.
  unfold IMAGE_CACHE_DIR in Hempty. rewrite !chars_app in Hempty.
  destruct (chars (cacheDirectory d)); simpl in Hempty; discriminate.
Qed.

(** The runs of cacheImage, case by case. *)
Lemma cacheImage_cases
    (d : Device) (w : ItemWorld) (fault : WriteFault) (u : string) :
  ∃ r written log,
    run (cacheImage d w fault u) = (Ok (r, written), log)
    ∧ (∀ path, cache_hit w u = Some path →
         r = Some path ∧ written = None
         ∧ log = [EvStorageGet IMAGE_CACHE; EvGetInfo path])
    ∧ (cache_hit w u = None → ∀ path, r = Some path →
         download_ok w = true
         ∧ path = IMAGE_CACHE_DIR d +:+ cache_file_name w u
         ∧ last log = Some (EvStorageGet IMAGE_CACHE)
         ∧ EvDownload u path ∈ log)
    ∧ (∀ m, written = Some m →
         fault ≠ FirstWriteThrows
         ∧ r = Some (IMAGE_CACHE_DIR d +:+ cache_file_name w u)
         ∧ m = <[u := {| url := u;
                         cachedPath := Some (IMAGE_CACHE_DIR d +:+ cache_file_name w u);
                         timestamp := now w;
                         width := None; height := None; hash := None |}]>
                 (read_cache (image_cache w))).
Proof.
  unfold run, cacheImage, getCachedImage, getCachedImages, cache_hit, download_ok,
    saveCachedImage, etry, ebind, call, ret.
  set (file := IMAGE_CACHE_DIR d +:+ _).
  destruct (image_cache w) as [[m|]|] eqn:Hcache; simpl.
  1: destruct (m !! u) as [c|]; simpl.
  1: destruct (now w - timestamp c <? CACHE_EXPIRATION)%Z; simpl.
  1: destruct (cachedPath c) as [path|]; simpl.
  1: destruct (truthy path); simpl.
  all: try match goal with
           | |- context [getInfoAsync ?x] => destruct (getInfoAsync x) as [[|]|]; simpl
           end.
  all: try match goal with
           | |- context [downloadAsync ?x] =>
               destruct (downloadAsync x) as [status|]; simpl;
               [destruct (status =? 200)%Z; simpl; [destruct fault; simpl|]|]
           end.
  all: eexists _, _, _; (split; [reflexivity|]); simpl.
  all: split; [intros p Hp; by simplify_eq|].
  all: split; [intros Hmiss p Hp; simplify_eq; repeat split;
               repeat first [apply list_elem_of_here | apply list_elem_of_further]
              |intros m' Hm'; by simplify_eq].
Qed.

(** cacheImage never throws.  On a cache hit (a valid entry whose file
    exists) it returns the cached path, downloads nothing and writes
    nothing.  It writes the cache only on a miss, after a download that
    answered 200, and then returns the path in IMAGE_CACHE_DIR it
    downloaded to; when it returns null it has written nothing. *)
Theorem cacheImage_downloads_only_on_miss
    (d : Device) (w : ItemWorld) (fault : WriteFault) (u : string) :
  ∃ r written log,
    run (cacheImage d w fault u) = (Ok (r, written), log)
    ∧ (∀ path, cache_hit w u = Some path →
         r = Some path ∧ written = None ∧ ∀ a b, EvDownload a b ∉ log)
    ∧ (∀ m, written = Some m →
         cache_hit w u = None ∧ download_ok w = true
         ∧ r = Some (IMAGE_CACHE_DIR d +:+ cache_file_name w u))
    ∧ (r = None → written = None).
Proof.
  destruct (cacheImage_cases d w fault u) as (r & written & log & Hrun & Hhit & Hmiss & Hw).
  exists r, written, log. split; [done|]. split; [|split].
  - intros path Hpath. destruct (Hhit path Hpath) as (-> & -> & ->).
    split; [done|]. split; [done|]. intros a b Hin.
    repeat (apply elem_of_cons in Hin as [Hin|Hin]; [discriminate|]).
    by apply elem_of_nil in Hin.
  - intros m ->. destruct (Hw m eq_refl) as (_ & -> & _).
    destruct (cache_hit w u) as [path|] eqn:Hpath.
    + by destruct (Hhit path eq_refl) as (_ & ? & _).
    + by destruct (Hmiss eq_refl _ eq_refl) as (? & _).
  - intros ->. destruct written as [m|]; [|done].
    by destruct (Hw m eq_refl) as (_ & ? & _).
Qed.

(** cacheImage, then a lookup.  Once cacheImage has downloaded the image
    and its entry has been written, a call made less than CACHE_EXPIRATION
    later, while the file exists, returns the same path without
    downloading again, and getCachedImageUri gives that path too. *)
Theorem cacheImage_then_reused
    (d : Device) (w w' : ItemWorld) (fault fault' : WriteFault) (u path : string)
    (m : gmap string CachedImage) :
  (run (cacheImage d w fault u)).1 = Ok (Some path, Some m) →
  image_cache w' = Ok (Some m) →
  getInfoAsync w' = Ok true →
  (now w' - now w < CACHE_EXPIRATION)%Z →
  cache_hit w' u = Some path
  ∧ (run (getCachedImageUri w' u)).1 = Ok path
  ∧ run (cacheImage d w' fault' u)
    = (Ok (Some path, None), [EvStorageGet IMAGE_CACHE; EvGetInfo path]).
Proof.
  intros Hfirst Hcache Hinfo Hnow.
  destruct (cacheImage_cases d w fault u) as (r & written & log & Hrun & _ & _ & Hw).
  rewrite Hrun in Hfirst. simpl in Hfirst. injection Hfirst as -> ->.
  destruct (Hw m eq_refl) as (_ & Hpath & Hm). injection Hpath as Hpath.
  assert (Hhit : cache_hit w' u = Some path).
  { unfold cache_hit. rewrite Hcache, Hm, lookup_insert_eq. simpl.
    rewrite (proj2 (Z.ltb_lt _ _) Hnow), Hinfo, Hpath.
    by rewrite IMAGE_CACHE_DIR_path_truthy. }
  split; [done|]. split.
  - destruct (getCachedImageUri_resolves w' u []) as (log' & Huri & _).
    unfold run. by rewrite Huri, Hhit.
  - destruct (cacheImage_cases d w' fault' u) as (r' & written' & log' & -> & Hh & _).
    by destruct (Hh path Hhit) as (-> & -> & ->).
Qed.

End CacheImage.

(** ** The room caches *)
Section RoomCaches.
Import Storage StorageWrites.

Variable sort : list RoomImagesCache → list RoomImagesCache.

Lemma insert_elem_of_inv {A} (l : list A) (i : nat) (x y : A) :
  y ∈ <[i := x]> l → y = x ∨ y ∈ l.
Proof.
  intros [j Hj]%list_elem_of_lookup.
  apply list_lookup_insert_Some in Hj as [(_ & -> & _)|[_ Hj]]; [by left|].
  right. by eapply list_elem_of_lookup_2.
Qed.

Lemma newer_first_trans : Transitive newer_first.
Proof. unfold newer_first. intros a b c ? ?. lia. Qed.

(** saveRoomImagesCache, then getRoomImagesCache.  When every stored room
    cache is older than the one being saved, the new entry is written
    first, followed by at most nine of the caches stored before, and a
    lookup of the room less than CACHE_EXPIRATION later returns the new
    entry, which lists the urls of the images in order. *)
Theorem saveRoomImagesCache_then_lookup
    (store : stored_room_caches) (now later : Z) (roomId : string)
    (images : list RoomImage) :
  (∀ l, sort l ≡ₚ l ∧ Sorted newer_first (sort l)) →
  Forall (λ c, (lastUpdated c < now)%Z) (getRoomImagesCaches store) →
  (later - now < CACHE_EXPIRATION)%Z →
  ∃ cacheEntry others,
    saveRoomImagesCache sort store true now roomId images
    = (true, Some (cacheEntry :: others))
    ∧ cache_roomId cacheEntry = roomId
    ∧ lastUpdated cacheEntry = now
    ∧ url <$> cache_images cacheEntry = image_url <$> images
    ∧ (length others ≤ 9)%nat
    ∧ (∀ c, c ∈ others → c ∈ getRoomImagesCaches store)
    ∧ getRoomImagesCache (Ok (Some (cacheEntry :: others))) later roomId
      = Some cacheEntry.
Proof.
  intros Hsort Holder Hlater. unfold saveRoomImagesCache.
  set (existingCaches := getRoomImagesCaches store) in *.
  set (cachedImages := _ <$> images).
  set (cacheEntry := {| cache_roomId := roomId; cache_images := cachedImages;
                        lastUpdated := now |}).
  match goal with |- context [sort ?l] => set (updated := l) end.
  assert (Hkept : ∃ kept, updated ≡ₚ cacheEntry :: kept
                         ∧ kept `sublist_of` existingCaches).
  { subst updated.
    destruct (list_find _ existingCaches) as [[roomIndex found]|] eqn:Hfind.
    - apply list_find_Some in Hfind as (Hlookup & _).
      exists (delete roomIndex existingCaches). split; [|apply sublist_delete].
      rewrite insert_take_drop by by eapply lookup_lt_Some.
      rewrite delete_take_drop. symmetry. apply Permutation_middle.
    - exists existingCaches. split; [|done]. symmetry. apply Permutation_cons_append. }
  destruct Hkept as (kept & Hupdated & Hkept).
  destruct (Hsort updated) as [Hperm Hsorted].
  apply (@Sorted_StronglySorted _ _ newer_first_trans) in Hsorted.
  assert (Hperm' := transitivity Hperm Hupdated). clear Hperm. rename Hperm' into Hperm.
  destruct (sort updated) as [|first rest] eqn:Hsorted_eq.
  { by apply Permutation_nil_cons in Hperm. }
  assert (Hfirst : first = cacheEntry).
  { assert (Hfirst_in : first ∈ cacheEntry :: kept)
      by (rewrite <- Hperm; apply list_elem_of_here).
    apply elem_of_cons in Hfirst_in as [?|Hold]; [done|].
    apply (elem_of_sublist _ _ _ Hold) in Hkept.
    apply (proj1 (Forall_forall _ _) Holder) in Hkept.
    assert (Hin : cacheEntry ∈ first :: rest)
      by (rewrite Hperm; apply list_elem_of_here).
    apply elem_of_cons in Hin as [?|Hin]; [done|].
    apply StronglySorted_inv in Hsorted as [_ Hall].
    apply (proj1 (Forall_forall _ _) Hall) in Hin. unfold newer_first in Hin.
    simpl in Hin. lia. }
  subst first. apply Permutation_cons_inv in Hperm.
  exists cacheEntry, (take 9 rest).
  split; [done|]. split; [done|]. split; [done|]. split.
  { subst cacheEntry cachedImages. simpl. rewrite <- list_fmap_compose.
    by apply list_fmap_ext. }
  split; [rewrite length_take; lia|]. split.
  - intros c Hc. apply (elem_of_sublist _ rest) in Hc; [|apply sublist_take].
    rewrite Hperm in Hc. by eapply elem_of_sublist.
  - unfold getRoomImagesCache, getRoomImagesCaches. cbn [find].
    rewrite bool_decide_eq_true_2 by done. cbn [lastUpdated cacheEntry].
    by rewrite (proj2 (Z.ltb_lt _ _) Hlater).
Qed.

End RoomCaches.

(** ** The properties above, on the examples *)


(** Math.random() answering one half every time. *)
Lemma generateRoomCode_six_clear_chars_witness :
  String.length (generateRoomCode (λ _, 1 # 2)%Q) = 6%nat
  ∧ ∀ c, c ∈ chars (generateRoomCode (λ _, 1 # 2)%Q) →
         c ∈ chars room_code_chars ∧ c ∉ chars "0O1I".
Proof.
  apply (generateRoomCode_six_clear_chars (λ _, 1 # 2)%Q).
  intros _. split; [discriminate|reflexivity].
Defined.

(** Photo Y is cached on the phone; an hour later, offline, it is served
    from the cache. *)
Lemma cacheImage_then_reused_witness :
  ImageUtils.cache_hit Scenario.an_hour_later (image_url Scenario.photoY)
  = Some "file:///data/cache/images/y.jpg"
  ∧ (run (ImageUtils.getCachedImageUri Scenario.an_hour_later
            (image_url Scenario.photoY))).1
    = Ok "file:///data/cache/images/y.jpg"
  ∧ run (ImageUtils.cacheImage (Scenario.phone (Ok "granted")) Scenario.an_hour_later
           StorageWrites.WritesOk (image_url Scenario.photoY))
    = (Ok (Some "file:///data/cache/images/y.jpg", None),
       [EvStorageGet Storage.IMAGE_CACHE; EvGetInfo "file:///data/cache/images/y.jpg"]).
Proof.
  apply (cacheImage_then_reused (Scenario.phone (Ok "granted"))
           (Scenario.answers 200%Z) Scenario.an_hour_later
           StorageWrites.WritesOk StorageWrites.WritesOk
           (image_url Scenario.photoY) "file:///data/cache/images/y.jpg"
           {[ image_url Scenario.photoY := Scenario.fresh_entry ]}).
  - vm_compute. reflexivity.
  - reflexivity.
  - reflexivity.
  - vm_compute. reflexivity.
Defined.

(** The insertion sort of the examples is a sort by lastUpdated, newest
    first, and it is stable. *)
Lemma insert_cache_Permutation (c : StorageWrites.RoomImagesCache)
    (l : list StorageWrites.RoomImagesCache) :
  Scenario.insert_cache c l ≡ₚ c :: l.
Proof.
  induction l as [|x rest IH]; simpl; [done|].
  destruct (StorageWrites.lastUpdated x <=? StorageWrites.lastUpdated c)%Z; [done|].
  rewrite IH. apply Permutation_swap.
Qed.

Lemma sort_caches_Permutation (l : list StorageWrites.RoomImagesCache) :
  Scenario.sort_caches l ≡ₚ l.
Proof.
  induction l as [|c rest IH]; simpl; [done|].
  rewrite insert_cache_Permutation. by rewrite IH.
Qed.

Lemma insert_cache_Sorted (c : StorageWrites.RoomImagesCache)
    (l : list StorageWrites.RoomImagesCache) :
  Sorted StorageWrites.newer_first l →
  Sorted StorageWrites.newer_first (Scenario.insert_cache c l).
Proof.
  induction 1 as [|x rest Hrest IH Hhd]; simpl.
  - by repeat constructor.
  - destruct (StorageWrites.lastUpdated x <=? StorageWrites.lastUpdated c)%Z eqn:Hle.
    + apply Z.leb_le in Hle. by repeat constructor.
    + apply Z.leb_gt in Hle. constructor; [done|].
      destruct Hhd as [|y rest' Hxy]; simpl.
      * constructor. unfold StorageWrites.newer_first. lia.
      * destruct (StorageWrites.lastUpdated y <=? StorageWrites.lastUpdated c)%Z;
          constructor; [unfold StorageWrites.newer_first; lia | done].
Qed.

Lemma sort_caches_Sorted (l : list StorageWrites.RoomImagesCache) :
  Sorted StorageWrites.newer_first (Scenario.sort_caches l).
Proof.
  induction l as [|c rest IH]; simpl; [constructor|]. by apply insert_cache_Sorted.
Qed.

Lemma sort_caches_stable (l : list StorageWrites.RoomImagesCache) (t : Z) :
  filter (λ c, StorageWrites.lastUpdated c = t) (Scenario.sort_caches l)
  = filter (λ c, StorageWrites.lastUpdated c = t) l.
Proof.
  assert (Hinsert : ∀ c sorted,
    filter (λ c, StorageWrites.lastUpdated c = t) (Scenario.insert_cache c sorted)
    = filter (λ c, StorageWrites.lastUpdated c = t) (c :: sorted)).
  { intros c sorted. induction sorted as [|x rest IH]; simpl; [done|].
    destruct (StorageWrites.lastUpdated x <=? StorageWrites.lastUpdated c)%Z eqn:Hle;
      [done|].
    apply Z.leb_gt in Hle.
    rewrite (filter_cons _ x), IH, !(filter_cons _ c), (filter_cons _ x).
    repeat case_decide; try done; lia. }
  induction l as [|c rest IH]; simpl; [done|].
  rewrite Hinsert, !(filter_cons _ c), IH. done.
Qed.

(** The party's images are cached again: its new entry comes first, the
    cache of the other room stays, the older entry of the party is gone. *)
Lemma saveRoomImagesCache_then_lookup_witness :
  ∃ cacheEntry others,
    StorageWrites.saveRoomImagesCache Scenario.sort_caches
      (Ok (Some Scenario.stored_caches)) true 5000%Z "room-1"
      [Scenario.photoX; Scenario.photoY]
    = (true, Some (cacheEntry :: others))
    ∧ StorageWrites.cache_roomId cacheEntry = "room-1"
    ∧ StorageWrites.lastUpdated cacheEntry = 5000%Z
    ∧ Storage.url <$> StorageWrites.cache_images cacheEntry
      = image_url <$> [Scenario.photoX; Scenario.photoY]
    ∧ (length others ≤ 9)%nat
    ∧ (∀ c, c ∈ others →
            c ∈ StorageWrites.getRoomImagesCaches (Ok (Some Scenario.stored_caches)))
    ∧ StorageWrites.getRoomImagesCache (Ok (Some (cacheEntry :: others))) 6000%Z "room-1"
      = Some cacheEntry.
Proof.
  apply (saveRoomImagesCache_then_lookup Scenario.sort_caches
           (Ok (Some Scenario.stored_caches)) 5000%Z 6000%Z "room-1"
           [Scenario.photoX; Scenario.photoY]).
  - intros l. split; [apply sort_caches_Permutation | apply sort_caches_Sorted].
  - repeat constructor.
  - vm_compute. reflexivity.
Defined.

(** The backend deletes photo Y: the records are deleted last, after the
    Cloudinary request and the removal from the cache. *)
Lemma deleteMultipleRoomImages_result_witness :
  (run (deleteMultipleRoomImages Scenario.backend ["Y"])).1 = Ok true
  ∧ (true = true →
     ∃ before, (run (deleteMultipleRoomImages Scenario.backend ["Y"])).2
               = EvDbSelect ["Y"] :: before ++ [EvDbDelete ["Y"]]).
Proof.
  apply (deleteMultipleRoomImages_result Scenario.backend ["Y"]). discriminate.
Defined.
